(** * IELTS Vocab Master: spaced repetition, dual persistence, audio pipeline

    A shallow embedding of the data-access layer (services/db), the
    text-to-speech client (services/geminiService) and the audio part of
    the App component, with the properties the specification states about
    them.

    Conventions of the embedding.
    - A JavaScript [number] holding a stage, an index or a status code is a
      [Z]; a timestamp ([Date], Firestore [Timestamp], the local fake
      timestamp) is the [Z] of its milliseconds since the epoch.
    - [Date.setDate (getDate () + d)] moves a date by [d] days of the local
      calendar, as ECMAScript defines it: the time value is turned into
      local time, [d] days are added there, and the result is read back
      as a time value. The host's time zone is part of the environment of
      a call, so a change of offset inside the interval (daylight saving)
      shows in the stored time.
    - A string is the text of the JavaScript string. [trim] and
      [toLowerCase] work on the whole of Unicode; they are methods of the
      host ([Js.StringPrototype]) and the code is modelled for any host.
    - A [Map] or the browser's [localStorage] is a [gmap] with string keys.
    - What the outside world answers during a call (the clock, the time
      zone, the random suffix of a local id, whether a Firestore request
      fails and how) is an explicit argument of the call.
    - What happens later than the call that sets it off (an async call
      going on after its [await], a timer running) is an event of its
      own, so that the orders in which such events can come are all
      there. *)

From Stdlib Require Import ZArith String Ascii List Bool Lia.
From Stdlib Require Import DecimalString.
From Stdlib Require QArith.
From stdpp Require Import base option gmap strings list fin_maps.
Import ListNotations.

Local Open Scope string_scope.
Local Open Scope Z_scope.

(** ** JavaScript helpers *)

Module Js.

(** [hay.startsWith(needle)] *)
Definition startsWith (needle hay : string) : bool := String.prefix needle hay.

(** [hay.includes(needle)] *)
Fixpoint includes (needle hay : string) : bool :=
  if String.prefix needle hay then true
  else match hay with
       | EmptyString => false
       | String _ rest => includes needle rest
       end.

(** [arr[i]] for a numeric index: [undefined] (here [None]) outside the
    array, also for a negative index. *)
Definition index {A} (arr : list A) (i : Z) : option A :=
  if i <? 0 then None else nth_error arr (Z.to_nat i).

(** [arr.findIndex(p)], with [None] for [-1]. *)
Fixpoint findIndex {A} (p : A -> bool) (arr : list A) : option nat :=
  match arr with
  | [] => None
  | x :: rest => if p x then Some 0%nat else option_map S (findIndex p rest)
  end.

(** [x || dflt] for a number that may be [undefined]: [0] is falsy too. *)
Definition num_or (x : option Z) (dflt : Z) : Z :=
  match x with
  | Some v => if v =? 0 then dflt else v
  | None => dflt
  end.

(** Decimal rendering of an integer, as template strings do. *)
Definition show_Z (z : Z) : string := NilZero.string_of_int (Z.to_int z).

(** [s.trim()] and [s.toLowerCase()]. What they remove and what they map
    is laid down by ECMAScript over all of Unicode (white space such as
    U+00A0, U+2028 or U+FEFF, case pairs outside ASCII); the code only
    calls them, so they are taken from the host. *)
Class StringPrototype := {
  trim : string -> string;
  toLowerCase : string -> string
}.

End Js.

(** ** The word record (types.ts) *)

Record WordDetails := {
  word : string;
  ipa : option string;
  partOfSpeech : string;
  definition : string;
  example : string;
  collocations : list string;
  synonyms : list string;
  antonyms : option (list string)   (* not required by the response schema *)
}.

Record StoredWord := {
  details : WordDetails;
  id : string;
  userId : string;
  createdAt : Z;
  nextReviewAt : Z;
  srsStage : Z;
  lastReviewedAt : option Z;
  isInFFL : option bool
}.

Definition set_progress (w : StoredWord) (stage next : Z) (reviewed : Z) : StoredWord :=
  {| details := details w; id := id w; userId := userId w;
     createdAt := createdAt w; nextReviewAt := next; srsStage := stage;
     lastReviewedAt := Some reviewed; isInFFL := isInFFL w |}.

Definition set_isInFFL (w : StoredWord) (b : bool) : StoredWord :=
  {| details := details w; id := id w; userId := userId w;
     createdAt := createdAt w; nextReviewAt := nextReviewAt w;
     srsStage := srsStage w; lastReviewedAt := lastReviewedAt w;
     isInFFL := Some b |}.

Definition set_id (w : StoredWord) (i : string) : StoredWord :=
  {| details := details w; id := i; userId := userId w;
     createdAt := createdAt w; nextReviewAt := nextReviewAt w;
     srsStage := srsStage w; lastReviewedAt := lastReviewedAt w;
     isInFFL := isInFFL w |}.

(** ** Spaced-repetition schedule (services/db, updateWordProgress) *)

Module Srs.

(** Spaced Repetition Intervals in days *)
Definition SRS_INTERVALS : list Z := [1; 3; 7; 14; 30; 90].

Definition SRS_LENGTH : Z := Z.of_nat (length SRS_INTERVALS).

(** ECMAScript's msPerDay. *)
Definition MS_PER_DAY : Z := 86400000.

(** The host's time zone, as ECMAScript's LocalTZA: [offsetAt t] is the
    offset of local time from UTC in force at the time value [t]
    (LocalTZA(t, true)); [offsetOf l] is the offset by which the local
    time [l] is read back (LocalTZA(l, false)), which for a local time
    that occurs twice or not at all around a change of offset is the
    offset before the change. *)
Record TimeZone := {
  offsetAt : Z -> Z;
  offsetOf : Z -> Z
}.

Definition LocalTime (tz : TimeZone) (t : Z) : Z := t + offsetAt tz t.

Definition UTC (tz : TimeZone) (l : Z) : Z := l - offsetOf tz l.

(** [d.setDate(d.getDate() + days)]: the day of the month is read in local
    time, and MakeDay with a day past the end of the month counts on into
    the next one, so the local time moves by [days] whole days and is then
    read back. *)
Definition addDays (tz : TimeZone) (d : Z) (days : Z) : Z :=
  UTC tz (LocalTime tz d + days * MS_PER_DAY).

(** The first half of [updateWordProgress]: the new stage and the number
    of days added to the current date. *)
Definition newStage (isCorrect : bool) (currentStage : Z) : Z :=
  if isCorrect then Z.min (currentStage + 1) SRS_LENGTH
  else Z.max 0 (currentStage - 1).

Definition daysToAdd (isCorrect : bool) (currentStage : Z) : Z :=
  if isCorrect then
    Js.num_or
      (Js.index SRS_INTERVALS
         (Z.min (newStage true currentStage - 1) (SRS_LENGTH - 1)))
      1
  else 0.

Definition nextReviewDate (tz : TimeZone) (now : Z) (isCorrect : bool)
    (currentStage : Z) : Z :=
  addDays tz now (daysToAdd isCorrect currentStage).

(** *** Specification vocabulary

    No change of offset shows between the time [t] and the local time
    [days] days later: that local time is read back with the offset in
    force at [t]. *)
Definition sameOffset (tz : TimeZone) (t days : Z) : Prop :=
  offsetOf tz (LocalTime tz t + days * MS_PER_DAY) = offsetAt tz t.

(** The local time of [t] is read back with an offset that is not
    smaller than the one in force at [t]. By the rule of the offset before
    the change this holds on every host: the two differ only in an hour
    that occurs twice, and there the earlier, larger offset is taken. *)
Definition readsBack (tz : TimeZone) (t : Z) : Prop :=
  offsetAt tz t <= offsetOf tz (LocalTime tz t).

(** The offset by which the local time [days] days after [t] is read back
    is less than [days] days ahead of the offset in force at [t]. *)
Definition offsetWithin (tz : TimeZone) (t days : Z) : Prop :=
  offsetOf tz (LocalTime tz t + days * MS_PER_DAY) - offsetAt tz t < days * MS_PER_DAY.

(** The stage of a new word after [n] successful reviews in a row. *)
Definition after_successes (n : nat) : Z := Nat.iter n (newStage true) 0.

End Srs.

(** ** Persistence: remote document store with local-storage fallback
       (services/db) *)

Module Db.

(** A thrown JavaScript error, as far as the code looks at it:
    [error.code] and [error.message]. *)
Record JsError := { code : option string; message : option string }.

(** [new Error(msg)] *)
Definition Error (msg : string) : JsError :=
  {| code := None; message := Some msg |}.

(** Outcome of an async function: the promise resolves or rejects. *)
Inductive Result (A : Type) :=
| Returned (a : A)
| Thrown (e : JsError).
Arguments Returned {A} a.
Arguments Thrown {A} e.

Definition LOCAL_STORAGE_PREFIX : string := "vocab_master_data_".

(** The string kept under a local-storage key. [Words ws] is the JSON text
    that [JSON.stringify (ws.map serializeWord)] writes: timestamps become
    ISO strings, which keep their millisecond, and [deserializeWords]
    reads the text back as [ws]. [Garbage] is any other text: one that
    does not parse, or parses to something that is not an array. *)
Inductive LocalItem :=
| Words (ws : list StoredWord)
| Garbage (raw : string).

(** The remote store holds one collection [users/{userId}/words] per user,
    a map from document id to document; the [id] field of a stored
    document is not part of its data and is filled in from the document
    id when the collection is read. *)
Record World := {
  remote : gmap string (gmap string StoredWord);
  localStorage : gmap string LocalItem
}.

(** What the outside answers during one call. A Firestore request fails
    with the given error when its field is [Some]. *)
Record Env := {
  now : Z;                          (* new Date(), Date.now() *)
  timeZone : Srs.TimeZone;          (* the zone in which Date reads a calendar day *)
  serverNow : Z;                    (* serverTimestamp() *)
  randomSuffix : string;            (* Math.random().toString(36).substr(2, 9) *)
  newDocId : string;                (* the id addDoc gives the new document *)
  getDocsError : option JsError;
  addDocError : option JsError;
  updateDocError : option JsError
}.

Definition collection (w : World) (userId : string) : gmap string StoredWord :=
  default ∅ (remote w !! userId).

Definition set_collection (w : World) (userId : string)
    (c : gmap string StoredWord) : World :=
  {| remote := <[userId := c]> (remote w); localStorage := localStorage w |}.

Definition set_local (w : World) (key : string) (v : LocalItem) : World :=
  {| remote := remote w; localStorage := <[key := v]> (localStorage w) |}.

(** [deserializeWords (localStorage.getItem key || '[]')] *)
Definition deserializeWords (item : option LocalItem) : list StoredWord :=
  match item with
  | Some (Words ws) => ws
  | Some (Garbage _) => []
  | None => []
  end.

Definition localWords (w : World) (userId : string) : list StoredWord :=
  deserializeWords (localStorage w !! (LOCAL_STORAGE_PREFIX ++ userId)).

(** [getDocs (query (collection ...))]: the documents with their ids. *)
Definition docs (w : World) (userId : string) : list StoredWord :=
  List.map (fun kd => set_id (snd kd) (fst kd)) (map_to_list (collection w userId)).

(** [updateDoc (doc (db, path, wordId), fields)]: fails as the environment
    says, or with [not-found] when the document does not exist; otherwise
    the fields are written. *)
Definition updateDoc (env : Env) (userId wordId : string)
    (f : StoredWord -> StoredWord) (w : World) : World + JsError :=
  match updateDocError env with
  | Some e => inr e
  | None =>
      match collection w userId !! wordId with
      | Some d => inl (set_collection w userId (<[wordId := f d]> (collection w userId)))
      | None => inr {| code := Some "not-found"; message := Some "No document to update" |}
      end
  end.

Definition ALREADY_SAVED : string := "You have already saved this word.".

Definition code_is (e : JsError) (c : string) : bool :=
  match code e with
  | Some c' => String.eqb c' c
  | None => false
  end.

Definition isFirestoreError (e : JsError) : bool :=
  code_is e "permission-denied" ||
  code_is e "unavailable" ||
  code_is e "failed-precondition" ||
  code_is e "not-found" ||
  match message e with
  | Some m => Js.includes "permissions" m
  | None => false
  end.

Definition same_word (wordData : WordDetails) (x : StoredWord) : bool :=
  String.eqb (word (details x)) (word wordData).

(** The [try] block of [saveWordToProfile]. *)
Definition saveRemote (env : Env) (uid : string) (wordData : WordDetails)
    (w : World) : World * Result bool :=
  match getDocsError env with
  | Some e => (w, Thrown e)
  | None =>
      let snapshot := List.filter (same_word wordData) (docs w uid) in
      match snapshot with
      | _ :: _ => (w, Thrown (Error ALREADY_SAVED))
      | [] =>
          match addDocError env with
          | Some e => (w, Thrown e)
          | None =>
              let newWord :=
                {| details := wordData; id := newDocId env; userId := uid;
                   createdAt := now env; nextReviewAt := now env;
                   srsStage := 0; lastReviewedAt := None;
                   isInFFL := Some false |} in
              (set_collection w uid (<[newDocId env := newWord]> (collection w uid)),
               Returned true)
          end
      end
  end.

(** The fallback inside the [catch] block of [saveWordToProfile]. *)
Definition saveLocal (env : Env) (uid : string) (wordData : WordDetails)
    (w : World) : World * Result bool :=
  let words := localWords w uid in
  if existsb (same_word wordData) words then (w, Thrown (Error ALREADY_SAVED))
  else
    let newLocalWord :=
      {| details := wordData;
         id := "local_" ++ Js.show_Z (now env) ++ "_" ++ randomSuffix env;
         userId := uid;
         createdAt := now env; nextReviewAt := now env;
         srsStage := 0; lastReviewedAt := None; isInFFL := Some false |} in
    (set_local w (LOCAL_STORAGE_PREFIX ++ uid) (Words (words ++ [newLocalWord])),
     Returned true).

Definition saveWordToProfile (env : Env) (uid : string) (wordData : WordDetails)
    (w : World) : World * Result bool :=
  match saveRemote env uid wordData w with
  | (w', Returned b) => (w', Returned b)
  | (w', Thrown error) =>
      if isFirestoreError error then saveLocal env uid wordData w'
      else (w', Thrown error)
  end.

Definition getUserWords (env : Env) (uid : string) (w : World) : list StoredWord :=
  match getDocsError env with
  | None => docs w uid
  | Some _ => localWords w uid
  end.

(** Every writer of this module sets [nextReviewAt], so the test for a
    missing one never fires. *)
Definition isDue (env : Env) (x : StoredWord) : bool :=
  nextReviewAt x <=? now env.

Definition getDueWords (env : Env) (uid : string) (w : World) : list StoredWord :=
  List.filter (isDue env) (getUserWords env uid w).

Definition in_ffl (x : StoredWord) : bool :=
  match isInFFL x with
  | Some true => true
  | _ => false
  end.

Definition getFFLWords (env : Env) (uid : string) (w : World) : list StoredWord :=
  List.filter in_ffl (getUserWords env uid w).

Definition has_id (wordId : string) (x : StoredWord) : bool :=
  String.eqb (id x) wordId.

(** Local update shared by the two fallbacks: find the word by id, change
    it in place and write the list back; nothing is written when the id
    is not in the list. *)
Definition updateLocal (uid wordId : string) (f : StoredWord -> StoredWord)
    (w : World) : World :=
  let words := localWords w uid in
  match Js.findIndex (has_id wordId) words with
  | Some idx =>
      set_local w (LOCAL_STORAGE_PREFIX ++ uid) (Words (alter f idx words))
  | None => w
  end.

Definition markWordAsForgot (env : Env) (uid wordId : string) (w : World) : World :=
  if Js.startsWith "local_" wordId then
    updateLocal uid wordId (fun x => set_isInFFL x true) w
  else
    match updateDoc env uid wordId (fun x => set_isInFFL x true) w with
    | inl w' => w'
    | inr _ => updateLocal uid wordId (fun x => set_isInFFL x true) w
    end.

(** [error.code] used as a condition. *)
Definition code_truthy (e : JsError) : bool :=
  match code e with
  | Some c => negb (String.eqb c "")
  | None => false
  end.

Definition updateWordProgress (env : Env) (uid wordId : string)
    (isCorrect : bool) (currentStage : Z) (w : World) : World :=
  let newStage := Srs.newStage isCorrect currentStage in
  let nextReviewDate :=
    Srs.nextReviewDate (timeZone env) (now env) isCorrect currentStage in
  let local := updateLocal uid wordId
                 (fun x => set_progress x newStage nextReviewDate (now env)) in
  if Js.startsWith "local_" wordId then local w
  else
    match updateDoc env uid wordId
            (fun x => set_progress x newStage nextReviewDate (serverNow env)) w with
    | inl w' => w'
    | inr error => if code_truthy error then local w else w
    end.

(** *** Specification vocabulary

    The store is unreachable or forbidden, as the error tells. *)
Definition storeUnreachable (e : JsError) : Prop :=
  code e = Some "permission-denied" \/ code e = Some "unavailable" \/
  code e = Some "failed-precondition" \/ code e = Some "not-found" \/
  exists m, message e = Some m /\ Js.includes "permissions" m = true.

(** *** Reading the store back

    The word a call addresses by its id: the remote document of that id,
    and the first word of that id in the local list (the one [findIndex]
    finds). *)
Definition remoteWord (w : World) (uid wordId : string) : option StoredWord :=
  collection w uid !! wordId.

Definition localWord (w : World) (uid wordId : string) : option StoredWord :=
  List.find (has_id wordId) (localWords w uid).

(** [updateWordProgress] takes its local fallback: the id is a local
    one, or the remote update fails with an error that has a code (a
    missing document fails with [not-found]). *)
Definition usesLocal (env : Env) (uid wordId : string) (w : World) : Prop :=
  Js.startsWith "local_" wordId = true \/
  (exists e, updateDocError env = Some e /\ code_truthy e = true) \/
  (updateDocError env = None /\ remoteWord w uid wordId = None).

(** [markWordAsForgot] takes its local fallback: the id is a local one,
    or the remote update fails, whatever the error. *)
Definition forgotUsesLocal (env : Env) (uid wordId : string) (w : World) : Prop :=
  Js.startsWith "local_" wordId = true \/
  (exists e, updateDocError env = Some e) \/
  (updateDocError env = None /\ remoteWord w uid wordId = None).

(** An update of word [wordId] that takes the store from [w] to [w']
    reached the store, and [x'] is the record it leaves: the remote
    document when the remote update went through, the local word when the
    fallback ran ([local]) and found the word. *)
Definition writtenAs (local : Prop) (env : Env) (uid wordId : string)
    (w w' : World) (x' : StoredWord) : Prop :=
  (Js.startsWith "local_" wordId = false /\ updateDocError env = None /\
   is_Some (remoteWord w uid wordId) /\ remoteWord w' uid wordId = Some x') \/
  (local /\
   is_Some (localWord w uid wordId) /\ localWord w' uid wordId = Some x').

(** A review by [updateWordProgress] is recorded as [x']. *)
Definition recordedAs (env : Env) (uid wordId : string) (w w' : World)
    (x' : StoredWord) : Prop :=
  writtenAs (usesLocal env uid wordId w) env uid wordId w w' x'.

(** A mark by [markWordAsForgot] is stored as [x']. *)
Definition markedAs (env : Env) (uid wordId : string) (w w' : World)
    (x' : StoredWord) : Prop :=
  writtenAs (forgotUsesLocal env uid wordId w) env uid wordId w w' x'.

End Db.

(** ** Review screens (components/Quiz, components/Exam) *)

Module Quiz.

Inductive QuizMode := due | ffl.

(** The state of the component. [timers] counts the callbacks handed to
    [setTimeout] that have not run yet. *)
Record QuizState := {
  words : list StoredWord;
  currentIndex : Z;
  isFlipped : bool;
  isComplete : bool;
  timers : nat
}.

(** [loadWords]: the words of the mode, shuffled by [sort] with a random
    comparator ([shuffle] is the order that sort happens to produce). *)
Definition loadWords (shuffle : list StoredWord -> list StoredWord)
    (env : Db.Env) (uid : string) (mode : QuizMode) (w : Db.World) : QuizState :=
  let fetchedWords :=
    match mode with
    | due => Db.getDueWords env uid w
    | ffl => Db.getFFLWords env uid w
    end in
  {| words := shuffle fetchedWords; currentIndex := 0;
     isFlipped := false; isComplete := false; timers := 0 |}.

(** [onPrefetch (words[currentIndex + 2].word)], when there is such a
    word: the texts handed to [onPrefetch]. *)
Definition prefetchAhead (ws : list StoredWord) (idx : Z) : list string :=
  if idx + 2 <? Z.of_nat (length ws)
  then match Js.index ws (idx + 2) with
       | Some x => [word (details x)]
       | None => []
       end
  else [].

(** [handleResult correct]: the stored progress changes only in [due]
    mode. The index stays as it is: the move to the next card is left to
    a timer of 300 ms. [None] is the TypeError of reading [currentWord.id]
    when there is no current word. The last component lists the prefetch
    requests. *)
Definition handleResult (env : Db.Env) (uid : string) (mode : QuizMode)
    (q : QuizState) (correct : bool) (w : Db.World)
    : option (Db.World * QuizState * list string) :=
  let currentWord := Js.index (words q) (currentIndex q) in
  let saved :=
    match mode with
    | due =>
        match currentWord with
        | Some cw => Some (Db.updateWordProgress env uid (id cw) correct (srsStage cw) w)
        | None => None
        end
    | ffl => Some w
    end in
  match saved with
  | None => None
  | Some w' =>
      if currentIndex q <? Z.of_nat (length (words q)) - 1 then
        Some (w',
              {| words := words q; currentIndex := currentIndex q;
                 isFlipped := false; isComplete := isComplete q;
                 timers := S (timers q) |},
              prefetchAhead (words q) (currentIndex q))
      else
        Some (w',
              {| words := words q; currentIndex := currentIndex q;
                 isFlipped := isFlipped q; isComplete := true;
                 timers := timers q |},
              [])
  end.

(** A timer set by [handleResult] runs:
    [setCurrentIndex (prev => prev + 1)]. *)
Definition timerFires (q : QuizState) : QuizState :=
  match timers q with
  | O => q
  | S n =>
      {| words := words q; currentIndex := currentIndex q + 1;
         isFlipped := isFlipped q; isComplete := isComplete q; timers := n |}
  end.

(** What the component renders once the words are loaded. The answer
    buttons are part of the card, whichever side is up. [Broken] is the
    TypeError of reading [currentWord.word] when the index is past the
    last card. *)
Inductive Screen :=
| NoWords
| Complete
| Card (currentWord : StoredWord)
| Broken.

Definition render (q : QuizState) : Screen :=
  if Nat.eqb (length (words q)) 0 then NoWords
  else if isComplete q then Complete
  else match Js.index (words q) (currentIndex q) with
       | Some cw => Card cw
       | None => Broken
       end.

End Quiz.

Module Exam.

Record ExamState := {
  words : list StoredWord;
  currentIndex : Z;
  isFlipped : bool;
  isComplete : bool;
  forgotCount : Z;
  timers : nat
}.

Definition loadAllWords (shuffle : list StoredWord -> list StoredWord)
    (env : Db.Env) (uid : string) (w : Db.World) : ExamState :=
  {| words := shuffle (Db.getUserWords env uid w); currentIndex := 0;
     isFlipped := false; isComplete := false; forgotCount := 0; timers := 0 |}.

(** [handleNext forgot]: a forgotten word is marked in the store. The
    index is moved by a timer of 200 ms. *)
Definition handleNext (env : Db.Env) (uid : string) (e : ExamState)
    (forgot : bool) (w : Db.World)
    : option (Db.World * ExamState * list string) :=
  let currentWord := Js.index (words e) (currentIndex e) in
  let saved :=
    if forgot then
      match currentWord with
      | Some cw => Some (Db.markWordAsForgot env uid (id cw) w)
      | None => None
      end
    else Some w in
  let count := if forgot then forgotCount e + 1 else forgotCount e in
  match saved with
  | None => None
  | Some w' =>
      if currentIndex e <? Z.of_nat (length (words e)) - 1 then
        Some (w',
              {| words := words e; currentIndex := currentIndex e;
                 isFlipped := false; isComplete := isComplete e;
                 forgotCount := count; timers := S (timers e) |},
              Quiz.prefetchAhead (words e) (currentIndex e))
      else
        Some (w',
              {| words := words e; currentIndex := currentIndex e;
                 isFlipped := isFlipped e; isComplete := true;
                 forgotCount := count; timers := timers e |},
              [])
  end.

Definition timerFires (e : ExamState) : ExamState :=
  match timers e with
  | O => e
  | S n =>
      {| words := words e; currentIndex := currentIndex e + 1;
         isFlipped := isFlipped e; isComplete := isComplete e;
         forgotCount := forgotCount e; timers := n |}
  end.

Definition render (e : ExamState) : Quiz.Screen :=
  if Nat.eqb (length (words e)) 0 then Quiz.NoWords
  else if isComplete e then Quiz.Complete
  else match Js.index (words e) (currentIndex e) with
       | Some cw => Quiz.Card cw
       | None => Quiz.Broken
       end.

End Exam.

(** ** Text-to-speech client (services/geminiService, fetchTtsAudio) *)

Module Tts.

(** A property read off an error object: a number, a string or nothing. *)
Inductive JsVal :=
| JUndefined
| JNum (n : Z)
| JStr (s : string).

Definition truthy (v : JsVal) : bool :=
  match v with
  | JUndefined => false
  | JNum n => negb (n =? 0)
  | JStr s => negb (String.eqb s "")
  end.

(** [v === n] for a number literal [n] *)
Definition is_num (v : JsVal) (n : Z) : bool :=
  match v with
  | JNum m => m =? n
  | _ => false
  end.

(** [a || b] *)
Definition js_or (a b : JsVal) : JsVal := if truthy a then a else b.

Record ApiError := {
  status : JsVal;
  code : JsVal;
  message : option string
}.

(** [new Error(msg)] *)
Definition Error (msg : string) : ApiError :=
  {| status := JUndefined; code := JUndefined; message := Some msg |}.

(** What [makeRequest] reads of a response: of the first candidate, the
    inline data and the text of its first part, and its finish reason. *)
Record Response := {
  audioData : option string;
  textRefusal : option string;
  finishReason : option string
}.

Definition nonempty (s : option string) : option string :=
  match s with
  | Some x => if String.eqb x "" then None else Some x
  | None => None
  end.

(** One call of [ai.models.generateContent]. *)
Inductive Attempt :=
| Responds (r : Response)
| Fails (e : ApiError).

Inductive Event :=
| Request                (* a generateContent call is sent *)
| Sleep (ms : Z).        (* setTimeout delay awaited before a retry *)

Inductive Result :=
| Returned (audio : string)
| Thrown (e : ApiError).

Definition QUOTA_MESSAGE : string :=
  "Voice service quota exceeded. Please try again later.".

(** [error.message || ''] *)
Definition msg_of (e : ApiError) : string :=
  match message e with
  | Some m => m
  | None => ""
  end.

Definition isRateLimit (e : ApiError) : bool :=
  let msg := msg_of e in
  let st := js_or (status e) (code e) in
  is_num st 429 || Js.includes "429" msg ||
  Js.includes "RESOURCE_EXHAUSTED" msg || Js.includes "quota" msg.

Definition isServer (e : ApiError) : bool :=
  let st := js_or (status e) (code e) in
  is_num st 500 || is_num st 503.

Definition isOther (e : ApiError) : bool := Js.includes "OTHER" (msg_of e).

Definition isRetryable (e : ApiError) : bool :=
  isRateLimit e || isServer e || isOther e.

Definition maxRetries (e : ApiError) : nat :=
  if isRateLimit e then 3%nat else 2%nat.

Definition retryDelay (e : ApiError) (retryCount : nat) : Z :=
  (if isRateLimit e then 2000 else 1000) * 2 ^ Z.of_nat retryCount.

(** What the [try] block does with a response: hand back the audio, retry
    on finish reason OTHER, or throw (into the [catch] block of the same
    call). *)
Inductive TryOutcome :=
| Audio (data : string)
| RetryOther
| Throws (e : ApiError).

Definition inspect (r : Response) (retryCount : nat) : TryOutcome :=
  match nonempty (audioData r) with
  | Some data => Audio data
  | None =>
      match nonempty (textRefusal r) with
      | Some _ => Throws (Error "Audio generation refused by model.")
      | None =>
          match nonempty (finishReason r) with
          | Some reason =>
              if String.eqb reason "STOP"
              then Throws (Error "Failed to generate audio: Empty response")
              else if String.eqb reason "OTHER" && (retryCount <? 2)%nat
              then RetryOther
              else Throws (Error ("Audio generation failed (Reason: " ++ reason ++ ")"))
          | None => Throws (Error "Failed to generate audio: Empty response")
          end
      end
  end.

(** [makeRequest retryCount]. Each call sends one request, so the call
    with retry count [n] is the [n]-th request (from 0) and gets the
    answer [api n]. A retry is [return makeRequest (retryCount + 1)]
    without [await]: what the inner call throws is not caught again by
    the outer one. [fuel] bounds the recursion depth; [None] is fuel
    exhausted. *)
Fixpoint makeRequest (fuel : nat) (api : nat -> Attempt) (retryCount : nat)
    : option (list Event * Result) :=
  match fuel with
  | O => None
  | S fuel' =>
      let retry (ms : Z) :=
        match makeRequest fuel' api (S retryCount) with
        | Some (tr, res) => Some (Request :: Sleep ms :: tr, res)
        | None => None
        end in
      let catch (error : ApiError) :=
        if isRetryable error && (retryCount <? maxRetries error)%nat
        then retry (retryDelay error retryCount)
        else if isRateLimit error
        then Some ([Request], Thrown (Error QUOTA_MESSAGE))
        else Some ([Request],
                   Thrown (Error (match nonempty (message error) with
                                  | Some m => m
                                  | None => "TTS Service Unavailable"
                                  end))) in
      match api retryCount with
      | Fails e => catch e
      | Responds r =>
          match inspect r retryCount with
          | Audio data => Some ([Request], Returned data)
          | RetryOther => retry (1000 * (Z.of_nat retryCount + 1))
          | Throws e => catch e
          end
      end
  end.

Section Host.
Context {proto : Js.StringPrototype}.

(** [fetchTtsAudio text]; [apiKey] is [process.env.API_KEY]. *)
Definition fetchTtsAudio (fuel : nat) (apiKey : option string)
    (api : nat -> Attempt) (text : string) : option (list Event * Result) :=
  match nonempty apiKey with
  | None => Some ([], Thrown (Error "API_KEY is missing in environment variables."))
  | Some _ =>
      let cleanText := Js.trim text in
      if String.eqb cleanText "" then Some ([], Thrown (Error "Text is empty"))
      else makeRequest fuel api O
  end.

End Host.

Definition requests (tr : list Event) : nat :=
  length (List.filter (fun e => match e with Request => true | _ => false end) tr).

Definition sleeps (tr : list Event) : list Z :=
  flat_map (fun e => match e with Sleep ms => [ms] | _ => [] end) tr.

End Tts.

(** ** Audio cache and playback (App component) *)

Module Audio.

Section Host.
Context {proto : Js.StringPrototype}.

(** [text.trim().toLowerCase()] *)
Definition cacheKey (text : string) : string := Js.toLowerCase (Js.trim text).

(** A decoded buffer, identified by the base64 payload it was decoded
    from. *)
Record AudioBuffer := { payload : string }.

Inductive Caller := Prefetch | Play.

(** A call suspended at [await fetchTtsAudio (text)] (and the decoding
    that follows it). [p_playingWord] is the [playingWord] its closure
    holds: the value of the last render before the call. *)
Record Pending := {
  p_caller : Caller;
  p_text : string;
  p_cacheKey : string;
  p_playingWord : option string
}.

(** The component's audio state, with the part of the browser it drives:
    audio sources are numbered in the order they are created, and
    [sounding] holds those started and neither stopped nor ended. *)
Record State := {
  playingWord : option string;
  audioCache : gmap string AudioBuffer;
  activeSourceRef : option nat;
  created : nat;
  sounding : gset nat;
  ttsCalls : list string;
  pending : list Pending
}.

Definition init : State :=
  {| playingWord := None; audioCache := ∅; activeSourceRef := None;
     created := 0; sounding := ∅; ttsCalls := []; pending := [] |}.

Definition setPlayingWord (v : option string) (st : State) : State :=
  {| playingWord := v; audioCache := audioCache st;
     activeSourceRef := activeSourceRef st; created := created st;
     sounding := sounding st; ttsCalls := ttsCalls st; pending := pending st |}.

Definition cacheSet (k : string) (b : AudioBuffer) (st : State) : State :=
  {| playingWord := playingWord st; audioCache := <[k := b]> (audioCache st);
     activeSourceRef := activeSourceRef st; created := created st;
     sounding := sounding st; ttsCalls := ttsCalls st; pending := pending st |}.

(** The call reaches [await fetchTtsAudio (text)] and is suspended. *)
Definition suspend (p : Pending) (st : State) : State :=
  {| playingWord := playingWord st; audioCache := audioCache st;
     activeSourceRef := activeSourceRef st; created := created st;
     sounding := sounding st; ttsCalls := ttsCalls st ++ [p_text p];
     pending := pending st ++ [p] |}.

Definition dropPending (i : nat) (st : State) : State :=
  {| playingWord := playingWord st; audioCache := audioCache st;
     activeSourceRef := activeSourceRef st; created := created st;
     sounding := sounding st; ttsCalls := ttsCalls st;
     pending := delete i (pending st) |}.

Definition stopCurrentAudio (st : State) : State :=
  let st' :=
    match activeSourceRef st with
    | Some src =>
        {| playingWord := playingWord st; audioCache := audioCache st;
           activeSourceRef := None; created := created st;
           sounding := sounding st ∖ {[src]};
           ttsCalls := ttsCalls st; pending := pending st |}
    | None => st
    end in
  setPlayingWord None st'.

(** [playAudioBuffer (buffer, ctx)] followed by
    [activeSourceRef.current = source]. *)
Definition playAudioBuffer (buffer : AudioBuffer) (st : State) : State :=
  let source := created st in
  {| playingWord := playingWord st; audioCache := audioCache st;
     activeSourceRef := Some source; created := S source;
     sounding := {[source]} ∪ sounding st;
     ttsCalls := ttsCalls st; pending := pending st |}.

(** The end of [playText], from the test on [playingWord] on. *)
Definition finishPlay (captured : option string) (text : string)
    (buffer : AudioBuffer) (st : State) : State :=
  match captured with
  | Some p => if String.eqb p text then playAudioBuffer buffer st else st
  | None => playAudioBuffer buffer st
  end.

(** [prefetchAudio text], up to its first suspension. [ctx] tells whether
    [getAudioContext ()] yields a context. *)
Definition prefetchAudio (text : string) (ctx : bool) (st : State) : State :=
  if String.eqb text "" then st
  else
    let key := cacheKey text in
    match audioCache st !! key with
    | Some _ => st
    | None =>
        if ctx then
          suspend {| p_caller := Prefetch; p_text := text; p_cacheKey := key;
                     p_playingWord := playingWord st |} st
        else st
    end.

(** [playText text], up to its first suspension or to its end. *)
Definition playText (text : string) (ctx : bool) (st : State) : State :=
  if String.eqb text "" then st
  else
    let captured := playingWord st in
    let st1 := stopCurrentAudio st in
    let key := cacheKey text in
    let st2 := setPlayingWord (Some text) st1 in
    if ctx then
      match audioCache st2 !! key with
      | Some buffer => finishPlay captured text buffer st2
      | None =>
          suspend {| p_caller := Play; p_text := text; p_cacheKey := key;
                     p_playingWord := captured |} st2
      end
    else setPlayingWord None st2.

(** The suspended call number [i] goes on: [outcome] is the decoded
    buffer, or [None] when fetching or decoding threw. *)
Definition resume (i : nat) (outcome : option AudioBuffer) (st : State) : State :=
  match pending st !! i with
  | None => st
  | Some p =>
      let st1 := dropPending i st in
      match p_caller p, outcome with
      | Prefetch, Some buffer => cacheSet (p_cacheKey p) buffer st1
      | Prefetch, None => st1
      | Play, Some buffer =>
          finishPlay (p_playingWord p) (p_text p) buffer
            (cacheSet (p_cacheKey p) buffer st1)
      | Play, None => setPlayingWord None st1
      end
  end.

(** The [onended] handler of source [source] runs when it has played to
    its end. *)
Definition ended (source : nat) (st : State) : State :=
  if decide (source ∈ sounding st) then
    let st' :=
      {| playingWord := playingWord st; audioCache := audioCache st;
         activeSourceRef := activeSourceRef st; created := created st;
         sounding := sounding st ∖ {[source]};
         ttsCalls := ttsCalls st; pending := pending st |} in
    if decide (activeSourceRef st = Some source) then
      {| playingWord := None; audioCache := audioCache st';
         activeSourceRef := None; created := created st';
         sounding := sounding st'; ttsCalls := ttsCalls st';
         pending := pending st' |}
    else st'
  else st.

(** What can happen to the component, one event-loop turn at a time. *)
Inductive Event :=
| CallPrefetch (text : string) (ctx : bool)
| CallPlay (text : string) (ctx : bool)
| Resume (i : nat) (outcome : option AudioBuffer)
| Ended (source : nat).

Definition step (st : State) (ev : Event) : State :=
  match ev with
  | CallPrefetch text ctx => prefetchAudio text ctx st
  | CallPlay text ctx => playText text ctx st
  | Resume i outcome => resume i outcome st
  | Ended source => ended source st
  end.

Definition run (st : State) (evs : list Event) : State := fold_left step evs st.

End Host.

(** Every source that sounds is the one [activeSourceRef] holds, so at
    most one sounds. *)
Definition singleSource (st : State) : Prop :=
  forall source, source ∈ sounding st -> activeSourceRef st = Some source.

(** The event resumes a suspended [playText] with its buffer. *)
Definition resumesPlay (st : State) (ev : Event) : Prop :=
  exists i buffer p,
    ev = Resume i (Some buffer) /\ pending st !! i = Some p /\ p_caller p = Play.

End Audio.

(** ** Sample data *)

Module Sample.

Definition apple : WordDetails :=
  {| word := "apple"; ipa := Some "/ap.l/"; partOfSpeech := "noun";
     definition := "a round fruit"; example := "She ate an apple.";
     collocations := ["apple pie"]; synonyms := ["pome"]; antonyms := Some [] |}.

Definition pear : WordDetails :=
  {| word := "pear"; ipa := None; partOfSpeech := "noun";
     definition := "a sweet fruit"; example := "A ripe pear.";
     collocations := []; synonyms := []; antonyms := Some [] |}.

(** An analysis that leaves the antonyms out. *)
Definition quince : WordDetails :=
  {| word := "quince"; ipa := Some "/kwins/"; partOfSpeech := "noun";
     definition := "a hard yellow fruit"; example := "Quince jelly sets well.";
     collocations := ["quince jelly"]; synonyms := []; antonyms := None |}.

Definition stored (d : WordDetails) (i : string) (stage : Z) : StoredWord :=
  {| details := d; id := i; userId := "u1"; createdAt := 1690000000000;
     nextReviewAt := 1690000000000; srsStage := stage;
     lastReviewedAt := None; isInFFL := Some false |}.

Definition local_id : string := "local_1690000000000_k3x9q2m1z".

(** The user's words live in the remote store. *)
Definition w_remote : Db.World :=
  {| Db.remote := {[ "u1" := {[ "w1" := stored apple "w1" 0 ]} ]};
     Db.localStorage := ∅ |}.

(** The user's words live in local storage. *)
Definition w_local : Db.World :=
  {| Db.remote := ∅;
     Db.localStorage :=
       {[ Db.LOCAL_STORAGE_PREFIX ++ "u1" := Db.Words [stored apple local_id 0] ]} |}.

(** Asia/Dhaka: six hours ahead of UTC, with no change of offset. *)
Definition dhaka : Srs.TimeZone :=
  {| Srs.offsetAt := fun _ => 21600000; Srs.offsetOf := fun _ => 21600000 |}.

(** Europe/Berlin around the end of daylight saving on 29 October 2023,
    01:00 UTC: two hours ahead of UTC before, one hour after. The local
    times from 02:00 to 03:00 of that day occur twice and are read back
    with the earlier offset. *)
Definition FALL_BACK : Z := 1698541200000.

Definition berlin : Srs.TimeZone :=
  {| Srs.offsetAt := fun t => if t <? FALL_BACK then 7200000 else 3600000;
     Srs.offsetOf := fun l => if l <? FALL_BACK + 7200000 then 7200000 else 3600000 |}.

Definition online : Db.Env :=
  {| Db.now := 1700000000000; Db.timeZone := dhaka; Db.serverNow := 1700000000123;
     Db.randomSuffix := "p0o9i8u7y"; Db.newDocId := "Zq3Lr8";
     Db.getDocsError := None; Db.addDocError := None;
     Db.updateDocError := None |}.

Definition unavailable : Db.JsError :=
  {| Db.code := Some "unavailable";
     Db.message := Some "Failed to get document because the client is offline." |}.

Definition offline : Db.Env :=
  {| Db.now := 1700000000000; Db.timeZone := dhaka; Db.serverNow := 1700000000123;
     Db.randomSuffix := "p0o9i8u7y"; Db.newDocId := "Zq3Lr8";
     Db.getDocsError := Some unavailable; Db.addDocError := Some unavailable;
     Db.updateDocError := Some unavailable |}.

(** Reads go through, updates fail. *)
Definition read_only : Db.Env :=
  {| Db.now := 1700000000000; Db.timeZone := dhaka; Db.serverNow := 1700000000123;
     Db.randomSuffix := "p0o9i8u7y"; Db.newDocId := "Zq3Lr8";
     Db.getDocsError := None; Db.addDocError := None;
     Db.updateDocError := Some unavailable |}.

(** A review in Berlin at noon UTC on 28 October 2023, the day before the
    clocks go back. *)
Definition autumn : Db.Env :=
  {| Db.now := 1698494400000; Db.timeZone := berlin; Db.serverNow := 1698494400123;
     Db.randomSuffix := "p0o9i8u7y"; Db.newDocId := "Zq3Lr8";
     Db.getDocsError := None; Db.addDocError := None;
     Db.updateDocError := None |}.

(** A review in Berlin half an hour after the clocks went back: the local
    time 02:30 for the second time. *)
Definition repeated_hour : Db.Env :=
  {| Db.now := 1698543000000; Db.timeZone := berlin; Db.serverNow := 1698543000123;
     Db.randomSuffix := "p0o9i8u7y"; Db.newDocId := "Zq3Lr8";
     Db.getDocsError := None; Db.addDocError := None;
     Db.updateDocError := None |}.

End Sample.

(** ** Connection check (services/db, verifyDbConnection) *)

Module DbCheck.

Record VerifyResult := { success : bool; message : string }.

Definition nl : string := String (ascii_of_nat 10) EmptyString.

(** [logs.join('\n')] *)
Definition join_lines (logs : list string) : string := String.concat nl logs.

(** The dummy document written to test write access. Its extra field
    [isTest] has no place in [StoredWord]; it carries no [isInFFL]. *)
Definition testDocData (env : Db.Env) (uid : string) : StoredWord :=
  {| details :=
       {| word := "_CONNECTION_TEST_"; ipa := Some "/test/";
          partOfSpeech := "test"; definition := "Temporary connectivity test";
          example := "Test sentence";
          collocations := []; synonyms := []; antonyms := Some [] |};
     id := Db.newDocId env; userId := uid;
     createdAt := Db.now env; nextReviewAt := Db.now env; srsStage := 0;
     lastReviewedAt := None; isInFFL := None |}.

(** The text shown after [Error: ]. A missing [error.message] prints as
    [undefined]. *)
Definition advice (error : Db.JsError) : string :=
  if Db.code_is error "permission-denied" then
    "Permission Denied. Please check your Firestore Security Rules to ensure users can read/write to 'users/{userId}/words'."
  else if Db.code_is error "unavailable" then
    "Service Unavailable. You might be offline or the client cannot reach Firestore."
  else match Db.message error with
       | Some m => m
       | None => "undefined"
       end.

Definition failure (logs : list string) (error : Db.JsError) : VerifyResult :=
  {| success := false;
     message := "❌ Database Connection Failed" ++ nl ++ nl ++ "Log:" ++ nl
                ++ join_lines logs ++ nl ++ nl ++ "Error: " ++ advice error |}.

(** [verifyDbConnection userId]. [deleteDocError] tells whether the
    [deleteDoc] request fails; the other requests fail as [env] says. *)
Definition verifyDbConnection (env : Db.Env) (deleteDocError : option Db.JsError)
    (uid : string) (w : Db.World) : Db.World * VerifyResult :=
  let logs1 := ["🔍 Checking Read Access..."] in
  match Db.getDocsError env with
  | Some error => (w, failure logs1 error)
  | None =>
      let logs3 := (logs1 ++ ["✅ Read Access: OK"; "📝 Checking Write Access..."])%list in
      match Db.addDocError env with
      | Some error => (w, failure logs3 error)
      | None =>
          let w1 := Db.set_collection w uid
                      (<[Db.newDocId env := testDocData env uid]> (Db.collection w uid)) in
          let logs5 := (logs3 ++ ["✅ Write Access: OK"; "🧹 Cleaning up test data..."])%list in
          match deleteDocError with
          | Some error => (w1, failure logs5 error)
          | None =>
              (Db.set_collection w1 uid (delete (Db.newDocId env) (Db.collection w1 uid)),
               {| success := true;
                  message := "Database Connection Successful!" ++ nl ++ nl
                             ++ join_lines (logs5 ++ ["✅ Cleanup: OK"])%list |})
          end
      end
  end.

End DbCheck.

(** ** PCM decoding (utils/audioUtils, decodeAudioData) *)

Module AudioUtils.

(** What the code builds: one channel of samples. A sample is the 16-bit
    value divided by 32768, which a 32-bit float holds exactly, so it is
    kept as a rational. *)
Record AudioBuffer := {
  numberOfChannels : nat;
  length : nat;
  sampleRate : Z;
  channelData : list QArith_base.Q
}.

Inductive Decoded :=
| Buffer (b : AudioBuffer)
| RangeError            (* new Int16Array on a buffer of odd byte length *)
| NotSupportedError.    (* createBuffer with a length of 0 frames *)

(** [bytes[i] = binaryString.charCodeAt(i)] *)
Definition bytes (binaryString : string) : list Z :=
  List.map (fun c => Z.of_nat (nat_of_ascii c)) (list_ascii_of_string binaryString).

Definition toInt16 (v : Z) : Z := if v <? 32768 then v else v - 65536.

(** [new Int16Array(bytes.buffer)]: pairs of bytes, low byte first;
    [None] when a byte is left over. *)
Fixpoint int16Array (bs : list Z) : option (list Z) :=
  match bs with
  | [] => Some []
  | [_] => None
  | lo :: hi :: rest =>
      match int16Array rest with
      | Some vs => Some (toInt16 (lo + 256 * hi) :: vs)
      | None => None
      end
  end.

(** [decodeAudioData], from the binary string that [atob] returns. *)
Definition decodeAudioData (binaryString : string) (sampleRate : Z) : Decoded :=
  match int16Array (bytes binaryString) with
  | None => RangeError
  | Some dataInt16 =>
      let frameCount := List.length dataInt16 in
      match frameCount with
      | O => NotSupportedError
      | _ =>
          Buffer {| numberOfChannels := 1; length := frameCount;
                    sampleRate := sampleRate;
                    channelData := List.map (fun v => QArith_base.Qmake v 32768) dataInt16 |}
      end
  end.

(** The default of [decodeAudioData], the rate of the speech service. *)
Definition DEFAULT_SAMPLE_RATE : Z := 24000.

End AudioUtils.

(** ** Mind map (components/MindMap) *)

Module MindMap.

Definition quote : ascii := ascii_of_nat 34.

Definition dropLeadingQuote (s : string) : string :=
  match s with
  | String c rest => if Ascii.eqb c quote then rest else s
  | EmptyString => EmptyString
  end.

Fixpoint dropTrailingQuote (s : string) : string :=
  match s with
  | EmptyString => EmptyString
  | String c EmptyString => if Ascii.eqb c quote then EmptyString else s
  | String c rest => String c (dropTrailingQuote rest)
  end.

(** [text.replace(/^"|"$/g, '')]: a quote at the very start goes, and a
    quote at the very end goes. *)
Definition stripQuotes (s : string) : string :=
  dropTrailingQuote (dropLeadingQuote s).

(** [arr.slice(0, 3).join(', ')] *)
Definition joinFirst3 (arr : list string) : string :=
  String.concat ", " (firstn 3 arr).

(** The texts of the five outer nodes, in the order of [items]. *)
Definition nodeTexts (data : WordDetails) : list string :=
  [ partOfSpeech data;
    definition data;
    String quote (example data ++ String quote EmptyString);
    joinFirst3 (collocations data);
    joinFirst3 (synonyms data) ].

(** [handleNodeClick (e, text)]: the text handed to [onPlayAudio]. *)
Definition handleNodeClick (text : string) : string := stripQuotes text.

End MindMap.

(** ** Search and save (App component) *)

Module App.

Record SearchState := {
  searchTerm : string;
  data : option WordDetails;
  loading : bool;
  error : option string;
  isSaved : bool
}.

(** [err.message && err.message.includes("already saved")] *)
Definition alreadySaved (err : Db.JsError) : bool :=
  match Db.message err with
  | Some m => Js.includes "already saved" m
  | None => false
  end.

Definition set_isSaved (st : SearchState) (b : bool) : SearchState :=
  {| searchTerm := searchTerm st; data := data st; loading := loading st;
     error := error st; isSaved := b |}.

(** [handleSaveWord]. [user] is the uid of the signed-in user, if any.
    The last component lists the texts shown by [alert]. *)
Definition handleSaveWord (env : Db.Env) (user : option string)
    (st : SearchState) (w : Db.World) : Db.World * SearchState * list string :=
  match user, data st with
  | Some uid, Some d =>
      match Db.saveWordToProfile env uid d w with
      | (w', Db.Returned _) => (w', set_isSaved st true, [])
      | (w', Db.Thrown err) =>
          if alreadySaved err then (w', set_isSaved st true, [])
          else (w', st,
                [match Tts.nonempty (Db.message err) with
                 | Some m => m
                 | None => "Failed to save word"
                 end])
      end
  | _, _ => (w, st, [])
  end.

(** The array literal [toPrefetch]: the texts queued for background
    prefetching after a search. [None] is the TypeError of
    [result.antonyms.slice] when the analysis has no antonyms. *)
Definition toPrefetch (result : WordDetails) : option (list string) :=
  match antonyms result with
  | Some ants =>
      Some (word result :: firstn 3 (synonyms result) ++ firstn 3 ants
              ++ firstn 2 (collocations result))%list
  | None => None
  end.

Definition NOT_FOUND : string :=
  "Could not find definition. Please check your API key or try another word.".

Section Host.
Context {proto : Js.StringPrototype}.

(** [handleSearch]. [analysis] is what [fetchWordAnalysis (searchTerm)]
    gives, [None] when it throws. The word is shown and saved before the
    prefetch queue is built, so an error thrown there leaves both in
    place. The last component is the queue handed to the background
    loop. *)
Definition handleSearch (env : Db.Env) (user : option string)
    (analysis : option WordDetails) (st : SearchState) (w : Db.World)
    : Db.World * SearchState * list string :=
  if String.eqb (Js.trim (searchTerm st)) "" then (w, st, [])
  else
    match analysis with
    | None =>
        (w, {| searchTerm := searchTerm st; data := None; loading := false;
               error := Some NOT_FOUND; isSaved := false |}, [])
    | Some result =>
        let '(w', saved) :=
          match user with
          | Some uid =>
              match Db.saveWordToProfile env uid result w with
              | (w', Db.Returned _) => (w', true)
              | (w', Db.Thrown saveErr) => (w', alreadySaved saveErr)
              end
          | None => (w, false)
          end in
        match toPrefetch result with
        | Some queue =>
            (w', {| searchTerm := searchTerm st; data := Some result;
                    loading := false; error := None; isSaved := saved |},
             queue)
        | None =>
            (w', {| searchTerm := searchTerm st; data := Some result;
                    loading := false; error := Some NOT_FOUND; isSaved := saved |},
             [])
        end
    end.

(** [await prefetchAudio (text)] run to its end with nothing in between:
    the call, and its resumption when it was suspended. *)
Definition awaitPrefetch (text : string) (ctx : bool)
    (outcome : option Audio.AudioBuffer) (st : Audio.State) : Audio.State :=
  Audio.resume (List.length (Audio.pending st)) outcome (Audio.prefetchAudio text ctx st).

(** [await playText (text)] run to its end with nothing in between. *)
Definition awaitPlay (text : string) (ctx : bool)
    (outcome : option Audio.AudioBuffer) (st : Audio.State) : Audio.State :=
  Audio.resume (List.length (Audio.pending st)) outcome (Audio.playText text ctx st).

(** The background loop of [handleSearch]: the queue is prefetched one
    text after the other. [tts text] is what fetching and decoding the
    audio of [text] gives. *)
Definition prefetchLoop (tts : string -> option Audio.AudioBuffer) (ctx : bool)
    (queue : list string) (st : Audio.State) : Audio.State :=
  fold_left (fun s text => awaitPrefetch text ctx (tts text) s) queue st.

End Host.

End App.

(** ** Whole review sessions (components/Quiz, components/Exam) *)

Module Session.

(** The first two words are prefetched when the deck is loaded. *)
Definition loadPrefetch (deck : list StoredWord) : list string :=
  List.map (fun x => word (details x)) (firstn 2 deck).

(** What happens to a review screen, one event-loop turn at a time: the
    user presses an answer button (the outside doing what [env] says at
    that moment), or a timer set by an earlier answer runs. With no timer
    left, [TimerFires] changes nothing. The tap that turns the card sets
    [isFlipped] and nothing else, and is left out. The handlers start
    their write without awaiting it; the write is taken to land before
    the next event. *)
Inductive Event :=
| Answer (env : Db.Env) (answer : bool)
| TimerFires.

(** One turn of the quiz. An answer counts only while a card, and with
    it the buttons, is on screen. *)
Definition quizStep (uid : string) (mode : Quiz.QuizMode) (ev : Event)
    (q : Quiz.QuizState) (w : Db.World)
    : option (Db.World * Quiz.QuizState * list string) :=
  match ev with
  | Answer env correct =>
      match Quiz.render q with
      | Quiz.Card _ => Quiz.handleResult env uid mode q correct w
      | _ => Some (w, q, [])
      end
  | TimerFires => Some (w, Quiz.timerFires q, [])
  end.

(** A quiz session: the events in the order they happen. The result is
    the store, the state of the component and the prefetch requests. *)
Fixpoint quiz (uid : string) (mode : Quiz.QuizMode) (evs : list Event)
    (q : Quiz.QuizState) (w : Db.World)
    : option (Db.World * Quiz.QuizState * list string) :=
  match evs with
  | [] => Some (w, q, [])
  | ev :: rest =>
      match quizStep uid mode ev q w with
      | None => None
      | Some (w', q', pf) =>
          match quiz uid mode rest q' w' with
          | None => None
          | Some (w'', q'', pf') => Some (w'', q'', (pf ++ pf')%list)
          end
      end
  end.

Definition examStep (uid : string) (ev : Event) (e : Exam.ExamState) (w : Db.World)
    : option (Db.World * Exam.ExamState * list string) :=
  match ev with
  | Answer env forgot =>
      match Exam.render e with
      | Quiz.Card _ => Exam.handleNext env uid e forgot w
      | _ => Some (w, e, [])
      end
  | TimerFires => Some (w, Exam.timerFires e, [])
  end.

Fixpoint exam (uid : string) (evs : list Event) (e : Exam.ExamState) (w : Db.World)
    : option (Db.World * Exam.ExamState * list string) :=
  match evs with
  | [] => Some (w, e, [])
  | ev :: rest =>
      match examStep uid ev e w with
      | None => None
      | Some (w', e', pf) =>
          match exam uid rest e' w' with
          | None => None
          | Some (w'', e'', pf') => Some (w'', e'', (pf ++ pf')%list)
          end
      end
  end.

(** The user waits for the next card before answering again: every
    answer is followed by the run of its timer. *)
Definition paced (answers : list (Db.Env * bool)) : list Event :=
  flat_map (fun ea => [Answer (fst ea) (snd ea); TimerFires]) answers.

(** The state [loadWords] leaves, [deck] being the shuffled words. *)
Definition quizStart (deck : list StoredWord) : Quiz.QuizState :=
  {| Quiz.words := deck; Quiz.currentIndex := 0;
     Quiz.isFlipped := false; Quiz.isComplete := false; Quiz.timers := 0 |}.

Definition examStart (deck : list StoredWord) : Exam.ExamState :=
  {| Exam.words := deck; Exam.currentIndex := 0;
     Exam.isFlipped := false; Exam.isComplete := false; Exam.forgotCount := 0;
     Exam.timers := 0 |}.

(** What answering one card writes to the store. *)
Definition quizWrite (uid : string) (mode : Quiz.QuizMode) (w : Db.World)
    (ca : StoredWord * (Db.Env * bool)) : Db.World :=
  match mode with
  | Quiz.due =>
      Db.updateWordProgress (fst (snd ca)) uid (id (fst ca)) (snd (snd ca))
        (srsStage (fst ca)) w
  | Quiz.ffl => w
  end.

Definition examWrite (uid : string) (w : Db.World)
    (ca : StoredWord * (Db.Env * bool)) : Db.World :=
  if snd (snd ca) then Db.markWordAsForgot (fst (snd ca)) uid (id (fst ca)) w else w.

(** The number of cards marked as forgotten among the answers. *)
Definition forgotten (answers : list (Db.Env * bool)) : Z :=
  Z.of_nat (List.length (List.filter snd answers)).

End Session.

(** ** Retry delays *)

Module Retry.

(** The time [fetchTtsAudio] spends waiting between its requests. *)
Definition totalDelay (tr : list Tts.Event) : Z :=
  fold_right Z.add 0 (Tts.sleeps tr).

(** The delays the code can choose before the retry that follows
    request [n]. *)
Definition allowedDelay (n : nat) (ms : Z) : Prop :=
  In ms [1000; 2000; 4000; 8000] /\ ms <= 2000 * 2 ^ Z.of_nat n.

(** The error thrown when the finish reason OTHER outlasts the retries. *)
Definition OTHER_MESSAGE : string := "Audio generation failed (Reason: OTHER)".

(** The waiting that is still possible from request [n] on, all retries
    taken at the longest delay. *)
Definition budget (n : nat) : Z :=
  match n with
  | 0%nat => 14000
  | 1%nat => 12000
  | 2%nat => 8000
  | _ => 0
  end.

End Retry.

(** ** Store invariants *)

Module Inv.

(** No store holds two entries of a user with the same word-text: not
    the remote collection, not the local list. *)
Definition uniqueWords (w : Db.World) (uid : string) : Prop :=
  (forall k1 k2 d1 d2,
     Db.remoteWord w uid k1 = Some d1 -> Db.remoteWord w uid k2 = Some d2 ->
     word (details d1) = word (details d2) -> k1 = k2) /\
  NoDup (List.map (fun x => word (details x)) (Db.localWords w uid)).

(** [f] changes neither the id nor the lexical fields of a word. *)
Definition keepsIdentity (f : StoredWord -> StoredWord) : Prop :=
  forall y, id (f y) = id y /\ details (f y) = details y.

(** The three shapes of an update of word [wordId] by [f]: nothing is
    written, the local list is rewritten, or the remote document is. *)
Definition updatedBy (f : StoredWord -> StoredWord) (uid wordId : string)
    (w w' : Db.World) : Prop :=
  w' = w \/
  w' = Db.updateLocal uid wordId f w \/
  exists d, Db.remoteWord w uid wordId = Some d /\
            w' = Db.set_collection w uid (<[wordId := f d]> (Db.collection w uid)).

(** Going from [w] to [w'] touched at most the word [wordId] of user
    [uid]: no word was added or removed, every other word of the user is
    as it was, in the remote collection and in the local list, the
    addressed word kept its lexical fields, and the other users' data is
    as it was. *)
Definition onlyTouches (uid wordId : string) (w w' : Db.World) : Prop :=
  dom (Db.collection w' uid) = dom (Db.collection w uid) /\
  (forall k, k <> wordId -> Db.remoteWord w' uid k = Db.remoteWord w uid k) /\
  (forall d, Db.remoteWord w uid wordId = Some d ->
     exists d', Db.remoteWord w' uid wordId = Some d' /\ details d' = details d) /\
  List.map id (Db.localWords w' uid) = List.map id (Db.localWords w uid) /\
  List.map details (Db.localWords w' uid) = List.map details (Db.localWords w uid) /\
  (forall i x, Db.localWords w uid !! i = Some x -> id x <> wordId ->
     Db.localWords w' uid !! i = Some x) /\
  (forall uid', uid' <> uid ->
     Db.collection w' uid' = Db.collection w uid' /\
     Db.localWords w' uid' = Db.localWords w uid').

End Inv.

(** ** Audio bookkeeping *)

Module AudioInv.

(** The component keeps track of what it plays: the source it holds is
    one that sounds, and every source that sounds was created. *)
Definition tracked (st : Audio.State) : Prop :=
  (forall source, Audio.activeSourceRef st = Some source -> source ∈ Audio.sounding st) /\
  (forall source, source ∈ Audio.sounding st -> (source < Audio.created st)%nat).

(** What the listener notices: the word shown as playing and the
    sources. *)
Definition playback (st : Audio.State)
    : option string * option nat * gset nat * nat :=
  (Audio.playingWord st, Audio.activeSourceRef st, Audio.sounding st, Audio.created st).

Section Host.
Context {proto : Js.StringPrototype}.

(** Every cache entry and every suspended call goes back to a text that
    was handed to the speech service, under that text trimmed and
    lowercased. *)
Definition accountedFor (st : Audio.State) : Prop :=
  (forall k b, Audio.audioCache st !! k = Some b ->
     exists t, In t (Audio.ttsCalls st) /\ Js.toLowerCase (Js.trim t) = k /\ t <> "") /\
  (forall p, In p (Audio.pending st) ->
     In (Audio.p_text p) (Audio.ttsCalls st) /\
     Audio.p_cacheKey p = Js.toLowerCase (Js.trim (Audio.p_text p)) /\
     Audio.p_text p <> "").

(** One thing at a time: a call that runs to its end before anything
    else happens, or a source that ends. *)
Inductive Turn :=
| TurnPlay (text : string) (ctx : bool) (outcome : option Audio.AudioBuffer)
| TurnPrefetch (text : string) (ctx : bool) (outcome : option Audio.AudioBuffer)
| TurnEnded (source : nat).

Definition turn (st : Audio.State) (t : Turn) : Audio.State :=
  match t with
  | TurnPlay text ctx outcome => App.awaitPlay text ctx outcome st
  | TurnPrefetch text ctx outcome => App.awaitPrefetch text ctx outcome st
  | TurnEnded source => Audio.ended source st
  end.

Definition turns (st : Audio.State) (ts : list Turn) : Audio.State :=
  fold_left turn ts st.

End Host.

End AudioInv.

(** ** A host for ASCII text

    [trim] and [toLowerCase] on texts of ASCII characters, where they
    are: [trim] removes the characters 9 to 13 and 32 from both ends,
    [toLowerCase] maps A-Z to a-z. On such texts every host computes the
    same; the examples below run on this one. *)

Module AsciiText.

Definition is_space (c : ascii) : bool :=
  let n := nat_of_ascii c in
  ((9 <=? n)%nat && (n <=? 13)%nat) || (n =? 32)%nat.

Fixpoint trimStart (s : string) : string :=
  match s with
  | String c rest => if is_space c then trimStart rest else s
  | EmptyString => EmptyString
  end.

Fixpoint trimEnd (s : string) : string :=
  match s with
  | String c rest =>
      match trimEnd rest with
      | EmptyString => if is_space c then EmptyString else String c EmptyString
      | rest' => String c rest'
      end
  | EmptyString => EmptyString
  end.

Definition trim (s : string) : string := trimEnd (trimStart s).

Definition lower_ascii (c : ascii) : ascii :=
  let n := nat_of_ascii c in
  if ((65 <=? n)%nat && (n <=? 90)%nat)%bool then ascii_of_nat (n + 32) else c.

Fixpoint toLowerCase (s : string) : string :=
  match s with
  | String c rest => String (lower_ascii c) (toLowerCase rest)
  | EmptyString => EmptyString
  end.

#[global] Instance host : Js.StringPrototype :=
  {| Js.trim := trim; Js.toLowerCase := toLowerCase |}.

End AsciiText.

(** * Properties *)

(** ** JavaScript helpers *)

Example includes_quota : Js.includes "quota" "Your quota is gone" = true.
Proof. reflexivity. Qed.

Example show_Z_ms : Js.show_Z 1700000000000 = "1700000000000".
Proof. reflexivity. Qed.

Lemma startsWith_append (a b : string) : Js.startsWith a (a ++ b) = true.
Proof.
  unfold Js.startsWith. induction a as [|c a IH]; [by destruct b|].
  change (String c a ++ b) with (String c (a ++ b)). simpl.
  destruct (Ascii.ascii_dec c c); [exact IH|done].
Qed.

Lemma findIndex_find {A} (p : A -> bool) (l : list A) (i : nat) :
  Js.findIndex p l = Some i ->
  exists x, l !! i = Some x /\ List.find p l = Some x /\ p x = true.
Proof.
  revert i. induction l as [|a l IH]; intros i; simpl; [discriminate|].
  destruct (p a) eqn:Hpa.
  - intros [= <-]. exists a. auto.
  - destruct (Js.findIndex p l) as [j|] eqn:Hj; simpl; [|discriminate].
    intros [= <-]. destruct (IH j eq_refl) as (x & Hx & Hf & Hp).
    exists x. auto.
Qed.

Lemma find_findIndex {A} (p : A -> bool) (l : list A) (x : A) :
  List.find p l = Some x -> exists i, Js.findIndex p l = Some i.
Proof.
  induction l as [|a l IH]; simpl; [discriminate|].
  destruct (p a); [eauto|].
  intros H. destruct (IH H) as [i ->]. simpl. eauto.
Qed.

Lemma findIndex_none_find {A} (p : A -> bool) (l : list A) :
  Js.findIndex p l = None -> List.find p l = None.
Proof.
  induction l as [|a l IH]; simpl; [done|].
  destruct (p a); [discriminate|].
  destruct (Js.findIndex p l); simpl; [discriminate|auto].
Qed.

(** Changing in place the word [findIndex] found, without touching what
    [p] looks at, leaves it the first match. *)
Lemma find_alter_findIndex {A} (p : A -> bool) (f : A -> A) (l : list A)
    (i : nat) (x : A) :
  (forall y, p (f y) = p y) ->
  Js.findIndex p l = Some i -> List.find p l = Some x ->
  List.find p (alter f i l) = Some (f x).
Proof.
  intros Hpf. revert i. induction l as [|a l IH]; intros i; simpl; [discriminate|].
  destruct (p a) eqn:Hpa.
  - intros [= <-] [= <-]. simpl. by rewrite Hpf, Hpa.
  - destruct (Js.findIndex p l) as [j|] eqn:Hj; simpl; [|discriminate].
    intros [= <-] Hx. simpl. rewrite Hpa. by apply IH.
Qed.

(** ** The store *)

Section Store.
Import Db.

Lemma collection_set_collection w uid c :
  collection (set_collection w uid c) uid = c.
Proof. unfold collection, set_collection; simpl. by rewrite lookup_insert_eq. Qed.

Lemma localWords_set_collection w uid uid' c :
  localWords (set_collection w uid c) uid' = localWords w uid'.
Proof. reflexivity. Qed.

Lemma collection_set_local w key v uid :
  collection (set_local w key v) uid = collection w uid.
Proof. reflexivity. Qed.

Lemma localWords_set_local w uid ws :
  localWords (set_local w (LOCAL_STORAGE_PREFIX ++ uid) (Words ws)) uid = ws.
Proof. unfold localWords, set_local; simpl. by rewrite lookup_insert_eq. Qed.

Lemma has_id_set_progress wordId a b c y :
  has_id wordId (set_progress y a b c) = has_id wordId y.
Proof. reflexivity. Qed.

Lemma has_id_set_isInFFL wordId b y :
  has_id wordId (set_isInFFL y b) = has_id wordId y.
Proof. reflexivity. Qed.

(** The local fallback rewrites the word it finds. *)
Lemma updateLocal_localWord uid wordId f w x :
  (forall y, has_id wordId (f y) = has_id wordId y) ->
  localWord w uid wordId = Some x ->
  localWord (updateLocal uid wordId f w) uid wordId = Some (f x).
Proof.
  intros Hf Hx. unfold localWord in *. unfold updateLocal.
  destruct (find_findIndex _ _ _ Hx) as [i Hi]. rewrite Hi.
  rewrite localWords_set_local. by apply find_alter_findIndex.
Qed.

(** It leaves the remote store alone. *)
Lemma updateLocal_remote uid wordId f w :
  remote (updateLocal uid wordId f w) = remote w.
Proof. unfold updateLocal. by destruct (Js.findIndex _ _). Qed.

(** A remote update that goes through rewrites the document. *)
Lemma updateDoc_ok env uid wordId f w d :
  updateDocError env = None -> remoteWord w uid wordId = Some d ->
  exists w', updateDoc env uid wordId f w = inl w' /\
             remoteWord w' uid wordId = Some (f d) /\
             localStorage w' = localStorage w.
Proof.
  intros He Hd. unfold updateDoc, remoteWord in *. rewrite He, Hd.
  eexists; split; [reflexivity|]. split; [|reflexivity].
  rewrite collection_set_collection. by rewrite lookup_insert_eq.
Qed.

(** Where [updateWordProgress] writes, and what. *)
Lemma updateWordProgress_remote env uid wordId c s w d :
  Js.startsWith "local_" wordId = false ->
  updateDocError env = None -> remoteWord w uid wordId = Some d ->
  remoteWord (updateWordProgress env uid wordId c s w) uid wordId =
  Some (set_progress d (Srs.newStage c s) (Srs.nextReviewDate (timeZone env) (now env) c s)
          (serverNow env)).
Proof.
  intros Hp He Hd. unfold updateWordProgress. rewrite Hp.
  destruct (updateDoc_ok env uid wordId
              (fun x => set_progress x (Srs.newStage c s)
                          (Srs.nextReviewDate (timeZone env) (now env) c s) (serverNow env))
              w d He Hd) as (w' & -> & Hw' & _).
  exact Hw'.
Qed.

Lemma updateWordProgress_usesLocal env uid wordId c s w :
  usesLocal env uid wordId w ->
  updateWordProgress env uid wordId c s w =
  updateLocal uid wordId
    (fun x => set_progress x (Srs.newStage c s)
                (Srs.nextReviewDate (timeZone env) (now env) c s) (now env)) w.
Proof.
  intros H. unfold updateWordProgress.
  destruct (Js.startsWith "local_" wordId) eqn:Hp; [done|].
  destruct H as [H|[(e & He & Hc)|(He & Hd)]]; [congruence| |].
  - unfold updateDoc. rewrite He. by rewrite Hc.
  - unfold updateDoc, remoteWord in *. by rewrite He, Hd.
Qed.

Lemma updateWordProgress_local env uid wordId c s w x :
  usesLocal env uid wordId w -> localWord w uid wordId = Some x ->
  localWord (updateWordProgress env uid wordId c s w) uid wordId =
  Some (set_progress x (Srs.newStage c s) (Srs.nextReviewDate (timeZone env) (now env) c s)
          (now env)).
Proof.
  intros Hu Hx. rewrite updateWordProgress_usesLocal by done.
  by apply (updateLocal_localWord uid wordId
              (fun x => set_progress x (Srs.newStage c s)
                          (Srs.nextReviewDate (timeZone env) (now env) c s) (now env))).
Qed.

(** The two cases of [usesLocal] and of a remote update going through
    exclude each other. *)
Lemma usesLocal_not_remote env uid wordId w :
  usesLocal env uid wordId w ->
  Js.startsWith "local_" wordId = false -> updateDocError env = None ->
  is_Some (remoteWord w uid wordId) -> False.
Proof.
  intros [H|[(e & He & _)|(_ & Hd)]] Hp He' [d Hd']; congruence.
Qed.

(** A recorded review leaves the new stage and the new date. *)
Lemma recorded_progress env uid wordId c s w x' :
  recordedAs env uid wordId w (updateWordProgress env uid wordId c s w) x' ->
  srsStage x' = Srs.newStage c s /\
  nextReviewAt x' = Srs.nextReviewDate (timeZone env) (now env) c s.
Proof.
  intros [(Hp & He & [d Hd] & Hx')|(Hu & [x Hx] & Hx')].
  - rewrite (updateWordProgress_remote env uid wordId c s w d Hp He Hd) in Hx'.
    by injection Hx' as <-.
  - rewrite (updateWordProgress_local env uid wordId c s w x Hu Hx) in Hx'.
    by injection Hx' as <-.
Qed.

(** When the addressed word is where the call looks for it, the review is
    recorded. *)
Lemma progress_recorded env uid wordId c s w :
  (Js.startsWith "local_" wordId = false /\ updateDocError env = None /\
   is_Some (remoteWord w uid wordId)) \/
  (usesLocal env uid wordId w /\ is_Some (localWord w uid wordId)) ->
  exists x', recordedAs env uid wordId w (updateWordProgress env uid wordId c s w) x'.
Proof.
  intros [(Hp & He & [d Hd])|(Hu & [x Hx])].
  - eexists. left. repeat split; eauto.
    by apply updateWordProgress_remote.
  - eexists. right. repeat split; eauto.
    by apply updateWordProgress_local.
Qed.

End Store.

(** ** Spaced-repetition schedule *)

Section Schedule.
Import Db Srs.

Lemma newStage_true s : newStage true s = Z.min (s + 1) 6.
Proof. reflexivity. Qed.

Lemma newStage_false s : newStage false s = Z.max 0 (s - 1).
Proof. reflexivity. Qed.

(** The interval a successful recall at stage [s] schedules is the table
    entry of the new stage. *)
Lemma daysToAdd_true s :
  0 <= s ->
  Js.index SRS_INTERVALS (Z.min (s + 1) 6 - 1) = Some (daysToAdd true s).
Proof.
  intros Hs.
  assert (s = 0 \/ s = 1 \/ s = 2 \/ s = 3 \/ s = 4 \/ 5 <= s) as H by lia.
  destruct H as [->|[->|[->|[->|[->|H]]]]]; try reflexivity.
  unfold daysToAdd. rewrite newStage_true.
  replace (Z.min (s + 1) 6) with 6 by lia. reflexivity.
Qed.

Lemma daysToAdd_top s : 5 <= s -> daysToAdd true s = 90.
Proof.
  intros H. unfold daysToAdd. rewrite newStage_true.
  replace (Z.min (s + 1) 6) with 6 by lia. reflexivity.
Qed.

(** Whatever the stage, a successful recall adds at least one day. *)
Lemma daysToAdd_true_pos s : 1 <= daysToAdd true s.
Proof.
  unfold daysToAdd, Js.num_or, Js.index.
  destruct (_ <? 0); [lia|].
  destruct (nth_error _ _) as [v|] eqn:Hv; [|lia].
  apply nth_error_In in Hv. simpl in Hv.
  destruct (v =? 0) eqn:Hz; [lia|].
  intuition lia.
Qed.

Lemma after_successes_min n : after_successes n = Z.min (Z.of_nat n) 6.
Proof.
  induction n as [|n IH]; [reflexivity|].
  unfold after_successes in *. rewrite Nat.iter_succ, IH, newStage_true. lia.
Qed.

End Schedule.

(** Where the offset does not change, [setDate] adds whole days of 24
    hours. *)
Lemma addDays_sameOffset tz t days :
  Srs.sameOffset tz t days -> Srs.addDays tz t days = t + days * 86400000.
Proof.
  unfold Srs.sameOffset, Srs.addDays, Srs.UTC, Srs.LocalTime, Srs.MS_PER_DAY.
  intros ->. lia.
Qed.

(** In Berlin, one day after noon UTC of 28 October 2023 is 25 hours
    later: the clocks go back in between. *)
Example addDays_across_fall_back :
  Srs.addDays Sample.berlin 1698494400000 1 = 1698494400000 + 25 * 3600000 /\
  ~ Srs.sameOffset Sample.berlin 1698494400000 1.
Proof. split; [reflexivity|]. vm_compute. discriminate. Qed.

(** C1. A recorded review with a correct recall at stage [s] stores the
    stage advanced by one, up to the six entries of the interval table,
    and sets the next review to the current time plus the table interval
    of the new stage, in days of the local calendar: the local time of
    the review, moved on by that many days and read back as a time. That
    is the number of days times 24 hours after the review whenever the
    offset of the time zone is the same at both ends. The interval is 1
    day from stage 0 and 90 days from the top of the table. *)
Theorem updateWordProgress_recall_advances
    (env : Db.Env) (uid wordId : string) (s : Z) (w : Db.World) (x' : StoredWord) :
  0 <= s ->
  Db.recordedAs env uid wordId w (Db.updateWordProgress env uid wordId true s w) x' ->
  srsStage x' = Z.min (s + 1) 6 /\
  (s <= 5 -> srsStage x' = s + 1) /\
  exists days,
    Js.index [1; 3; 7; 14; 30; 90] (srsStage x' - 1) = Some days /\
    In days [1; 3; 7; 14; 30; 90] /\
    (s = 0 -> days = 1) /\ (5 <= s -> days = 90) /\
    let tz := Db.timeZone env in
    let local := Db.now env + Srs.offsetAt tz (Db.now env) + days * 86400000 in
    nextReviewAt x' = local - Srs.offsetOf tz local /\
    (Srs.offsetOf tz local = Srs.offsetAt tz (Db.now env) ->
     nextReviewAt x' = Db.now env + days * 86400000).
Proof.
  intros Hs Hrec. apply recorded_progress in Hrec as [Hst Hnext].
  rewrite newStage_true in Hst. split; [exact Hst|]. split; [lia|].
  exists (Srs.daysToAdd true s). rewrite Hst.
  pose proof (daysToAdd_true s Hs) as Hidx.
  split; [exact Hidx|]. split.
  { unfold Js.index in Hidx. destruct (_ <? 0); [discriminate|].
    by apply nth_error_In in Hidx. }
  split; [by intros ->|]. split; [apply daysToAdd_top|].
  intros tz local.
  assert (nextReviewAt x' = local - Srs.offsetOf tz local) as Hdate by exact Hnext.
  split; [exact Hdate|].
  intros Hsame. rewrite Hdate, Hsame. unfold local. lia.
Qed.

Lemma updateWordProgress_recall_advances_witness :
  0 <= 0 /\
  let x' := set_progress (Sample.stored Sample.apple "w1" 0) 1 1700086400000 1700000000123 in
  Db.recordedAs Sample.online "u1" "w1" Sample.w_remote
    (Db.updateWordProgress Sample.online "u1" "w1" true 0 Sample.w_remote) x' /\
  srsStage x' = 1 /\
  nextReviewAt x' = Db.now Sample.online + 1 * 86400000.
Proof.
  split; [lia|].
  assert (Db.recordedAs Sample.online "u1" "w1" Sample.w_remote
            (Db.updateWordProgress Sample.online "u1" "w1" true 0 Sample.w_remote)
            (set_progress (Sample.stored Sample.apple "w1" 0) 1 1700086400000
               1700000000123)) as Hrec.
  { left. split; [reflexivity|]. split; [reflexivity|]. split.
    - exists (Sample.stored Sample.apple "w1" 0). vm_compute. reflexivity.
    - vm_compute. reflexivity. }
  split; [exact Hrec|].
  destruct (updateWordProgress_recall_advances Sample.online "u1" "w1" 0
              Sample.w_remote _ ltac:(lia) Hrec)
    as (Hst & _ & days & _ & _ & Hone & _ & _ & Hsame).
  split; [exact Hst|].
  rewrite <- (Hone eq_refl). apply Hsame. rewrite (Hone eq_refl). reflexivity.
Defined.

(** The same review in Berlin on the day before the clocks go back: the
    word is due at the same local time of the next day, 25 hours later. *)
Example recall_across_fall_back :
  Db.remoteWord (Db.updateWordProgress Sample.autumn "u1" "w1" true 0 Sample.w_remote)
    "u1" "w1"
  = Some (set_progress (Sample.stored Sample.apple "w1" 0) 1
            (Db.now Sample.autumn + 25 * 3600000) 1698494400123).
Proof. vm_compute. reflexivity. Qed.

(** C2 as stated fails at stage 0: a recorded failed recall at stage 0
    stores stage 0, not stage 0 minus one. *)
Lemma updateWordProgress_failure_at_stage0 :
  exists x',
    Db.recordedAs Sample.online "u1" "w1" Sample.w_remote
      (Db.updateWordProgress Sample.online "u1" "w1" false 0 Sample.w_remote) x' /\
    srsStage x' = 0 /\ srsStage x' <> 0 - 1.
Proof.
  exists (set_progress (Sample.stored Sample.apple "w1" 0) 0 1700000000000
            1700000000123).
  split; [|split; [reflexivity|discriminate]].
  left. split; [reflexivity|]. split; [reflexivity|]. split.
  - exists (Sample.stored Sample.apple "w1" 0). vm_compute. reflexivity.
  - vm_compute. reflexivity.
Qed.

(** C2 (amended). A recorded review with a failed recall at stage [s]
    stores the stage regressed by one, but never below 0 (stage 0 stays
    0), and sets the next review to the current time as [setDate] with
    no day added leaves it: the local time of the review read back. That
    is the current time itself when the local time is read back with the
    offset in force; in an hour that the clocks repeat it is read back
    with the earlier offset and lies before the current time. Either way
    the word passes the due test at once and at any later time. *)
Theorem updateWordProgress_failure_regresses
    (env : Db.Env) (uid wordId : string) (s : Z) (w : Db.World) (x' : StoredWord) :
  Db.recordedAs env uid wordId w (Db.updateWordProgress env uid wordId false s w) x' ->
  srsStage x' = Z.max 0 (s - 1) /\
  (1 <= s -> srsStage x' = s - 1) /\
  (s <= 0 -> srsStage x' = 0) /\
  let tz := Db.timeZone env in
  let local := Db.now env + Srs.offsetAt tz (Db.now env) in
  nextReviewAt x' = local - Srs.offsetOf tz local /\
  (Srs.offsetOf tz local = Srs.offsetAt tz (Db.now env) ->
   nextReviewAt x' = Db.now env) /\
  (Srs.offsetAt tz (Db.now env) <= Srs.offsetOf tz local ->
   forall env', Db.now env <= Db.now env' -> Db.isDue env' x' = true).
Proof.
  intros Hrec. apply recorded_progress in Hrec as [Hst Hnext].
  rewrite newStage_false in Hst.
  split; [exact Hst|]. split; [lia|]. split; [lia|].
  intros tz local.
  assert (nextReviewAt x' = local - Srs.offsetOf tz local) as Hdate.
  { rewrite Hnext.
    unfold Srs.nextReviewDate, Srs.addDays, Srs.UTC, Srs.LocalTime, Srs.daysToAdd.
    fold tz. replace (Db.now env + Srs.offsetAt tz (Db.now env) + 0 * Srs.MS_PER_DAY)
      with local by (unfold local; lia). reflexivity. }
  split; [exact Hdate|]. split.
  - intros Hsame. rewrite Hdate, Hsame. unfold local. lia.
  - intros Hback env' Hle. unfold Db.isDue. rewrite Hdate.
    apply Z.leb_le. unfold local in *. lia.
Qed.

Lemma updateWordProgress_failure_regresses_witness :
  let x' := set_progress (Sample.stored Sample.apple Sample.local_id 0) 2
              1700000000000 1700000000000 in
  Db.recordedAs Sample.offline "u1" Sample.local_id Sample.w_local
    (Db.updateWordProgress Sample.offline "u1" Sample.local_id false 3 Sample.w_local) x' /\
  srsStage x' = Z.max 0 (3 - 1) /\
  (1 <= 3 -> srsStage x' = 3 - 1) /\
  (3 <= 0 -> srsStage x' = 0) /\
  nextReviewAt x' = Db.now Sample.offline /\
  forall env', Db.now Sample.offline <= Db.now env' -> Db.isDue env' x' = true.
Proof.
  assert (Db.recordedAs Sample.offline "u1" Sample.local_id Sample.w_local
            (Db.updateWordProgress Sample.offline "u1" Sample.local_id false 3
               Sample.w_local)
            (set_progress (Sample.stored Sample.apple Sample.local_id 0) 2
               1700000000000 1700000000000)) as Hrec.
  { right. split; [left; reflexivity|]. split.
    - exists (Sample.stored Sample.apple Sample.local_id 0). vm_compute. reflexivity.
    - vm_compute. reflexivity. }
  split; [exact Hrec|].
  destruct (updateWordProgress_failure_regresses Sample.offline "u1" Sample.local_id 3
              Sample.w_local _ Hrec) as (H1 & H2 & H3 & _ & Hnow & Hdue).
  split; [exact H1|]. split; [exact H2|]. split; [exact H3|].
  split; [apply Hnow; reflexivity|]. apply Hdue. vm_compute. discriminate.
Defined.

(** The same failed recall in Berlin, half an hour after the clocks went
    back: the local time 02:30 is read back as its first occurrence, so
    the stored time is an hour before the review, and the word is due. *)
Example failure_in_repeated_hour :
  exists x',
    Db.remoteWord
      (Db.updateWordProgress Sample.repeated_hour "u1" "w1" false 0 Sample.w_remote)
      "u1" "w1" = Some x' /\
    nextReviewAt x' = Db.now Sample.repeated_hour - 3600000 /\
    Db.isDue Sample.repeated_hour x' = true.
Proof. eexists. split; [vm_compute; reflexivity|]. split; reflexivity. Qed.

(** C8 as stated fails at the top of the table: stage 6 is reached by six
    successful reviews, and one further successful recall schedules 90
    days, the interval that was scheduled at stage 5 already. *)
Lemma interval_not_strictly_greater_at_top :
  Srs.after_successes 5 = 5 /\ Srs.after_successes 6 = 6 /\
  Srs.daysToAdd true 5 = 90 /\ Srs.daysToAdd true 6 = 90 /\
  ~ (Srs.daysToAdd true (Srs.after_successes 5)
     < Srs.daysToAdd true (Srs.after_successes 6)).
Proof. repeat split; vm_compute; congruence. Qed.

(** C8 (amended). Along successful reviews the scheduled interval never
    shrinks; it grows strictly with each further successful recall as long
    as the stage reached is at most 5, and stays at 90 days from then on.
    A failed recall adds no day where a successful one adds at least one,
    and the next review it schedules is never later than the one a
    successful recall at the same stage would schedule, the offset of the
    time zone not moving forward by more than the interval. *)
Theorem intervals_grow_then_saturate (n : nat) (s now : Z) (tz : Srs.TimeZone) :
  Srs.daysToAdd true (Srs.after_successes n)
    <= Srs.daysToAdd true (Srs.after_successes (S n)) /\
  (Srs.after_successes (S n) <= 5 ->
   Srs.daysToAdd true (Srs.after_successes n)
     < Srs.daysToAdd true (Srs.after_successes (S n))) /\
  (6 <= Srs.after_successes (S n) ->
   Srs.daysToAdd true (Srs.after_successes n) = 90 /\
   Srs.daysToAdd true (Srs.after_successes (S n)) = 90) /\
  Srs.daysToAdd false s = 0 /\ 1 <= Srs.daysToAdd true s /\
  let local := now + Srs.offsetAt tz now in
  let days := Srs.daysToAdd true s in
  (Srs.offsetOf tz (local + days * 86400000) - Srs.offsetOf tz local
     <= days * 86400000 ->
   Srs.nextReviewDate tz now false s <= Srs.nextReviewDate tz now true s).
Proof.
  rewrite !after_successes_min.
  split; [|split; [|split; [|split; [|split]]]].
  - destruct n as [|[|[|[|[|n]]]]]; try (vm_compute; congruence).
    rewrite !daysToAdd_top by lia. lia.
  - intros H.
    destruct n as [|[|[|[|[|n]]]]]; try (vm_compute; congruence). lia.
  - intros H. rewrite !daysToAdd_top by lia. done.
  - reflexivity.
  - apply daysToAdd_true_pos.
  - intros local days Hjump.
    unfold Srs.nextReviewDate, Srs.addDays, Srs.UTC, Srs.LocalTime, Srs.MS_PER_DAY.
    change (Srs.daysToAdd false s) with 0. fold days.
    replace (now + Srs.offsetAt tz now + 0 * 86400000) with local
      by (unfold local; lia).
    fold local. lia.
Qed.

Lemma intervals_grow_then_saturate_witness :
  (Srs.after_successes 3 <= 5 ->
   Srs.daysToAdd true (Srs.after_successes 2)
     < Srs.daysToAdd true (Srs.after_successes 3)) /\
  Srs.daysToAdd true (Srs.after_successes 2) = 7 /\
  Srs.daysToAdd true (Srs.after_successes 3) = 14 /\
  Srs.nextReviewDate Sample.berlin 1698494400000 false 0
    <= Srs.nextReviewDate Sample.berlin 1698494400000 true 0.
Proof.
  destruct (intervals_grow_then_saturate 2 0 1698494400000 Sample.berlin)
    as (_ & Hgrow & _ & _ & _ & Hlater).
  split; [exact Hgrow|]. split; [reflexivity|]. split; [reflexivity|].
  apply Hlater. vm_compute. discriminate.
Defined.

(** C10. For a current stage between 0 and 6 the new stage stays between
    0 and 6: a correct answer at stage 5 gives stage 6, one past the
    documented range, with the interval held at 90 days. The delay until
    the next review is 0 days after a failure and one of 1, 3, 7, 14, 30,
    90 days after a success, in days of the local calendar, and a
    recorded review stores that stage and that date; with the same offset
    at both ends the delay is that number of days times 24 hours. *)
Theorem updateWordProgress_stage_and_delay_bounds
    (env : Db.Env) (uid wordId : string) (isCorrect : bool) (s : Z) (w : Db.World) :
  0 <= s <= 6 ->
  0 <= Srs.newStage isCorrect s <= 6 /\
  Srs.newStage true 5 = 6 /\ Srs.daysToAdd true 5 = 90 /\
  Srs.daysToAdd false s = 0 /\
  In (Srs.daysToAdd true s) [1; 3; 7; 14; 30; 90] /\
  forall x',
    Db.recordedAs env uid wordId w
      (Db.updateWordProgress env uid wordId isCorrect s w) x' ->
    0 <= srsStage x' <= 6 /\
    exists days,
      (if isCorrect then In days [1; 3; 7; 14; 30; 90] else days = 0) /\
      let tz := Db.timeZone env in
      let local := Db.now env + Srs.offsetAt tz (Db.now env) + days * 86400000 in
      nextReviewAt x' = local - Srs.offsetOf tz local /\
      (Srs.offsetOf tz local = Srs.offsetAt tz (Db.now env) ->
       nextReviewAt x' - Db.now env = days * 86400000).
Proof.
  intros Hs.
  assert (0 <= Srs.newStage isCorrect s <= 6) as Hb.
  { destruct isCorrect; [rewrite newStage_true|rewrite newStage_false]; lia. }
  assert (In (Srs.daysToAdd true s) [1; 3; 7; 14; 30; 90]) as Hin.
  { assert (s = 0 \/ s = 1 \/ s = 2 \/ s = 3 \/ s = 4 \/ s = 5 \/ s = 6) as H by lia.
    destruct H as [->|[->|[->|[->|[->|[->| ->]]]]]]; vm_compute; tauto. }
  split; [exact Hb|]. split; [reflexivity|]. split; [reflexivity|].
  split; [reflexivity|]. split; [exact Hin|].
  intros x' Hrec. apply recorded_progress in Hrec as [Hst Hnext].
  split; [by rewrite Hst|].
  exists (Srs.daysToAdd isCorrect s). split; [by destruct isCorrect|].
  intros tz local.
  assert (nextReviewAt x' = local - Srs.offsetOf tz local) as Hdate by exact Hnext.
  split; [exact Hdate|].
  intros Hsame. rewrite Hdate, Hsame. unfold local. lia.
Qed.

Lemma updateWordProgress_stage_and_delay_bounds_witness :
  0 <= 5 <= 6 /\
  0 <= Srs.newStage true 5 <= 6 /\
  In (Srs.daysToAdd true 5) [1; 3; 7; 14; 30; 90] /\
  exists x',
    Db.recordedAs Sample.online "u1" "w1" Sample.w_remote
      (Db.updateWordProgress Sample.online "u1" "w1" true 5 Sample.w_remote) x' /\
    srsStage x' = 6 /\
    nextReviewAt x' - Db.now Sample.online = 90 * 86400000.
Proof.
  split; [lia|].
  destruct (updateWordProgress_stage_and_delay_bounds Sample.online "u1" "w1" true 5
              Sample.w_remote ltac:(lia)) as (Hb & _ & _ & _ & Hin & Hrec).
  split; [exact Hb|]. split; [exact Hin|].
  destruct (progress_recorded Sample.online "u1" "w1" true 5 Sample.w_remote) as [x' Hx'].
  { left. split; [reflexivity|]. split; [reflexivity|].
    exists (Sample.stored Sample.apple "w1" 0). vm_compute. reflexivity. }
  exists x'. split; [exact Hx'|].
  destruct (Hrec x' Hx') as (_ & days & Hdays & Hdate & Hsame).
  pose proof (recorded_progress _ _ _ _ _ _ _ Hx') as [Hst Hnext].
  split; [exact Hst|]. rewrite Hnext. reflexivity.
Defined.

(** ** Saving a word *)

Section Saving.
Import Db.

Lemma docs_lookup w uid k d :
  collection w uid !! k = Some d -> In (set_id d k) (docs w uid).
Proof.
  intros H. unfold docs.
  apply (in_map (fun kd => set_id (snd kd) (fst kd)) _ (k, d)).
  apply list_elem_of_In, elem_of_map_to_list, H.
Qed.

Lemma docs_In w uid y :
  In y (docs w uid) ->
  exists k d, collection w uid !! k = Some d /\ y = set_id d k.
Proof.
  unfold docs. intros H. apply in_map_iff in H as ([k d] & <- & H).
  exists k, d. split; [|reflexivity].
  by apply elem_of_map_to_list, list_elem_of_In.
Qed.

(** A failed remote attempt has written nothing. *)
Lemma saveRemote_thrown env uid wd w e :
  snd (saveRemote env uid wd w) = Thrown e -> saveRemote env uid wd w = (w, Thrown e).
Proof.
  unfold saveRemote.
  destruct (getDocsError env); simpl; [congruence|].
  destruct (List.filter _ _); simpl; [|congruence].
  destruct (addDocError env); simpl; [congruence|discriminate].
Qed.

Lemma saveRemote_duplicate env uid wd w k d :
  getDocsError env = None ->
  remoteWord w uid k = Some d -> word (details d) = word wd ->
  saveRemote env uid wd w = (w, Thrown (Error ALREADY_SAVED)).
Proof.
  intros He Hd Hw. unfold saveRemote. rewrite He.
  destruct (List.filter (same_word wd) (docs w uid)) as [|y l] eqn:Hf; [|reflexivity].
  assert (In (set_id d k) (List.filter (same_word wd) (docs w uid))) as Hin.
  { apply filter_In. split; [by apply docs_lookup|].
    unfold same_word. simpl. rewrite Hw. apply String.eqb_refl. }
  rewrite Hf in Hin. destruct Hin.
Qed.

Lemma already_saved_not_firestore : isFirestoreError (Error ALREADY_SAVED) = false.
Proof. reflexivity. Qed.

Lemma existsb_same_word wd ws :
  existsb (same_word wd) ws = true <->
  exists x, In x ws /\ word (details x) = word wd.
Proof.
  rewrite existsb_exists. unfold same_word.
  split; intros (x & Hin & H); exists x; (split; [exact Hin|]).
  - by apply String.eqb_eq.
  - by apply String.eqb_eq.
Qed.

Lemma code_is_spec e c : code_is e c = true <-> code e = Some c.
Proof.
  unfold code_is. destruct (code e) as [c'|]; [|split; discriminate].
  rewrite String.eqb_eq. split; congruence.
Qed.

(** The errors that trigger the fallback. *)
Lemma isFirestoreError_spec e :
  isFirestoreError e = true <-> storeUnreachable e.
Proof.
  unfold isFirestoreError, storeUnreachable. rewrite !orb_true_iff, !code_is_spec.
  destruct (message e) as [m|].
  - split.
    + intros [[[[H|H]|H]|H]|H]; eauto 10.
    + intros [H|[H|[H|[H|(m' & [= <-] & H)]]]]; auto.
  - split.
    + intros [[[[H|H]|H]|H]|H]; auto; discriminate.
    + intros [H|[H|[H|[H|(m' & H & _)]]]]; auto; discriminate.
Qed.

End Saving.

(** C3 as stated fails when the local list already holds the word: the
    store is unreachable (code unavailable), yet the call does not return
    true and appends nothing; it throws. *)
Lemma saveWordToProfile_fallback_duplicate_throws :
  Db.storeUnreachable Sample.unavailable /\
  snd (Db.saveRemote Sample.offline "u1" Sample.apple Sample.w_local)
    = Db.Thrown Sample.unavailable /\
  Db.saveWordToProfile Sample.offline "u1" Sample.apple Sample.w_local
    = (Sample.w_local, Db.Thrown (Db.Error "You have already saved this word.")) /\
  snd (Db.saveWordToProfile Sample.offline "u1" Sample.apple Sample.w_local)
    <> Db.Returned true.
Proof.
  split; [right; left; reflexivity|]. split; [reflexivity|]. split; [|discriminate].
  vm_compute. reflexivity.
Qed.

(** C3 (amended). If the remote attempt of [saveWordToProfile] fails with
    an error whose code is permission-denied, unavailable,
    failed-precondition or not-found, or whose message contains
    'permissions', and the per-user local-storage list does not hold the
    word yet, the word is appended to that list with review stage 0,
    next review now and the forgotten flag false, and the call returns
    true; an error of any other kind is rethrown and nothing is written. *)
Theorem saveWordToProfile_fallback
    (env : Db.Env) (uid : string) (wd : WordDetails) (w : Db.World) (e : Db.JsError) :
  snd (Db.saveRemote env uid wd w) = Db.Thrown e ->
  (Db.storeUnreachable e ->
   (forall x, In x (Db.localWords w uid) -> word (details x) <> word wd) ->
   exists nw w',
     Db.saveWordToProfile env uid wd w = (w', Db.Returned true) /\
     Db.localWords w' uid = (Db.localWords w uid ++ [nw])%list /\
     Db.remote w' = Db.remote w /\
     details nw = wd /\ userId nw = uid /\ Js.startsWith "local_" (id nw) = true /\
     srsStage nw = 0 /\ nextReviewAt nw = Db.now env /\ isInFFL nw = Some false) /\
  (~ Db.storeUnreachable e ->
   Db.saveWordToProfile env uid wd w = (w, Db.Thrown e)).
Proof.
  intros Hr. apply saveRemote_thrown in Hr.
  unfold Db.saveWordToProfile. rewrite Hr. split.
  - intros Hfs Hnew. apply isFirestoreError_spec in Hfs. rewrite Hfs.
    unfold Db.saveLocal.
    destruct (existsb (Db.same_word wd) (Db.localWords w uid)) eqn:Hex.
    + apply existsb_same_word in Hex as (x & Hin & Hx). by destruct (Hnew x Hin).
    + eexists _, _. split; [reflexivity|].
      rewrite localWords_set_local. repeat split. apply startsWith_append.
  - intros Hn. destruct (Db.isFirestoreError e) eqn:Hfs; [|reflexivity].
    by apply isFirestoreError_spec in Hfs.
Qed.

Lemma saveWordToProfile_fallback_witness :
  snd (Db.saveRemote Sample.offline "u1" Sample.pear Sample.w_local)
    = Db.Thrown Sample.unavailable /\
  exists nw w',
    Db.saveWordToProfile Sample.offline "u1" Sample.pear Sample.w_local
      = (w', Db.Returned true) /\
    Db.localWords w' "u1" = (Db.localWords Sample.w_local "u1" ++ [nw])%list /\
    Db.remote w' = Db.remote Sample.w_local /\
    details nw = Sample.pear /\ userId nw = "u1" /\
    Js.startsWith "local_" (id nw) = true /\
    srsStage nw = 0 /\ nextReviewAt nw = Db.now Sample.offline /\
    isInFFL nw = Some false.
Proof.
  split; [reflexivity|].
  apply (saveWordToProfile_fallback Sample.offline "u1" Sample.pear Sample.w_local
           Sample.unavailable eq_refl).
  - right. left. reflexivity.
  - intros x [<-|[]]. discriminate.
Defined.

(** C9 as stated fails when the word is in the remote list and the
    remote store cannot be reached: the duplicate check of the fallback
    looks at the local list only, which does not hold the word, so the
    save returns true and the word gets a second entry, in local
    storage. *)
Lemma saveWordToProfile_duplicate_accepted_offline :
  Db.remoteWord Sample.w_remote "u1" "w1" = Some (Sample.stored Sample.apple "w1" 0) /\
  word (details (Sample.stored Sample.apple "w1" 0)) = word Sample.apple /\
  Db.getDocsError Sample.offline = Some Sample.unavailable /\
  Db.storeUnreachable Sample.unavailable /\
  exists w' x,
    Db.saveWordToProfile Sample.offline "u1" Sample.apple Sample.w_remote
      = (w', Db.Returned true) /\
    Db.localWords Sample.w_remote "u1" = [] /\
    Db.localWords w' "u1" = [x] /\ word (details x) = word Sample.apple /\
    Db.remoteWord w' "u1" "w1" = Some (Sample.stored Sample.apple "w1" 0).
Proof.
  split; [vm_compute; reflexivity|]. split; [reflexivity|]. split; [reflexivity|].
  split; [right; left; reflexivity|].
  eexists _, _. split; [reflexivity|]. split; [reflexivity|].
  split; [vm_compute; reflexivity|]. split; [reflexivity|].
  vm_compute. reflexivity.
Qed.

(** C9 (amended). Saving a word whose word-text is already in the list
    the save consults throws 'You have already saved this word.' and
    leaves both stores as they were. The list consulted is the remote
    collection when the remote query answers, and the local-storage list
    when the remote attempt fails with an error that triggers the
    fallback. *)
Theorem saveWordToProfile_duplicate_rejected
    (env : Db.Env) (uid : string) (wd : WordDetails) (w : Db.World) :
  (Db.getDocsError env = None /\
   exists k d, Db.remoteWord w uid k = Some d /\ word (details d) = word wd) \/
  (exists e, snd (Db.saveRemote env uid wd w) = Db.Thrown e /\
             Db.storeUnreachable e /\
   exists x, In x (Db.localWords w uid) /\ word (details x) = word wd) ->
  Db.saveWordToProfile env uid wd w
    = (w, Db.Thrown (Db.Error "You have already saved this word.")).
Proof.
  intros [(He & k & d & Hd & Hw)|(e & Hr & Hfs & Hx)]; unfold Db.saveWordToProfile.
  - rewrite (saveRemote_duplicate env uid wd w k d He Hd Hw).
    by rewrite already_saved_not_firestore.
  - rewrite (saveRemote_thrown _ _ _ _ _ Hr).
    apply isFirestoreError_spec in Hfs. rewrite Hfs.
    unfold Db.saveLocal.
    apply existsb_same_word in Hx. by rewrite Hx.
Qed.

Lemma saveWordToProfile_duplicate_rejected_witness :
  (Db.getDocsError Sample.online = None /\
   Db.remoteWord Sample.w_remote "u1" "w1" = Some (Sample.stored Sample.apple "w1" 0) /\
   Db.saveWordToProfile Sample.online "u1" Sample.apple Sample.w_remote
     = (Sample.w_remote, Db.Thrown (Db.Error "You have already saved this word."))) /\
  (snd (Db.saveRemote Sample.offline "u1" Sample.apple Sample.w_local)
     = Db.Thrown Sample.unavailable /\
   Db.localWords Sample.w_local "u1" = [Sample.stored Sample.apple Sample.local_id 0] /\
   Db.saveWordToProfile Sample.offline "u1" Sample.apple Sample.w_local
     = (Sample.w_local, Db.Thrown (Db.Error "You have already saved this word."))).
Proof.
  split; (split; [reflexivity|]); (split; [vm_compute; reflexivity|]).
  - apply saveWordToProfile_duplicate_rejected. left. split; [reflexivity|].
    exists "w1", (Sample.stored Sample.apple "w1" 0).
    split; [vm_compute; reflexivity|reflexivity].
  - apply saveWordToProfile_duplicate_rejected. right.
    exists Sample.unavailable. split; [reflexivity|].
    split; [right; left; reflexivity|].
    exists (Sample.stored Sample.apple Sample.local_id 0).
    split; [left; reflexivity|reflexivity].
Defined.

(** ** The Frequently Forgot List *)

Section Ffl.
Import Db.

Lemma markWordAsForgot_remote env uid wordId w d :
  Js.startsWith "local_" wordId = false ->
  updateDocError env = None -> remoteWord w uid wordId = Some d ->
  remoteWord (markWordAsForgot env uid wordId w) uid wordId = Some (set_isInFFL d true).
Proof.
  intros Hp He Hd. unfold markWordAsForgot. rewrite Hp.
  destruct (updateDoc_ok env uid wordId (fun x => set_isInFFL x true) w d He Hd)
    as (w' & -> & Hw' & _).
  exact Hw'.
Qed.

Lemma markWordAsForgot_usesLocal env uid wordId w :
  forgotUsesLocal env uid wordId w ->
  markWordAsForgot env uid wordId w
    = updateLocal uid wordId (fun x => set_isInFFL x true) w.
Proof.
  intros H. unfold markWordAsForgot.
  destruct (Js.startsWith "local_" wordId) eqn:Hp; [done|].
  destruct H as [H|[(e & He)|(He & Hd)]]; [congruence| |].
  - unfold updateDoc. by rewrite He.
  - unfold updateDoc, remoteWord in *. by rewrite He, Hd.
Qed.

Lemma markWordAsForgot_local env uid wordId w x :
  forgotUsesLocal env uid wordId w -> localWord w uid wordId = Some x ->
  localWord (markWordAsForgot env uid wordId w) uid wordId = Some (set_isInFFL x true).
Proof.
  intros Hu Hx. rewrite markWordAsForgot_usesLocal by done.
  by apply (updateLocal_localWord uid wordId (fun x => set_isInFFL x true)).
Qed.

(** A mark that reaches the store sets the flag. *)
Lemma marked_flag env uid wordId w x' :
  markedAs env uid wordId w (markWordAsForgot env uid wordId w) x' ->
  isInFFL x' = Some true.
Proof.
  intros [(Hp & He & [d Hd] & Hx')|(Hu & [x Hx] & Hx')].
  - rewrite (markWordAsForgot_remote env uid wordId w d Hp He Hd) in Hx'.
    by injection Hx' as <-.
  - rewrite (markWordAsForgot_local env uid wordId w x Hu Hx) in Hx'.
    by injection Hx' as <-.
Qed.

Lemma in_ffl_spec x : in_ffl x = true <-> isInFFL x = Some true.
Proof.
  unfold in_ffl. destruct (isInFFL x) as [[|]|]; split; congruence.
Qed.

Lemma getFFLWords_spec env uid w x :
  In x (getFFLWords env uid w) <->
  In x (getUserWords env uid w) /\ isInFFL x = Some true.
Proof. unfold getFFLWords. by rewrite filter_In, in_ffl_spec. Qed.

Lemma alter_keeps_flags (f : StoredWord -> StoredWord) (i : nat) (ws : list StoredWord) :
  (forall y, isInFFL (f y) = isInFFL y) ->
  List.map isInFFL (alter f i ws) = List.map isInFFL ws.
Proof.
  intros Hf. revert i. induction ws as [|a ws IH]; intros [|i]; simpl; try done.
  - by rewrite Hf.
  - f_equal. apply IH.
Qed.

(** Recording a review never touches the flag: not in the remote
    collection, not in the local list. *)
Lemma updateWordProgress_keeps_flags env uid wordId c s w k :
  isInFFL <$> remoteWord (updateWordProgress env uid wordId c s w) uid k
    = isInFFL <$> remoteWord w uid k /\
  List.map isInFFL (localWords (updateWordProgress env uid wordId c s w) uid)
    = List.map isInFFL (localWords w uid).
Proof.
  assert (forall f, (forall y, isInFFL (f y) = isInFFL y) ->
            isInFFL <$> remoteWord (updateLocal uid wordId f w) uid k
              = isInFFL <$> remoteWord w uid k /\
            List.map isInFFL (localWords (updateLocal uid wordId f w) uid)
              = List.map isInFFL (localWords w uid)) as Hlocal.
  { intros f Hf. unfold updateLocal.
    destruct (Js.findIndex (has_id wordId) (localWords w uid)) as [i|]; [|done].
    split; [done|]. rewrite localWords_set_local. by apply alter_keeps_flags. }
  unfold updateWordProgress.
  destruct (Js.startsWith "local_" wordId); [by apply Hlocal|].
  unfold updateDoc. destruct (updateDocError env) as [e|].
  - destruct (code_truthy e); [by apply Hlocal|done].
  - destruct (collection w uid !! wordId) as [d|] eqn:Hd; [|by apply Hlocal].
    split; [|done]. unfold remoteWord. rewrite collection_set_collection.
    rewrite lookup_insert. case_decide as Hk; [|done].
    subst k. by rewrite Hd.
Qed.

End Ffl.

(** C4 as stated fails for the quiz review: a failed recall there changes
    the stage and the date of the stored word but leaves its flag false,
    and the Frequently Forgot List stays empty. In the exam review a
    forgotten word is marked, but the mark is lost when the remote update
    fails and the word has no local copy. *)
Lemma quiz_failure_does_not_flag :
  let q := Quiz.loadWords (fun l => l) Sample.online "u1" Quiz.due Sample.w_remote in
  let e := Exam.loadAllWords (fun l => l) Sample.read_only "u1" Sample.w_remote in
  (Js.index (Quiz.words q) (Quiz.currentIndex q) = Some (Sample.stored Sample.apple "w1" 0) /\
   exists w' q' pf x',
     Quiz.handleResult Sample.online "u1" Quiz.due q false Sample.w_remote
       = Some (w', q', pf) /\
     Db.remoteWord w' "u1" "w1" = Some x' /\
     srsStage x' = 0 /\ nextReviewAt x' = Db.now Sample.online /\
     isInFFL x' = Some false /\ isInFFL x' <> Some true /\
     Db.getFFLWords Sample.online "u1" w' = []) /\
  (Js.index (Exam.words e) (Exam.currentIndex e) = Some (Sample.stored Sample.apple "w1" 0) /\
   exists e' pf,
     Exam.handleNext Sample.read_only "u1" e true Sample.w_remote
       = Some (Sample.w_remote, e', pf) /\
     Db.getFFLWords Sample.read_only "u1" Sample.w_remote = []).
Proof.
  split.
  - split; [vm_compute; reflexivity|].
    eexists _, _, _, _. split; [reflexivity|].
    split; [vm_compute; reflexivity|].
    split; [reflexivity|]. split; [reflexivity|].
    split; [reflexivity|]. split; [discriminate|].
    vm_compute. reflexivity.
  - split; [vm_compute; reflexivity|].
    eexists _, _. split; [vm_compute; reflexivity|].
    vm_compute. reflexivity.
Qed.

(** When the addressed word is where [markWordAsForgot] looks for it, the
    mark reaches the store. *)
Lemma mark_reaches_store env uid wordId w :
  (Js.startsWith "local_" wordId = false /\ Db.updateDocError env = None /\
   is_Some (Db.remoteWord w uid wordId)) \/
  (Db.forgotUsesLocal env uid wordId w /\ is_Some (Db.localWord w uid wordId)) ->
  exists x', Db.markedAs env uid wordId w (Db.markWordAsForgot env uid wordId w) x'.
Proof.
  intros [(Hp & He & [d Hd])|(Hu & [x Hx])].
  - eexists. left. repeat split; eauto.
    by apply markWordAsForgot_remote.
  - eexists. right. repeat split; eauto.
    by apply markWordAsForgot_local.
Qed.

(** C4 (amended). Every saved word that the user marks as forgotten in an
    exam review is flagged as a member of the Frequently Forgot List once
    the mark reaches the store (its isInFFL flag is true in the record
    left there), and the FFL practice mode draws exactly from the user's
    words whose isInFFL flag is true. *)
Theorem exam_forgot_joins_ffl
    (shuffle : list StoredWord -> list StoredWord)
    (env : Db.Env) (uid : string) (e e' : Exam.ExamState) (w w' : Db.World)
    (pf : list string) (cw x' : StoredWord) :
  (forall l, Permutation (shuffle l) l) ->
  Js.index (Exam.words e) (Exam.currentIndex e) = Some cw ->
  Exam.handleNext env uid e true w = Some (w', e', pf) ->
  Db.markedAs env uid (id cw) w w' x' ->
  isInFFL x' = Some true /\
  forall env2 w2 y,
    In y (Quiz.words (Quiz.loadWords shuffle env2 uid Quiz.ffl w2)) <->
    In y (Db.getUserWords env2 uid w2) /\ isInFFL y = Some true.
Proof.
  intros Hperm Hcw Hnext Hmark. split.
  - unfold Exam.handleNext in Hnext. rewrite Hcw in Hnext.
    destruct (Exam.currentIndex e <? _); injection Hnext as <- _ _;
      by apply marked_flag in Hmark.
  - intros env2 w2 y. simpl. rewrite <- getFFLWords_spec.
    split; apply Permutation_in; [apply Hperm|symmetry; apply Hperm].
Qed.

Lemma exam_forgot_joins_ffl_witness :
  let e := Exam.loadAllWords (fun l => l) Sample.online "u1" Sample.w_remote in
  let w' := Db.markWordAsForgot Sample.online "u1" "w1" Sample.w_remote in
  let x' := set_isInFFL (Sample.stored Sample.apple "w1" 0) true in
  Js.index (Exam.words e) (Exam.currentIndex e) = Some (Sample.stored Sample.apple "w1" 0) /\
  Exam.handleNext Sample.online "u1" e true Sample.w_remote
    = Some (w', {| Exam.words := Exam.words e; Exam.currentIndex := 0;
                   Exam.isFlipped := false; Exam.isComplete := true;
                   Exam.forgotCount := 1; Exam.timers := 0 |}, []) /\
  Db.markedAs Sample.online "u1" "w1" Sample.w_remote w' x' /\
  isInFFL x' = Some true /\
  Quiz.words (Quiz.loadWords (fun l => l) Sample.online "u1" Quiz.ffl w') = [x'] /\
  forall env2 w2 y,
    In y (Quiz.words (Quiz.loadWords (fun l => l) env2 "u1" Quiz.ffl w2)) <->
    In y (Db.getUserWords env2 "u1" w2) /\ isInFFL y = Some true.
Proof.
  assert (Db.markedAs Sample.online "u1" "w1" Sample.w_remote
            (Db.markWordAsForgot Sample.online "u1" "w1" Sample.w_remote)
            (set_isInFFL (Sample.stored Sample.apple "w1" 0) true)) as Hm.
  { left. split; [reflexivity|]. split; [reflexivity|]. split.
    - exists (Sample.stored Sample.apple "w1" 0). vm_compute. reflexivity.
    - vm_compute. reflexivity. }
  split; [vm_compute; reflexivity|].
  split; [vm_compute; reflexivity|].
  split; [exact Hm|].
  destruct (exam_forgot_joins_ffl (fun l => l) Sample.online "u1"
              (Exam.loadAllWords (fun l => l) Sample.online "u1" Sample.w_remote)
              {| Exam.words := [Sample.stored Sample.apple "w1" 0];
                 Exam.currentIndex := 0; Exam.isFlipped := false;
                 Exam.isComplete := true; Exam.forgotCount := 1;
                 Exam.timers := 0 |}
              Sample.w_remote
              (Db.markWordAsForgot Sample.online "u1" "w1" Sample.w_remote)
              [] (Sample.stored Sample.apple "w1" 0)
              (set_isInFFL (Sample.stored Sample.apple "w1" 0) true))
    as [Hflag Hdraw].
  - intros l. apply Permutation_refl.
  - vm_compute. reflexivity.
  - vm_compute. reflexivity.
  - exact Hm.
  - split; [exact Hflag|]. split; [vm_compute; reflexivity|exact Hdraw].
Defined.

(** ** Text-to-speech retries *)

Section Retries.
Import Tts.
Variable api : nat -> Attempt.

Lemma maxRetries_le e : (maxRetries e <= 3)%nat.
Proof. unfold maxRetries. destruct (isRateLimit e); lia. Qed.

(** What the [catch] block does with a rate-limit error. *)
Lemma makeRequest_rate_limit fuel n e :
  api n = Fails e -> isRateLimit e = true ->
  makeRequest (S fuel) api n =
  if (n <? 3)%nat then
    match makeRequest fuel api (S n) with
    | Some (tr, res) => Some (Request :: Sleep (2000 * 2 ^ Z.of_nat n) :: tr, res)
    | None => None
    end
  else Some ([Request], Thrown (Error QUOTA_MESSAGE)).
Proof.
  intros Ha Hr. simpl. rewrite Ha.
  unfold isRetryable, maxRetries, retryDelay. rewrite Hr. simpl.
  destruct (n <? 3)%nat; reflexivity.
Qed.

(** From the fourth request on (retry count 3) no branch retries. *)
Lemma makeRequest_last fuel n :
  (3 <= n)%nat ->
  exists res, makeRequest (S fuel) api n = Some ([Request], res).
Proof.
  intros Hn.
  assert (forall e, (isRetryable e && (n <? maxRetries e)%nat)%bool = false) as Hno.
  { intros e. pose proof (maxRetries_le e).
    destruct (n <? maxRetries e)%nat eqn:Hlt; [apply Nat.ltb_lt in Hlt; lia|].
    apply andb_false_r. }
  assert (forall e, exists res,
            (if (isRetryable e && (n <? maxRetries e)%nat)%bool
             then match makeRequest fuel api (S n) with
                  | Some (tr, res) => Some (Request :: Sleep (retryDelay e n) :: tr, res)
                  | None => None
                  end
             else if isRateLimit e
                  then Some ([Request], Thrown (Error QUOTA_MESSAGE))
                  else Some ([Request],
                             Thrown (Error (match nonempty (message e) with
                                            | Some m => m
                                            | None => "TTS Service Unavailable"
                                            end))))
            = Some ([Request], res)) as Hcatch.
  { intros e. rewrite Hno. destruct (isRateLimit e); eauto. }
  simpl. destruct (api n) as [r|e]; [|apply Hcatch].
  destruct (inspect r n) as [data| |e] eqn:Hi; [eauto| |apply Hcatch].
  unfold inspect in Hi.
  destruct (nonempty (audioData r)); [discriminate|].
  destruct (nonempty (textRefusal r)); [discriminate|].
  destruct (nonempty (finishReason r)) as [reason|]; [|discriminate].
  destruct (String.eqb reason "STOP"); [discriminate|].
  destruct (n <? 2)%nat eqn:Hlt; [apply Nat.ltb_lt in Hlt; lia|].
  rewrite andb_false_r in Hi. discriminate.
Qed.

(** With fuel for the requests that can still follow, [makeRequest]
    returns, and it has sent no more than those. *)
Lemma makeRequest_total fuel n :
  (4 <= fuel + n)%nat -> (1 <= fuel)%nat ->
  exists tr res, makeRequest fuel api n = Some (tr, res) /\
                 (requests tr + n <= 4 \/ requests tr = 1)%nat.
Proof.
  revert n. induction fuel as [|fuel IH]; intros n Hf H1; [lia|].
  destruct (le_lt_dec 3 n) as [Hn|Hn].
  { destruct (makeRequest_last fuel n Hn) as [res ->]. eauto. }
  destruct (IH (S n)) as (tr & res & Hrec & Hb); [lia|lia|].
  assert (forall ms, exists tr' res',
            match makeRequest fuel api (S n) with
            | Some (tr, res) => Some (Request :: Sleep ms :: tr, res)
            | None => None
            end = Some (tr', res') /\
            (requests tr' + n <= 4 \/ requests tr' = 1)%nat) as Hretry.
  { intros ms. rewrite Hrec. eexists _, _. split; [reflexivity|].
    unfold requests in *. simpl. lia. }
  assert (forall e, exists tr' res',
            (if (isRetryable e && (n <? maxRetries e)%nat)%bool
             then match makeRequest fuel api (S n) with
                  | Some (tr, res) => Some (Request :: Sleep (retryDelay e n) :: tr, res)
                  | None => None
                  end
             else if isRateLimit e
                  then Some ([Request], Thrown (Error QUOTA_MESSAGE))
                  else Some ([Request],
                             Thrown (Error (match nonempty (message e) with
                                            | Some m => m
                                            | None => "TTS Service Unavailable"
                                            end))))
            = Some (tr', res') /\
            (requests tr' + n <= 4 \/ requests tr' = 1)%nat) as Hcatch.
  { intros e. destruct (isRetryable e && (n <? maxRetries e)%nat)%bool; [apply Hretry|].
    destruct (isRateLimit e); eexists _, _; (split; [reflexivity|right; reflexivity]). }
  simpl. destruct (api n) as [r|e]; [|apply Hcatch].
  destruct (inspect r n) as [data| |e]; [|apply Hretry|apply Hcatch].
  eexists _, _. split; [reflexivity|right; reflexivity].
Qed.

(** The fuel does not decide the result: any two supplies that cover the
    requests that can still follow give the same. *)
Lemma makeRequest_fuel fuel fuel' n :
  (4 <= fuel + n)%nat -> (4 <= fuel' + n)%nat ->
  (1 <= fuel)%nat -> (1 <= fuel')%nat ->
  makeRequest fuel api n = makeRequest fuel' api n.
Proof.
  revert fuel' n. induction fuel as [|fuel IH]; intros fuel' n Hf Hf' H1 H1'; [lia|].
  destruct fuel' as [|fuel']; [lia|].
  destruct (le_lt_dec 3 n) as [Hn|Hn].
  - simpl.
    assert (forall e, (isRetryable e && (n <? maxRetries e)%nat)%bool = false) as Hno.
    { intros e. pose proof (maxRetries_le e).
      destruct (n <? maxRetries e)%nat eqn:Hlt; [apply Nat.ltb_lt in Hlt; lia|].
      apply andb_false_r. }
    destruct (api n) as [r|e]; [|by rewrite Hno].
    destruct (inspect r n) as [data| |e] eqn:Hi; [done| |by rewrite Hno].
    unfold inspect in Hi.
    destruct (nonempty (audioData r)); [discriminate|].
    destruct (nonempty (textRefusal r)); [discriminate|].
    destruct (nonempty (finishReason r)) as [reason|]; [|discriminate].
    destruct (String.eqb reason "STOP"); [discriminate|].
    destruct (n <? 2)%nat eqn:Hlt; [apply Nat.ltb_lt in Hlt; lia|].
    rewrite andb_false_r in Hi. discriminate.
  - simpl. rewrite (IH fuel' (S n)) by lia. reflexivity.
Qed.

End Retries.

(** C6. A rate-limit error (status 429, or a message containing '429',
    'RESOURCE_EXHAUSTED' or 'quota') met by [fetchTtsAudio] before its
    fourth request is answered by a retry, after a delay of 2, 4 and then 8
    seconds; when the rate limit is still there at the fourth request the
    call throws 'Voice service quota exceeded. Please try again later.'.
    The call always comes to an end, after at most four requests, whatever
    the service answers. *)
Theorem fetchTtsAudio_rate_limit_retries {proto : Js.StringPrototype}
    (fuel : nat) (apiKey : option string) (api : nat -> Tts.Attempt) (text : string) :
  (4 <= fuel)%nat ->
  (forall e, Tts.isRateLimit e = true <->
     Tts.js_or (Tts.status e) (Tts.code e) = Tts.JNum 429 \/
     Js.includes "429" (Tts.msg_of e) = true \/
     Js.includes "RESOURCE_EXHAUSTED" (Tts.msg_of e) = true \/
     Js.includes "quota" (Tts.msg_of e) = true) /\
  (forall n e f, api n = Tts.Fails e -> Tts.isRateLimit e = true -> (n < 3)%nat ->
     Tts.makeRequest (S f) api n =
     match Tts.makeRequest f api (S n) with
     | Some (tr, res) =>
         Some (Tts.Request :: Tts.Sleep (2000 * 2 ^ Z.of_nat n) :: tr, res)
     | None => None
     end) /\
  (exists tr res,
     Tts.fetchTtsAudio fuel apiKey api text = Some (tr, res) /\
     Tts.fetchTtsAudio fuel apiKey api text = Tts.fetchTtsAudio 4 apiKey api text /\
     (Tts.requests tr <= 4)%nat) /\
  (Tts.nonempty apiKey <> None -> Js.trim text <> "" ->
   (forall n, (n <= 3)%nat -> exists e, api n = Tts.Fails e /\ Tts.isRateLimit e = true) ->
   Tts.fetchTtsAudio fuel apiKey api text =
   Some ([Tts.Request; Tts.Sleep 2000; Tts.Request; Tts.Sleep 4000;
          Tts.Request; Tts.Sleep 8000; Tts.Request],
         Tts.Thrown (Tts.Error "Voice service quota exceeded. Please try again later."))).
Proof.
  intros Hfuel. split; [|split; [|split]].
  - intros e. unfold Tts.isRateLimit. rewrite !orb_true_iff.
    assert (Tts.is_num (Tts.js_or (Tts.status e) (Tts.code e)) 429 = true <->
            Tts.js_or (Tts.status e) (Tts.code e) = Tts.JNum 429) as ->.
    { destruct (Tts.js_or _ _) as [|m|s]; simpl; try (split; discriminate).
      rewrite Z.eqb_eq. split; congruence. }
    tauto.
  - intros n e f Ha Hr Hn. rewrite (makeRequest_rate_limit api f n e Ha Hr).
    apply Nat.ltb_lt in Hn. by rewrite Hn.
  - unfold Tts.fetchTtsAudio. destruct (Tts.nonempty apiKey).
    + destruct (String.eqb (Js.trim text) "").
      * eexists _, _. split; [reflexivity|]. split; [reflexivity|]. unfold Tts.requests; simpl; lia.
      * destruct (makeRequest_total api fuel 0) as (tr & res & Hm & Hb); [lia|lia|].
        exists tr, res. split; [exact Hm|]. split; [|lia].
        apply makeRequest_fuel; lia.
    + eexists _, _. split; [reflexivity|]. split; [reflexivity|]. unfold Tts.requests; simpl; lia.
  - intros Hkey Htext Hlim. unfold Tts.fetchTtsAudio.
    destruct (Tts.nonempty apiKey); [|done].
    destruct (String.eqb (Js.trim text) "") eqn:Heq;
      [by apply String.eqb_eq in Heq|].
    rewrite (makeRequest_fuel api fuel 4 0) by lia.
    destruct (Hlim 0%nat) as (e0 & H0 & R0); [lia|].
    destruct (Hlim 1%nat) as (e1 & H1 & R1); [lia|].
    destruct (Hlim 2%nat) as (e2 & H2 & R2); [lia|].
    destruct (Hlim 3%nat) as (e3 & H3 & R3); [lia|].
    rewrite (makeRequest_rate_limit api 3 0 e0 H0 R0).
    rewrite (makeRequest_rate_limit api 2 1 e1 H1 R1).
    rewrite (makeRequest_rate_limit api 1 2 e2 H2 R2).
    rewrite (makeRequest_rate_limit api 0 3 e3 H3 R3).
    reflexivity.
Qed.

Lemma fetchTtsAudio_rate_limit_retries_witness :
  let e429 := {| Tts.status := Tts.JNum 429; Tts.code := Tts.JUndefined;
                 Tts.message := Some "Too Many Requests" |} in
  let equota := Tts.Error "You exceeded your current quota" in
  let ok := {| Tts.audioData := Some "UklGRg=="; Tts.textRefusal := None;
               Tts.finishReason := Some "STOP" |} in
  (4 <= 7)%nat /\
  Tts.fetchTtsAudio 7 (Some "key") (fun _ => Tts.Fails e429) " hello "
    = Some ([Tts.Request; Tts.Sleep 2000; Tts.Request; Tts.Sleep 4000;
             Tts.Request; Tts.Sleep 8000; Tts.Request],
            Tts.Thrown (Tts.Error "Voice service quota exceeded. Please try again later.")) /\
  Tts.fetchTtsAudio 7 (Some "key")
    (fun n => match n with
              | 0%nat => Tts.Fails equota
              | _ => Tts.Responds ok
              end) "hello"
    = Some ([Tts.Request; Tts.Sleep 2000; Tts.Request], Tts.Returned "UklGRg==").
Proof.
  split; [lia|]. split; [|reflexivity].
  apply (fetchTtsAudio_rate_limit_retries 7 (Some "key")
           (fun _ => Tts.Fails {| Tts.status := Tts.JNum 429; Tts.code := Tts.JUndefined;
                                  Tts.message := Some "Too Many Requests" |})
           " hello " ltac:(lia)).
  - discriminate.
  - discriminate.
  - intros n _. eexists. split; reflexivity.
Defined.

(** ** Audio cache *)

Section Cache.
Import Audio.
Context {proto : Js.StringPrototype}.

Lemma audioCache_setPlayingWord v st :
  audioCache (setPlayingWord v st) = audioCache st.
Proof. reflexivity. Qed.

Lemma audioCache_stopCurrentAudio st :
  audioCache (stopCurrentAudio st) = audioCache st.
Proof. unfold stopCurrentAudio. by destruct (activeSourceRef st). Qed.

Lemma ttsCalls_stopCurrentAudio st :
  ttsCalls (stopCurrentAudio st) = ttsCalls st.
Proof. unfold stopCurrentAudio. by destruct (activeSourceRef st). Qed.

Lemma pending_stopCurrentAudio st :
  pending (stopCurrentAudio st) = pending st.
Proof. unfold stopCurrentAudio. by destruct (activeSourceRef st). Qed.

Lemma audioCache_finishPlay captured text buffer st :
  audioCache (finishPlay captured text buffer st) = audioCache st.
Proof.
  unfold finishPlay. destruct captured as [p|]; [|done].
  by destruct (String.eqb p text).
Qed.

Lemma ttsCalls_finishPlay captured text buffer st :
  ttsCalls (finishPlay captured text buffer st) = ttsCalls st.
Proof.
  unfold finishPlay. destruct captured as [p|]; [|done].
  by destruct (String.eqb p text).
Qed.

(** A call asks the text-to-speech service only on a cache miss at the
    key of its text. *)
Lemma prefetchAudio_ttsCalls text ctx st :
  ttsCalls (prefetchAudio text ctx st) = ttsCalls st \/
  (ttsCalls (prefetchAudio text ctx st) = (ttsCalls st ++ [text])%list /\
   audioCache st !! cacheKey text = None).
Proof.
  unfold prefetchAudio. destruct (String.eqb text ""); [by left|].
  destruct (audioCache st !! cacheKey text) eqn:Hc; [by left|].
  destruct ctx; [by right|by left].
Qed.

Lemma playText_ttsCalls text ctx st :
  ttsCalls (playText text ctx st) = ttsCalls st \/
  (ttsCalls (playText text ctx st) = (ttsCalls st ++ [text])%list /\
   audioCache st !! cacheKey text = None).
Proof.
  unfold playText. destruct (String.eqb text ""); [by left|].
  destruct ctx; [|left; apply ttsCalls_stopCurrentAudio].
  rewrite audioCache_setPlayingWord, audioCache_stopCurrentAudio.
  destruct (audioCache st !! cacheKey text) eqn:Hc.
  - left. rewrite ttsCalls_finishPlay. apply ttsCalls_stopCurrentAudio.
  - right. split; [|done]. unfold suspend, setPlayingWord.
    cbn [ttsCalls p_text]. by rewrite ttsCalls_stopCurrentAudio.
Qed.

Lemma resume_ttsCalls i outcome st : ttsCalls (resume i outcome st) = ttsCalls st.
Proof.
  unfold resume. destruct (pending st !! i) as [p|]; [|done].
  destruct (p_caller p), outcome; try done.
  by rewrite ttsCalls_finishPlay.
Qed.

Lemma ended_ttsCalls source st : ttsCalls (ended source st) = ttsCalls st.
Proof. unfold ended. repeat case_decide; done. Qed.

(** The cache has no eviction: an entry, once there, stays. *)
Lemma step_cache_keeps st ev k :
  is_Some (audioCache st !! k) -> is_Some (audioCache (step st ev) !! k).
Proof.
  intros Hk. destruct ev as [text ctx|text ctx|i outcome|source]; simpl.
  - unfold prefetchAudio. destruct (String.eqb text ""); [done|].
    destruct (audioCache st !! cacheKey text); [done|]. by destruct ctx.
  - unfold playText. destruct (String.eqb text ""); [done|].
    destruct ctx;
      [|by rewrite !audioCache_setPlayingWord, audioCache_stopCurrentAudio].
    rewrite audioCache_setPlayingWord, audioCache_stopCurrentAudio.
    destruct (audioCache st !! cacheKey text).
    + by rewrite audioCache_finishPlay, audioCache_setPlayingWord,
        audioCache_stopCurrentAudio.
    + unfold suspend, setPlayingWord. cbn [audioCache].
      by rewrite audioCache_stopCurrentAudio.
  - unfold resume. destruct (pending st !! i) as [p|]; [|done].
    destruct (p_caller p), outcome; try done.
    + simpl. rewrite lookup_insert. case_decide; [eauto|done].
    + rewrite audioCache_finishPlay. simpl.
      rewrite lookup_insert. case_decide; [eauto|done].
  - unfold ended. repeat case_decide; done.
Qed.

Lemma run_cache_keeps evs st k :
  is_Some (audioCache st !! k) -> is_Some (audioCache (run st evs) !! k).
Proof.
  revert st. induction evs as [|ev evs IH]; intros st Hk; [done|].
  apply IH. by apply step_cache_keeps.
Qed.

(** While a key is cached, no event asks the service for a text of that
    key. *)
Lemma step_no_fetch st ev k :
  is_Some (audioCache st !! k) ->
  exists extra, ttsCalls (step st ev) = (ttsCalls st ++ extra)%list /\
                forall t, In t extra -> cacheKey t <> k.
Proof.
  intros [b Hk].
  assert (forall text calls,
            calls = ttsCalls st \/
            (calls = (ttsCalls st ++ [text])%list /\ audioCache st !! cacheKey text = None) ->
            exists extra, calls = (ttsCalls st ++ extra)%list /\
                          forall t, In t extra -> cacheKey t <> k) as Hcase.
  { intros text calls [->|[-> Hmiss]].
    - exists []. split; [by rewrite app_nil_r|]. intros t [].
    - exists [text]. split; [done|]. intros t [<-|[]] Heq. congruence. }
  destruct ev as [text ctx|text ctx|i outcome|source]; simpl.
  - apply (Hcase text), prefetchAudio_ttsCalls.
  - apply (Hcase text), playText_ttsCalls.
  - apply (Hcase ""). left. apply resume_ttsCalls.
  - apply (Hcase ""). left. apply ended_ttsCalls.
Qed.

Lemma run_no_fetch evs st k :
  is_Some (audioCache st !! k) ->
  exists extra, ttsCalls (run st evs) = (ttsCalls st ++ extra)%list /\
                forall t, In t extra -> cacheKey t <> k.
Proof.
  revert st. induction evs as [|ev evs IH]; intros st Hk.
  - exists []. split; [by rewrite app_nil_r|]. intros t [].
  - destruct (step_no_fetch st ev k Hk) as (x1 & H1 & N1).
    destruct (IH (step st ev) (step_cache_keeps st ev k Hk)) as (x2 & H2 & N2).
    exists (x1 ++ x2)%list. split.
    + change (run st (ev :: evs)) with (run (step st ev) evs).
      by rewrite H2, H1, app_assoc.
    + intros t Ht. apply in_app_or in Ht as [Ht|Ht]; auto.
Qed.

(** A suspended call that resumes with a buffer stores it under the key
    it computed when it was called. *)
Lemma resume_caches st p b :
  audioCache (resume (length (pending st)) (Some b) (suspend p st)) !! p_cacheKey p
  = Some b.
Proof.
  unfold resume.
  assert (pending (suspend p st) !! length (pending st) = Some p) as ->.
  { simpl. by rewrite lookup_app_r, Nat.sub_diag by lia. }
  destruct (p_caller p).
  - simpl. by rewrite lookup_insert_eq.
  - rewrite audioCache_finishPlay. simpl. by rewrite lookup_insert_eq.
Qed.

(** It changes no other entry. *)
Lemma resume_fills st p b :
  audioCache (resume (length (pending st)) (Some b) (suspend p st))
  = <[p_cacheKey p := b]> (audioCache st).
Proof.
  unfold resume.
  assert (pending (suspend p st) !! length (pending st) = Some p) as ->.
  { simpl. by rewrite lookup_app_r, Nat.sub_diag by lia. }
  destruct (p_caller p).
  - reflexivity.
  - by rewrite audioCache_finishPlay.
Qed.

Lemma prefetchAudio_miss text st :
  text <> "" -> audioCache st !! cacheKey text = None ->
  prefetchAudio text true st
  = suspend {| p_caller := Prefetch; p_text := text; p_cacheKey := cacheKey text;
               p_playingWord := playingWord st |} st.
Proof.
  intros Hne Hmiss. unfold prefetchAudio.
  apply String.eqb_neq in Hne. by rewrite Hne, Hmiss.
Qed.

Lemma playText_miss text st :
  text <> "" -> audioCache st !! cacheKey text = None ->
  playText text true st
  = suspend {| p_caller := Play; p_text := text; p_cacheKey := cacheKey text;
               p_playingWord := playingWord st |}
      (setPlayingWord (Some text) (stopCurrentAudio st)).
Proof.
  intros Hne Hmiss. unfold playText.
  apply String.eqb_neq in Hne. rewrite Hne.
  by rewrite audioCache_setPlayingWord, audioCache_stopCurrentAudio, Hmiss.
Qed.

End Cache.

(** C5. The audio cache is keyed by the request text, trimmed and
    lowercased. A prefetch or a playback that fetches the audio of a text
    stores the buffer under that text trimmed and lowercased, and changes
    no other entry. So for two texts that are equal once trimmed and
    lowercased, the entry filled for the first is the one read for the
    second; once it is filled it stays filled through whatever happens
    next, no request in between fetches for a text of that key, and a
    later prefetch or playback of the second text does not call the
    text-to-speech service. Two texts that differ once trimmed and
    lowercased do not share an entry: with the audio of the first cached,
    a request for the second still fetches. *)
Theorem audio_cache_keyed_by_normalized_text {proto : Js.StringPrototype}
    (st : Audio.State) (evs : list Audio.Event) (t1 t2 : string) (ctx : bool)
    (b : Audio.AudioBuffer) :
  let key1 := Js.toLowerCase (Js.trim t1) in
  let key2 := Js.toLowerCase (Js.trim t2) in
  let fetched :=
    Audio.resume (length (Audio.pending st)) (Some b) (Audio.prefetchAudio t1 true st) in
  let played :=
    Audio.resume (length (Audio.pending st)) (Some b) (Audio.playText t1 true st) in
  (t1 <> "" -> Audio.audioCache st !! key1 = None ->
   Audio.audioCache fetched = <[key1 := b]> (Audio.audioCache st) /\
   Audio.audioCache played = <[key1 := b]> (Audio.audioCache st)) /\
  (key1 = key2 ->
   (t1 <> "" -> Audio.audioCache st !! key1 = None ->
    Audio.audioCache fetched !! key2 = Some b /\
    Audio.audioCache played !! key2 = Some b) /\
   (is_Some (Audio.audioCache st !! key1) ->
    let st' := Audio.run st evs in
    is_Some (Audio.audioCache st' !! key2) /\
    (exists extra,
       Audio.ttsCalls st' = (Audio.ttsCalls st ++ extra)%list /\
       forall t, In t extra -> Js.toLowerCase (Js.trim t) <> key2) /\
    Audio.ttsCalls (Audio.prefetchAudio t2 ctx st') = Audio.ttsCalls st' /\
    Audio.ttsCalls (Audio.playText t2 ctx st') = Audio.ttsCalls st')) /\
  (key1 <> key2 -> t1 <> "" -> t2 <> "" ->
   Audio.audioCache st !! key1 = None -> Audio.audioCache st !! key2 = None ->
   Audio.ttsCalls (Audio.prefetchAudio t2 true fetched)
     = (Audio.ttsCalls fetched ++ [t2])%list /\
   Audio.ttsCalls (Audio.playText t2 true played)
     = (Audio.ttsCalls played ++ [t2])%list).
Proof.
  intros key1 key2 fetched played.
  assert (t1 <> "" -> Audio.audioCache st !! key1 = None ->
          Audio.audioCache fetched = <[key1 := b]> (Audio.audioCache st) /\
          Audio.audioCache played = <[key1 := b]> (Audio.audioCache st)) as Hfill.
  { intros Hne Hmiss. unfold fetched, played.
    rewrite (prefetchAudio_miss t1 st Hne Hmiss), (playText_miss t1 st Hne Hmiss).
    split; [apply resume_fills|].
    rewrite <- (pending_stopCurrentAudio st).
    change (length (Audio.pending (Audio.stopCurrentAudio st)))
      with (length (Audio.pending
                      (Audio.setPlayingWord (Some t1) (Audio.stopCurrentAudio st)))).
    rewrite resume_fills. cbn [Audio.p_cacheKey].
    by rewrite audioCache_setPlayingWord, audioCache_stopCurrentAudio. }
  split; [exact Hfill|]. split.
  - intros Hkey. split.
    + intros Hne Hmiss. destruct (Hfill Hne Hmiss) as [-> ->].
      rewrite <- Hkey. by rewrite lookup_insert_eq.
    + intros Hc st'. rewrite Hkey in Hc.
      assert (is_Some (Audio.audioCache st' !! key2)) as Hc'
        by (by apply run_cache_keeps).
      split; [exact Hc'|]. split; [by apply (run_no_fetch evs st key2)|].
      destruct Hc' as [b' Hb']. split.
      * destruct (prefetchAudio_ttsCalls t2 ctx st') as [H|[_ H]]; [exact H|].
        unfold Audio.cacheKey in H. fold key2 in H. congruence.
      * destruct (playText_ttsCalls t2 ctx st') as [H|[_ H]]; [exact H|].
        unfold Audio.cacheKey in H. fold key2 in H. congruence.
  - intros Hkey Hne1 Hne2 Hmiss1 Hmiss2.
    destruct (Hfill Hne1 Hmiss1) as [Hf Hp].
    assert (Audio.audioCache fetched !! Audio.cacheKey t2 = None) as Hm2.
    { rewrite Hf. unfold Audio.cacheKey. fold key2.
      by rewrite lookup_insert_ne. }
    assert (Audio.audioCache played !! Audio.cacheKey t2 = None) as Hm2'.
    { rewrite Hp. unfold Audio.cacheKey. fold key2.
      by rewrite lookup_insert_ne. }
    split.
    + by rewrite (prefetchAudio_miss t2 fetched Hne2 Hm2).
    + rewrite (playText_miss t2 played Hne2 Hm2'). cbn [Audio.suspend Audio.ttsCalls].
      cbn [Audio.setPlayingWord Audio.ttsCalls Audio.p_text].
      by rewrite ttsCalls_stopCurrentAudio.
Qed.

Lemma audio_cache_keyed_by_normalized_text_witness :
  let b := {| Audio.payload := "UklGRg==" |} in
  let cached := Audio.run Audio.init
                  [Audio.CallPrefetch "Apple" true; Audio.Resume 0 (Some b)] in
  Js.toLowerCase (Js.trim "Apple") = "apple" /\
  Js.toLowerCase (Js.trim "  apple ") = "apple" /\
  Audio.audioCache cached = {[ "apple" := b ]} /\
  Audio.ttsCalls cached = ["Apple"] /\
  Audio.ttsCalls (Audio.playText "  apple " true cached) = ["Apple"] /\
  Audio.ttsCalls (Audio.prefetchAudio "  apple " true cached) = ["Apple"] /\
  Audio.ttsCalls (Audio.prefetchAudio "pear" true cached) = ["Apple"; "pear"].
Proof.
  intros b cached.
  destruct (audio_cache_keyed_by_normalized_text Audio.init [] "Apple" "  apple " true b)
    as (Hfill & _ & _).
  destruct (Hfill ltac:(discriminate) eq_refl) as [Hpre _].
  destruct (audio_cache_keyed_by_normalized_text cached [] "Apple" "  apple " true b)
    as (_ & Hsame & _).
  destruct (Hsame eq_refl) as [_ Hkeep].
  destruct Hkeep as (_ & _ & Hp & Hq).
  { exists b. vm_compute. reflexivity. }
  destruct (audio_cache_keyed_by_normalized_text Audio.init [] "Apple" "pear" true b)
    as (_ & _ & Hdiff).
  destruct (Hdiff ltac:(vm_compute; discriminate) ltac:(discriminate) ltac:(discriminate)
              eq_refl eq_refl) as [Hother _].
  split; [reflexivity|]. split; [reflexivity|].
  split; [exact Hpre|]. split; [reflexivity|].
  split; [exact Hq|]. split; [exact Hp|exact Hother].
Defined.

(** ** Playback *)

Section Playback.
Import Audio.
Context {proto : Js.StringPrototype}.

Lemma singleSource_size st : singleSource st -> (size (sounding st) <= 1)%nat.
Proof.
  intros Hs. destruct (decide (sounding st = ∅)) as [->|Hne].
  - rewrite size_empty. lia.
  - apply set_choose_L in Hne as [x Hx].
    assert (sounding st = {[x]}) as ->; [|by rewrite size_singleton].
    apply set_eq. intros y. rewrite elem_of_singleton. split.
    + intros Hy. apply Hs in Hx, Hy. congruence.
    + by intros ->.
Qed.

(** [stopCurrentAudio] silences the component when it tracks its
    sources. *)
Lemma stopCurrentAudio_silent st :
  singleSource st ->
  sounding (stopCurrentAudio st) = ∅ /\ activeSourceRef (stopCurrentAudio st) = None.
Proof.
  intros Hs. unfold stopCurrentAudio.
  destruct (activeSourceRef st) as [src|] eqn:Ha; simpl.
  - split; [|done]. apply set_eq. intros y. split; [|set_solver].
    intros Hy. apply elem_of_difference in Hy as [Hy Hn].
    apply Hs in Hy. rewrite Ha in Hy. set_solver.
  - split; [|done]. apply set_eq. intros y. split; [|set_solver].
    intros Hy. apply Hs in Hy. congruence.
Qed.

Lemma finishPlay_singleSource captured text buffer st :
  sounding st = ∅ -> activeSourceRef st = None ->
  singleSource (finishPlay captured text buffer st).
Proof.
  intros He Ha.
  assert (singleSource st) as Hst.
  { intros y Hy. rewrite He in Hy. by apply not_elem_of_empty in Hy. }
  assert (singleSource (playAudioBuffer buffer st)) as Hplay.
  { intros y. unfold playAudioBuffer. cbn [sounding activeSourceRef].
    rewrite He, elem_of_union, elem_of_singleton.
    intros [->|Hy]; [done|]. by apply not_elem_of_empty in Hy. }
  unfold finishPlay. destruct captured as [p|]; [|done].
  by destruct (String.eqb p text).
Qed.

(** Called when no earlier [playText] is resumed later on, [playText]
    leaves at most one source sounding. *)
Lemma playText_singleSource text ctx st :
  singleSource st -> singleSource (playText text ctx st).
Proof.
  intros Hs. unfold playText. destruct (String.eqb text ""); [done|].
  destruct (stopCurrentAudio_silent st Hs) as [He Ha].
  destruct ctx.
  - destruct (audioCache _ !! _).
    + by apply finishPlay_singleSource.
    + intros y. unfold suspend, setPlayingWord. cbn [sounding activeSourceRef].
      rewrite He. intros Hy. by apply not_elem_of_empty in Hy.
  - intros y. unfold setPlayingWord. cbn [sounding activeSourceRef].
    rewrite He. intros Hy. by apply not_elem_of_empty in Hy.
Qed.

Lemma ended_singleSource source st :
  singleSource st -> singleSource (ended source st).
Proof.
  intros Hs. unfold ended. case_decide as Hin; [|done].
  case_decide as Ha; intros y; simpl; intros Hy.
  - apply elem_of_difference in Hy as [Hy Hn]. apply Hs in Hy. set_solver.
  - apply elem_of_difference in Hy as [Hy Hn]. by apply Hs.
Qed.

(** Every event keeps the single source, except the resumption of a
    suspended [playText]. *)
Lemma step_singleSource st ev :
  singleSource st -> ~ resumesPlay st ev -> singleSource (step st ev).
Proof.
  intros Hs Hnr. destruct ev as [text ctx|text ctx|i outcome|source]; simpl.
  - unfold prefetchAudio. destruct (String.eqb text ""); [done|].
    destruct (audioCache st !! cacheKey text); [done|]. by destruct ctx.
  - by apply playText_singleSource.
  - unfold resume. destruct (pending st !! i) as [p|] eqn:Hp; [|done].
    destruct (p_caller p) eqn:Hc, outcome as [buffer|]; try done.
    destruct Hnr. by exists i, buffer, p.
  - by apply ended_singleSource.
Qed.

(** A suspended [playText] that resumes while nothing sounds keeps the
    single source too: calls that do not overlap never play together. *)
Lemma resume_singleSource_silent i outcome st :
  sounding st = ∅ -> activeSourceRef st = None ->
  singleSource (resume i outcome st).
Proof.
  intros He Ha.
  assert (singleSource st) as Hst.
  { intros y Hy. rewrite He in Hy. by apply not_elem_of_empty in Hy. }
  unfold resume. destruct (pending st !! i) as [p|]; [|done].
  destruct (p_caller p), outcome as [buffer|]; try done.
  by apply finishPlay_singleSource.
Qed.

End Playback.

(** C7, evaluated where it fails. Two [playText] calls for the same text
    whose audio is not cached yet (a double click) both stop the current
    source, which is none, and both wait for their fetch; each then plays
    its buffer when it resumes, and the second starts while the first
    still sounds: two sources are active, and [activeSourceRef] holds only
    the second. *)
Theorem playText_overlapping_calls_two_sources {proto : Js.StringPrototype} :
  let b := {| Audio.payload := "UklGRg==" |} in
  let calls := Audio.run Audio.init
                 [Audio.CallPlay "hello" true; Audio.CallPlay "hello" true] in
  let first := Audio.step calls (Audio.Resume 0 (Some b)) in
  let second := Audio.step first (Audio.Resume 0 (Some b)) in
  Audio.sounding calls = ∅ /\ length (Audio.pending calls) = 2%nat /\
  Audio.sounding first = {[0%nat]} /\ Audio.singleSource first /\
  Audio.resumesPlay first (Audio.Resume 0 (Some b)) /\
  Audio.sounding second = {[0%nat; 1%nat]} /\
  size (Audio.sounding second) = 2%nat /\
  Audio.activeSourceRef second = Some 1%nat /\
  ~ Audio.singleSource second.
Proof.
  intros b calls first second.
  assert (Audio.sounding first = {[0%nat]}) as Hfirst by (vm_compute; reflexivity).
  assert (Audio.activeSourceRef first = Some 0%nat) as Hactive by reflexivity.
  assert (size (Audio.sounding second) = 2%nat) as Hsize by (vm_compute; reflexivity).
  split; [vm_compute; reflexivity|]. split; [reflexivity|].
  split; [exact Hfirst|]. split.
  { intros source Hs. rewrite Hfirst in Hs. apply elem_of_singleton in Hs.
    by rewrite Hs. }
  split.
  { exists 0%nat, b. eexists. repeat split. }
  split; [vm_compute; reflexivity|]. split; [exact Hsize|].
  split; [reflexivity|].
  intros Hs. apply singleSource_size in Hs. lia.
Qed.

(** * Further properties *)

(** ** Saving and reading back *)

Section SaveRead.
Import Db.

(** How a save that returns got there: by the remote store, or by the
    fallback after a remote failure. *)
Lemma saveWordToProfile_returned env uid wd w w' b :
  saveWordToProfile env uid wd w = (w', Returned b) ->
  b = true /\
  ((getDocsError env = None /\ addDocError env = None /\
    saveRemote env uid wd w = (w', Returned true) /\
    exists x, remoteWord w' uid (newDocId env) = Some x /\ details x = wd /\
              srsStage x = 0 /\ nextReviewAt x = now env /\ isInFFL x = Some false /\
              localStorage w' = localStorage w) \/
   (exists e x, saveRemote env uid wd w = (w, Thrown e) /\ isFirestoreError e = true /\
                localWords w' uid = (localWords w uid ++ [x])%list /\
                remote w' = remote w /\ details x = wd /\
                srsStage x = 0 /\ nextReviewAt x = now env /\ isInFFL x = Some false)).
Proof.
  unfold saveWordToProfile.
  destruct (saveRemote env uid wd w) as [w1 [b1|e]] eqn:Hr.
  - intros [= <- <-]. unfold saveRemote in Hr.
    destruct (getDocsError env); [discriminate|].
    destruct (List.filter _ _); [|discriminate].
    destruct (addDocError env); [discriminate|].
    injection Hr as <- <-. split; [done|]. left.
    repeat split; try done.
    eexists. split.
    + unfold remoteWord. rewrite collection_set_collection. apply lookup_insert_eq.
    + done.
  - assert (w1 = w) as ->.
    { pose proof (saveRemote_thrown env uid wd w e) as H. rewrite Hr in H.
      specialize (H eq_refl). congruence. }
    destruct (isFirestoreError e) eqn:Hfs; [|discriminate].
    unfold saveLocal. destruct (existsb _ _); [discriminate|].
    intros [= <- <-]. split; [done|]. right.
    eexists e, _. split; [done|]. split; [done|].
    rewrite localWords_set_local. repeat split.
Qed.

End SaveRead.

(** A word just saved is due at once in the store that took it: among
    the due words read from the remote store when the remote save went
    through, among those read from local storage when the fallback ran.
    A word saved by the fallback does not show when the remote store is
    read. *)
Theorem saved_word_is_due
    (env : Db.Env) (uid : string) (wd : WordDetails) (w w' : Db.World) (b : bool) :
  Db.saveWordToProfile env uid wd w = (w', Db.Returned b) ->
  exists x,
    details x = wd /\ srsStage x = 0 /\ isInFFL x = Some false /\
    nextReviewAt x = Db.now env /\
    ((snd (Db.saveRemote env uid wd w) = Db.Returned true /\
      forall env', Db.getDocsError env' = None -> Db.now env <= Db.now env' ->
                   In x (Db.getDueWords env' uid w')) \/
     ((exists e, snd (Db.saveRemote env uid wd w) = Db.Thrown e) /\
      (forall env', Db.getDocsError env' <> None -> Db.now env <= Db.now env' ->
                    In x (Db.getDueWords env' uid w')) /\
      (forall env', Db.getDocsError env' = None ->
                    Db.getUserWords env' uid w' = Db.getUserWords env' uid w))).
Proof.
  intros Hs. apply saveWordToProfile_returned in Hs as [-> [Hrem|Hloc]].
  - destruct Hrem as (_ & _ & Hr & x & Hx & Hd & Hst & Hn & Hf & _).
    exists (set_id x (Db.newDocId env)). repeat split; try done.
    left. rewrite Hr. split; [done|].
    intros env' He Hle. unfold Db.getDueWords, Db.getUserWords. rewrite He.
    apply filter_In. split; [by apply docs_lookup|].
    unfold Db.isDue. simpl. rewrite Hn. by apply Z.leb_le.
  - destruct Hloc as (e & x & Hr & _ & Hl & Hrm & Hd & Hst & Hn & Hf).
    exists x. repeat split; try done.
    right. rewrite Hr. split; [by exists e|]. split.
    + intros env' He Hle. unfold Db.getDueWords, Db.getUserWords.
      destruct (Db.getDocsError env'); [|done].
      apply filter_In. split.
      * rewrite Hl. apply in_or_app. right. by left.
      * unfold Db.isDue. rewrite Hn. by apply Z.leb_le.
    + intros env' He. unfold Db.getUserWords. rewrite He.
      unfold Db.docs, Db.collection. by rewrite Hrm.
Qed.

Lemma saved_word_is_due_witness :
  exists w' x,
    Db.saveWordToProfile Sample.online "u1" Sample.pear Sample.w_remote
      = (w', Db.Returned true) /\
    details x = Sample.pear /\
    In x (Db.getDueWords Sample.online "u1" w').
Proof.
  destruct (saved_word_is_due Sample.online "u1" Sample.pear Sample.w_remote
              (fst (Db.saveWordToProfile Sample.online "u1" Sample.pear Sample.w_remote))
              true)
    as (x & Hd & _ & _ & _ & [[_ Hdue]|[[e He] _]]).
  - vm_compute. reflexivity.
  - eexists _, x. split; [vm_compute; reflexivity|]. split; [exact Hd|].
    apply Hdue; [reflexivity|]. apply Z.le_refl.
  - vm_compute in He. discriminate.
Defined.

(** ** Updates stay local *)

Section Locality.
Import Db Inv.

Lemma prefix_key_inj (a b : string) :
  LOCAL_STORAGE_PREFIX ++ a = LOCAL_STORAGE_PREFIX ++ b -> a = b.
Proof.
  generalize LOCAL_STORAGE_PREFIX. intros p. induction p as [|c p IH]; [done|].
  change (String c p ++ a) with (String c (p ++ a)).
  change (String c p ++ b) with (String c (p ++ b)).
  intros [= H]. auto.
Qed.

Lemma localWords_set_local_ne w uid uid' v :
  uid' <> uid -> localWords (set_local w (LOCAL_STORAGE_PREFIX ++ uid) v) uid' = localWords w uid'.
Proof.
  intros Hne. unfold localWords, set_local. simpl.
  rewrite lookup_insert_ne; [done|]. intros H. by apply prefix_key_inj in H.
Qed.

Lemma collection_set_collection_ne w uid uid' c :
  uid' <> uid -> collection (set_collection w uid c) uid' = collection w uid'.
Proof.
  intros Hne. unfold collection, set_collection. simpl.
  by rewrite lookup_insert_ne.
Qed.

Lemma alter_findIndex_other {A} (p : A -> bool) (f : A -> A) (l : list A) i j x :
  Js.findIndex p l = Some i -> l !! j = Some x -> p x = false ->
  alter f i l !! j = Some x.
Proof.
  intros Hi Hj Hp. destruct (decide (i = j)) as [->|Hne].
  - destruct (findIndex_find p l j Hi) as (y & Hy & _ & Hpy). congruence.
  - by rewrite list_lookup_alter_ne.
Qed.

Lemma map_alter_keeps {A B} (g : A -> B) (f : A -> A) (i : nat) (l : list A) :
  (forall y, g (f y) = g y) -> List.map g (alter f i l) = List.map g l.
Proof.
  intros Hf. revert i. induction l as [|a l IH]; intros [|i]; simpl; try done.
  - by rewrite Hf.
  - f_equal. apply IH.
Qed.

(** An update in one of the three shapes touches only its word. *)
Lemma updatedBy_onlyTouches f uid wordId w w' :
  keepsIdentity f -> updatedBy f uid wordId w w' -> onlyTouches uid wordId w w'.
Proof.
  intros Hf [->|[->|(d & Hd & ->)]].
  - repeat split; eauto.
  - unfold updateLocal.
    destruct (Js.findIndex (has_id wordId) (localWords w uid)) as [i|] eqn:Hi.
    + unfold onlyTouches. split; [done|]. split; [done|]. split; [eauto|].
      rewrite localWords_set_local.
      split; [apply map_alter_keeps; intros y; apply Hf|].
      split; [apply map_alter_keeps; intros y; apply Hf|].
      split.
      { intros j x Hj Hne.
        apply (alter_findIndex_other (has_id wordId) f _ i j x Hi Hj).
        unfold has_id. by apply String.eqb_neq. }
      intros uid' Hne. split; [done|by apply localWords_set_local_ne].
    + repeat split; eauto.
  - unfold onlyTouches, remoteWord in *.
    split; [rewrite collection_set_collection; apply dom_insert_lookup_L; eauto|].
    split.
    { intros k Hk. rewrite collection_set_collection. by rewrite lookup_insert_ne. }
    split.
    { intros d0 Hd0. rewrite collection_set_collection, lookup_insert_eq.
      eexists. split; [done|]. rewrite Hd in Hd0. injection Hd0 as <-. apply Hf. }
    split; [done|]. split; [done|]. split; [by intros|].
    intros uid' Hne. split; [by apply collection_set_collection_ne|done].
Qed.

Lemma updateDoc_shape env uid wordId f w :
  match updateDoc env uid wordId f w with
  | inl w' => exists d, remoteWord w uid wordId = Some d /\
                        w' = set_collection w uid (<[wordId := f d]> (collection w uid))
  | inr _ => True
  end.
Proof.
  unfold updateDoc, remoteWord. destruct (updateDocError env); [done|].
  destruct (collection w uid !! wordId) as [d|]; [eauto|done].
Qed.

Lemma updateWordProgress_updatedBy env uid wordId c s w :
  exists f, keepsIdentity f /\
            updatedBy f uid wordId w (updateWordProgress env uid wordId c s w).
Proof.
  unfold updateWordProgress.
  destruct (Js.startsWith "local_" wordId).
  - eexists. split; [|right; left; reflexivity]. by intros y.
  - match goal with |- context [updateDoc env uid wordId ?g w] =>
      pose proof (updateDoc_shape env uid wordId g w) as Hs;
      destruct (updateDoc env uid wordId g w) as [w'|e]
    end.
    + eexists. split; [|right; right; exact Hs]. by intros y.
    + destruct (code_truthy e).
      * eexists. split; [|right; left; reflexivity]. by intros y.
      * exists (fun y => y). split; [by intros y|by left].
Qed.

Lemma markWordAsForgot_updatedBy env uid wordId w :
  updatedBy (fun x => set_isInFFL x true) uid wordId w (markWordAsForgot env uid wordId w).
Proof.
  unfold markWordAsForgot.
  destruct (Js.startsWith "local_" wordId); [right; left; reflexivity|].
  pose proof (updateDoc_shape env uid wordId (fun x => set_isInFFL x true) w) as Hs.
  destruct (updateDoc env uid wordId _ w) as [w'|e].
  - right; right; exact Hs.
  - right; left; reflexivity.
Qed.

End Locality.

(** Recording a review and marking a word as forgotten touch at most the
    addressed word of the user: no word is added or removed, every other
    word stays as it was in both stores, the addressed word keeps its
    lexical fields, and other users' data is not touched. *)
Theorem updates_only_touch_addressed_word
    (env : Db.Env) (uid wordId : string) (isCorrect : bool) (s : Z) (w : Db.World) :
  Inv.onlyTouches uid wordId w (Db.updateWordProgress env uid wordId isCorrect s w) /\
  Inv.onlyTouches uid wordId w (Db.markWordAsForgot env uid wordId w).
Proof.
  split.
  - destruct (updateWordProgress_updatedBy env uid wordId isCorrect s w) as (f & Hf & Hu).
    by apply (updatedBy_onlyTouches f).
  - apply (updatedBy_onlyTouches (fun x => set_isInFFL x true)); [by intros y|].
    apply markWordAsForgot_updatedBy.
Qed.

(** ** No duplicates inside a store *)

Section Unique.
Import Db Inv.

Lemma onlyTouches_uniqueWords uid wordId w w' :
  onlyTouches uid wordId w w' -> uniqueWords w uid -> uniqueWords w' uid.
Proof.
  intros (Hdom & Hother & Hself & _ & Hdet & _) [Hrem Hloc].
  assert (forall k d', remoteWord w' uid k = Some d' ->
            exists d, remoteWord w uid k = Some d /\ details d' = details d) as Hback.
  { intros k d' Hk. destruct (decide (k = wordId)) as [->|Hne].
    - assert (is_Some (remoteWord w uid wordId)) as [d Hd].
      { unfold remoteWord in *. apply elem_of_dom. rewrite <- Hdom.
        apply elem_of_dom. eauto. }
      destruct (Hself d Hd) as (d'' & Hd'' & Heq). exists d. split; [done|].
      congruence.
    - rewrite (Hother k Hne) in Hk. eauto. }
  split.
  - intros k1 k2 d1 d2 H1 H2 Hw.
    destruct (Hback k1 d1 H1) as (e1 & He1 & Hq1).
    destruct (Hback k2 d2 H2) as (e2 & He2 & Hq2).
    apply (Hrem k1 k2 e1 e2 He1 He2). congruence.
  - replace (List.map (fun x => word (details x)) (localWords w' uid))
      with (List.map word (List.map details (localWords w' uid)))
      by (by rewrite List.map_map).
    rewrite Hdet, List.map_map. exact Hloc.
Qed.

(** A save that throws has written nothing. *)
Lemma saveWordToProfile_thrown env uid wd w w' e :
  saveWordToProfile env uid wd w = (w', Thrown e) -> w' = w.
Proof.
  unfold saveWordToProfile.
  destruct (saveRemote env uid wd w) as [w1 [b1|e1]] eqn:Hr; [discriminate|].
  assert (w1 = w) as ->.
  { pose proof (saveRemote_thrown env uid wd w e1) as H. rewrite Hr in H.
    specialize (H eq_refl). congruence. }
  destruct (isFirestoreError e1); [|congruence].
  unfold saveLocal. destruct (existsb _ _); [congruence|discriminate].
Qed.

Lemma saveRemote_returned env uid wd w w' b :
  saveRemote env uid wd w = (w', Returned b) ->
  (forall k d, remoteWord w uid k = Some d -> word (details d) <> word wd) /\
  exists nw, details nw = wd /\
             w' = set_collection w uid (<[newDocId env := nw]> (collection w uid)).
Proof.
  unfold saveRemote. destruct (getDocsError env); [discriminate|].
  destruct (List.filter (same_word wd) (docs w uid)) eqn:Hf; [|discriminate].
  destruct (addDocError env); [discriminate|].
  intros [= <- <-]. split; [|eexists; split; [|reflexivity]; reflexivity].
  intros k d Hd Hw.
  assert (In (set_id d k) (List.filter (same_word wd) (docs w uid))) as Hin.
  { apply filter_In. split; [by apply docs_lookup|].
    unfold same_word. simpl. rewrite Hw. apply String.eqb_refl. }
  rewrite Hf in Hin. destruct Hin.
Qed.

Lemma saveWordToProfile_uniqueWords env uid wd w :
  uniqueWords w uid -> uniqueWords (fst (saveWordToProfile env uid wd w)) uid.
Proof.
  intros [Hrem Hloc].
  destruct (saveWordToProfile env uid wd w) as [w' [b|e]] eqn:Hs; simpl.
  2:{ apply saveWordToProfile_thrown in Hs as ->. by split. }
  unfold saveWordToProfile in Hs.
  destruct (saveRemote env uid wd w) as [w1 [b1|e1]] eqn:Hr.
  - injection Hs as <- <-.
    apply saveRemote_returned in Hr as (Hnew & nw & Hnw & ->).
    split; [|exact Hloc].
    unfold remoteWord in *. intros k1 k2 d1 d2.
    rewrite collection_set_collection, !lookup_insert.
    repeat case_decide; subst; intros H1 H2 Hw; try done.
    + injection H1 as <-. destruct (Hnew k2 d2 H2). congruence.
    + injection H2 as <-. destruct (Hnew k1 d1 H1). congruence.
    + by apply (Hrem k1 k2 d1 d2).
  - assert (w1 = w) as ->.
    { pose proof (saveRemote_thrown env uid wd w e1) as H. rewrite Hr in H.
      specialize (H eq_refl). congruence. }
    destruct (isFirestoreError e1); [|discriminate].
    unfold saveLocal in Hs.
    destruct (existsb (same_word wd) (localWords w uid)) eqn:Hex; [discriminate|].
    injection Hs as <- <-. split; [exact Hrem|].
    rewrite localWords_set_local, List.map_app. simpl.
    apply NoDup_app. split; [exact Hloc|]. split; [|apply NoDup_singleton].
    intros x Hx Hx'. apply list_elem_of_In in Hx.
    apply list_elem_of_singleton in Hx'. subst x.
    apply in_map_iff in Hx as (y & Hy & Hin).
    assert (existsb (same_word wd) (localWords w uid) = true) as Ht
      by (apply existsb_same_word; eauto).
    congruence.
Qed.

End Unique.

(** Inside one store a user never gets two entries with the same
    word-text: the remote collection and the local list, each free of
    duplicates, stay so through saving a word, recording a review and
    marking a word as forgotten. *)
Theorem stores_keep_words_unique
    (env : Db.Env) (uid wordId : string) (wd : WordDetails) (isCorrect : bool)
    (s : Z) (w : Db.World) :
  Inv.uniqueWords w uid ->
  Inv.uniqueWords (fst (Db.saveWordToProfile env uid wd w)) uid /\
  Inv.uniqueWords (Db.updateWordProgress env uid wordId isCorrect s w) uid /\
  Inv.uniqueWords (Db.markWordAsForgot env uid wordId w) uid.
Proof.
  intros Hu. split; [by apply saveWordToProfile_uniqueWords|].
  split.
  - destruct (updateWordProgress_updatedBy env uid wordId isCorrect s w) as (f & Hf & Hb).
    apply (onlyTouches_uniqueWords uid wordId w); [|exact Hu].
    by apply (updatedBy_onlyTouches f).
  - apply (onlyTouches_uniqueWords uid wordId w); [|exact Hu].
    apply (updatedBy_onlyTouches (fun x => set_isInFFL x true)); [by intros y|].
    apply markWordAsForgot_updatedBy.
Qed.

Lemma stores_keep_words_unique_witness :
  Inv.uniqueWords Sample.w_remote "u1" /\
  Inv.uniqueWords
    (fst (Db.saveWordToProfile Sample.online "u1" Sample.pear Sample.w_remote)) "u1".
Proof.
  assert (Inv.uniqueWords Sample.w_remote "u1") as Hu.
  { split; [|apply NoDup_nil; done].
    intros k1 k2 d1 d2 H1 H2 _.
    assert (Db.collection Sample.w_remote "u1"
            = {[ "w1" := Sample.stored Sample.apple "w1" 0 ]}) as Hc
      by (vm_compute; reflexivity).
    unfold Db.remoteWord in *. rewrite Hc in H1, H2.
    apply lookup_singleton_Some in H1 as [<- _].
    apply lookup_singleton_Some in H2 as [<- _]. reflexivity. }
  split; [exact Hu|].
  apply (stores_keep_words_unique Sample.online "u1" "w1" Sample.pear true 0
           Sample.w_remote Hu).
Defined.

(** ** Saving twice *)

Section Twice.
Import Db.

Lemma saveWordToProfile_remote_duplicate env uid wd w k d :
  getDocsError env = None ->
  remoteWord w uid k = Some d -> word (details d) = word wd ->
  saveWordToProfile env uid wd w = (w, Thrown (Error ALREADY_SAVED)).
Proof.
  intros He Hd Hw. unfold saveWordToProfile.
  rewrite (saveRemote_duplicate env uid wd w k d He Hd Hw).
  by rewrite already_saved_not_firestore.
Qed.

Lemma saveWordToProfile_local_duplicate env uid wd w e x :
  snd (saveRemote env uid wd w) = Thrown e -> isFirestoreError e = true ->
  In x (localWords w uid) -> word (details x) = word wd ->
  saveWordToProfile env uid wd w = (w, Thrown (Error ALREADY_SAVED)).
Proof.
  intros Hr Hfs Hin Hw. unfold saveWordToProfile.
  rewrite (saveRemote_thrown _ _ _ _ _ Hr), Hfs. unfold saveLocal.
  assert (existsb (same_word wd) (localWords w uid) = true) as ->
    by (apply existsb_same_word; eauto).
  reflexivity.
Qed.

(** The set of remote failures that lead to the fallback does not depend
    on the word or on the store. *)
Lemma saveRemote_thrown_fallback env uid wd w e :
  snd (saveRemote env uid wd w) = Thrown e -> isFirestoreError e = true ->
  getDocsError env = Some e \/ (getDocsError env = None /\ addDocError env = Some e).
Proof.
  unfold saveRemote. destruct (getDocsError env) as [e0|]; simpl.
  - intros [= ->]. by left.
  - destruct (List.filter _ _); simpl.
    + destruct (addDocError env); simpl; [|discriminate].
      intros [= ->] _. by right.
    + intros [= <-]. by rewrite already_saved_not_firestore.
Qed.

End Twice.

(** Saving the same word-text again is rejected with 'You have already
    saved this word.' and writes nothing, as long as the second save
    consults the store that took the first: the remote collection after a
    remote save, the local list after a fallback save. When the first
    save went to the remote store and the second one falls back to a
    local list without the word, it is accepted, and the word then sits
    in both stores. *)
Theorem second_save_of_a_word
    (env env2 : Db.Env) (uid : string) (wd wd2 : WordDetails) (w w' : Db.World)
    (b : bool) :
  Db.saveWordToProfile env uid wd w = (w', Db.Returned b) ->
  word wd2 = word wd ->
  (snd (Db.saveRemote env uid wd w) = Db.Returned true ->
   (Db.getDocsError env2 = None ->
    Db.saveWordToProfile env2 uid wd2 w'
      = (w', Db.Thrown (Db.Error "You have already saved this word."))) /\
   (forall e2, Db.getDocsError env2 = Some e2 -> Db.storeUnreachable e2 ->
      (forall x, In x (Db.localWords w uid) -> word (details x) <> word wd) ->
      exists w'', Db.saveWordToProfile env2 uid wd2 w' = (w'', Db.Returned true) /\
                  (exists k d, Db.remoteWord w'' uid k = Some d /\
                               word (details d) = word wd) /\
                  (exists x, In x (Db.localWords w'' uid) /\
                             word (details x) = word wd))) /\
  ((exists e, snd (Db.saveRemote env uid wd w) = Db.Thrown e) ->
   forall e2, snd (Db.saveRemote env2 uid wd2 w') = Db.Thrown e2 ->
              Db.storeUnreachable e2 ->
     Db.saveWordToProfile env2 uid wd2 w'
       = (w', Db.Thrown (Db.Error "You have already saved this word."))).
Proof.
  intros Hs Hw.
  apply saveWordToProfile_returned in Hs as [-> [Hrem|Hloc]].
  - destruct Hrem as (_ & _ & Hr & x & Hx & Hd & _ & _ & _ & Hls).
    split.
    + intros _. split.
      * intros He2.
        apply (saveWordToProfile_remote_duplicate env2 uid wd2 w' (Db.newDocId env) x He2 Hx).
        congruence.
      * intros e2 He2 Hfs Hnew. apply isFirestoreError_spec in Hfs.
        assert (Db.localWords w' uid = Db.localWords w uid) as Hl
          by (unfold Db.localWords; by rewrite Hls).
        unfold Db.saveWordToProfile, Db.saveRemote. rewrite He2, Hfs.
        unfold Db.saveLocal.
        destruct (existsb (Db.same_word wd2) (Db.localWords w' uid)) eqn:Hex.
        { apply existsb_same_word in Hex as (y & Hin & Hy).
          rewrite Hl in Hin. destruct (Hnew y Hin). congruence. }
        eexists. split; [reflexivity|]. split.
        { exists (Db.newDocId env), x. split; [exact Hx|congruence]. }
        eexists. rewrite localWords_set_local. split.
        { apply in_or_app. right. left. reflexivity. }
        simpl. exact Hw.
    + intros [e He]. rewrite Hr in He. discriminate.
  - destruct Hloc as (e & x & Hr & _ & Hl & _ & Hd & _).
    split.
    + intros H. rewrite Hr in H. discriminate.
    + intros _ e2 Hr2 Hfs. apply isFirestoreError_spec in Hfs.
      apply (saveWordToProfile_local_duplicate env2 uid wd2 w' e2 x Hr2 Hfs).
      * rewrite Hl. apply in_or_app. right. by left.
      * congruence.
Qed.

Lemma second_save_of_a_word_witness :
  exists w',
    Db.saveWordToProfile Sample.online "u1" Sample.pear Sample.w_remote
      = (w', Db.Returned true) /\
    Db.saveWordToProfile Sample.online "u1" Sample.pear w'
      = (w', Db.Thrown (Db.Error "You have already saved this word.")).
Proof.
  eexists. split; [vm_compute; reflexivity|].
  destruct (second_save_of_a_word Sample.online Sample.online "u1" Sample.pear Sample.pear
              Sample.w_remote _ true ltac:(vm_compute; reflexivity) eq_refl)
    as [Hrem _].
  apply Hrem; reflexivity.
Defined.

(** ** Reviews: lost, repeated, scheduled *)

Section Reviews.
Import Db.

Lemma findIndex_alter {A} (p : A -> bool) (f : A -> A) (i : nat) (l : list A) :
  (forall y, p (f y) = p y) -> Js.findIndex p (alter f i l) = Js.findIndex p l.
Proof.
  intros Hf. revert i. induction l as [|a l IH]; intros [|i]; simpl; try done.
  - by rewrite Hf.
  - destruct (p a); [done|]. f_equal. apply IH.
Qed.

Lemma alter_alter_same {A} (f : A -> A) (i : nat) (l : list A) :
  (forall y, f (f y) = f y) -> alter f i (alter f i l) = alter f i l.
Proof.
  intros Hf. revert i. induction l as [|a l IH]; intros [|i]; simpl; try done.
  - by rewrite Hf.
  - f_equal. apply IH.
Qed.

Lemma set_local_twice w key v v' :
  set_local (set_local w key v) key v' = set_local w key v'.
Proof. unfold set_local. simpl. by rewrite insert_insert_eq. Qed.

Lemma set_collection_twice w uid c c' :
  set_collection (set_collection w uid c) uid c' = set_collection w uid c'.
Proof. unfold set_collection. simpl. by rewrite insert_insert_eq. Qed.

Lemma updateLocal_twice uid wordId f w :
  (forall y, has_id wordId (f y) = has_id wordId y) -> (forall y, f (f y) = f y) ->
  updateLocal uid wordId f (updateLocal uid wordId f w) = updateLocal uid wordId f w.
Proof.
  intros Hid Hff. unfold updateLocal at 2.
  destruct (Js.findIndex (has_id wordId) (localWords w uid)) as [i|] eqn:Hi.
  - unfold updateLocal. rewrite localWords_set_local.
    rewrite findIndex_alter, Hi by done.
    by rewrite set_local_twice, alter_alter_same.
  - unfold updateLocal. by rewrite Hi.
Qed.

Lemma updateDoc_twice env uid wordId f w w1 :
  (forall y, f (f y) = f y) ->
  updateDoc env uid wordId f w = inl w1 -> updateDoc env uid wordId f w1 = inl w1.
Proof.
  intros Hff. unfold updateDoc. destruct (updateDocError env); [discriminate|].
  destruct (collection w uid !! wordId) as [d|] eqn:Hd; [|discriminate].
  intros [= <-]. rewrite collection_set_collection, lookup_insert_eq.
  by rewrite set_collection_twice, insert_insert_eq, Hff.
Qed.

Lemma updateDoc_error_local env uid wordId f g w e :
  updateDoc env uid wordId f w = inr e ->
  updateDoc env uid wordId f (updateLocal uid wordId g w) = inr e.
Proof.
  unfold updateDoc. destruct (updateDocError env); [done|].
  replace (collection (updateLocal uid wordId g w) uid) with (collection w uid)
    by (unfold collection; by rewrite updateLocal_remote).
  by destruct (collection w uid !! wordId).
Qed.

End Reviews.

(** Recording the same review again, or marking the same word as
    forgotten again, changes nothing more: the new stage comes from the
    card as it was loaded, not from the store, so a repeated answer on one
    card cannot advance the word by two stages. *)
Theorem repeated_update_is_idempotent
    (env : Db.Env) (uid wordId : string) (isCorrect : bool) (s : Z) (w : Db.World) :
  Db.updateWordProgress env uid wordId isCorrect s
    (Db.updateWordProgress env uid wordId isCorrect s w)
  = Db.updateWordProgress env uid wordId isCorrect s w /\
  Db.markWordAsForgot env uid wordId (Db.markWordAsForgot env uid wordId w)
  = Db.markWordAsForgot env uid wordId w.
Proof.
  split.
  - unfold Db.updateWordProgress.
    destruct (Js.startsWith "local_" wordId); [by apply updateLocal_twice|].
    match goal with |- context [Db.updateDoc env uid wordId ?g w] =>
      destruct (Db.updateDoc env uid wordId g w) as [w1|e] eqn:Hu
    end.
    + assert (H2 := fun H => updateDoc_twice env uid wordId _ w w1 H Hu).
      by rewrite H2.
    + destruct (Db.code_truthy e) eqn:Hc.
      * rewrite (updateDoc_error_local _ _ _ _ _ _ _ Hu), Hc.
        by apply updateLocal_twice.
      * by rewrite Hu, Hc.
  - unfold Db.markWordAsForgot.
    destruct (Js.startsWith "local_" wordId); [by apply updateLocal_twice|].
    destruct (Db.updateDoc env uid wordId (fun x => set_isInFFL x true) w)
      as [w1|e] eqn:Hu.
    + assert (H2 := fun H => updateDoc_twice env uid wordId _ w w1 H Hu).
      by rewrite H2.
    + rewrite (updateDoc_error_local _ _ _ _ _ _ _ Hu).
      by apply updateLocal_twice.
Qed.

(** A review is lost without a trace, the store left as it was, when the
    word has a remote id and the remote update fails with an error that
    carries no code, and when the call falls back to a local list that
    does not hold the id. Marking a word as forgotten falls back on any
    remote failure, and is lost only in the second case. *)
Theorem lost_updates
    (env : Db.Env) (uid wordId : string) (isCorrect : bool) (s : Z) (w : Db.World) :
  (Js.startsWith "local_" wordId = false ->
   forall e, Db.updateDocError env = Some e -> Db.code_truthy e = false ->
     Db.updateWordProgress env uid wordId isCorrect s w = w /\
     Db.markWordAsForgot env uid wordId w
       = Db.updateLocal uid wordId (fun x => set_isInFFL x true) w) /\
  (Db.localWord w uid wordId = None ->
   (Db.usesLocal env uid wordId w ->
    Db.updateWordProgress env uid wordId isCorrect s w = w) /\
   (Db.forgotUsesLocal env uid wordId w ->
    Db.markWordAsForgot env uid wordId w = w)).
Proof.
  split.
  - intros Hp e He Hc. unfold Db.updateWordProgress, Db.markWordAsForgot, Db.updateDoc.
    by rewrite Hp, He, Hc.
  - intros Hn.
    assert (forall f, Db.updateLocal uid wordId f w = w) as Hnone.
    { intros f. unfold Db.updateLocal, Db.localWord in *.
      destruct (Js.findIndex (Db.has_id wordId) (Db.localWords w uid)) as [i|] eqn:Hi;
        [|done].
      destruct (findIndex_find _ _ _ Hi) as (x & _ & Hx & _). congruence. }
    split; intros Hu.
    + by rewrite updateWordProgress_usesLocal, Hnone.
    + by rewrite markWordAsForgot_usesLocal, Hnone.
Qed.

Lemma lost_updates_witness :
  let noCode := {| Db.code := None; Db.message := Some "Failed to fetch" |} in
  let env := {| Db.now := 1700000000000; Db.timeZone := Sample.dhaka;
                Db.serverNow := 1700000000123;
                Db.randomSuffix := "p0o9i8u7y"; Db.newDocId := "Zq3Lr8";
                Db.getDocsError := None; Db.addDocError := None;
                Db.updateDocError := Some noCode |} in
  Db.updateWordProgress env "u1" "w1" true 0 Sample.w_remote = Sample.w_remote /\
  Db.updateWordProgress Sample.offline "u1" "local_0_missing" true 0 Sample.w_local
    = Sample.w_local.
Proof.
  intros noCode env. split.
  - destruct (lost_updates env "u1" "w1" true 0 Sample.w_remote) as [H _].
    apply (H eq_refl noCode eq_refl eq_refl).
  - destruct (lost_updates Sample.offline "u1" "local_0_missing" true 0 Sample.w_local)
      as [_ H].
    apply H; [reflexivity|]. left. reflexivity.
Defined.

(** A correctly recalled word is due from the stored instant on and
    not before. That instant is the local time of the review, moved on by
    the days of the interval (1, 3, 7, 14, 30 or 90) and read back: the
    days of the interval times 24 hours after the review when the offset
    of the time zone is the same at both ends, an hour more or less
    across a change of daylight saving. The word is not due at the time of
    the review, the offset not having moved forward by the whole
    interval. *)
Theorem correct_recall_due_after_interval
    (env env' : Db.Env) (uid wordId : string) (s : Z) (w : Db.World) (x' : StoredWord) :
  Db.recordedAs env uid wordId w (Db.updateWordProgress env uid wordId true s w) x' ->
  let days := Srs.daysToAdd true s in
  let tz := Db.timeZone env in
  let local := Db.now env + Srs.offsetAt tz (Db.now env) + days * 86400000 in
  let due := local - Srs.offsetOf tz local in
  In days [1; 3; 7; 14; 30; 90] /\
  (Db.now env' < due -> Db.isDue env' x' = false) /\
  (due <= Db.now env' -> Db.isDue env' x' = true) /\
  (Srs.offsetOf tz local = Srs.offsetAt tz (Db.now env) ->
   due = Db.now env + days * 86400000) /\
  (Srs.offsetOf tz local - Srs.offsetAt tz (Db.now env) < days * 86400000 ->
   Db.isDue env x' = false).
Proof.
  intros Hrec days tz local due. apply recorded_progress in Hrec as [_ Hnext].
  assert (nextReviewAt x' = due) as Hdate by exact Hnext.
  assert (In days [1; 3; 7; 14; 30; 90]) as Hin.
  { unfold days. destruct (Z.lt_ge_cases s 0) as [Hneg|Hs].
    - left. unfold Srs.daysToAdd, Js.num_or, Js.index.
      rewrite newStage_true.
      assert ((Z.min (Z.min (s + 1) 6 - 1) (Srs.SRS_LENGTH - 1) <? 0) = true) as ->;
        [|reflexivity].
      apply Z.ltb_lt. unfold Srs.SRS_LENGTH. simpl. lia.
    - pose proof (daysToAdd_true s Hs) as Hidx.
      unfold Js.index in Hidx. destruct (_ <? 0); [discriminate|].
      by apply nth_error_In in Hidx. }
  unfold Db.isDue. rewrite Hdate.
  split; [exact Hin|]. split; [|split; [|split]].
  - intros H. by apply Z.leb_gt.
  - intros H. by apply Z.leb_le.
  - intros Hsame. unfold due. rewrite Hsame. unfold local. lia.
  - intros Hjump. apply Z.leb_gt. unfold due, local in *. lia.
Qed.

Lemma correct_recall_due_after_interval_witness :
  exists x',
    Db.recordedAs Sample.autumn "u1" "w1" Sample.w_remote
      (Db.updateWordProgress Sample.autumn "u1" "w1" true 2 Sample.w_remote) x' /\
    Srs.daysToAdd true 2 = 7 /\
    Db.isDue Sample.autumn x' = false /\
    nextReviewAt x' = Db.now Sample.autumn + 7 * 86400000 + 3600000.
Proof.
  destruct (progress_recorded Sample.autumn "u1" "w1" true 2 Sample.w_remote) as [x' Hx'].
  { left. split; [reflexivity|]. split; [reflexivity|].
    exists (Sample.stored Sample.apple "w1" 0). vm_compute. reflexivity. }
  exists x'. split; [exact Hx'|]. split; [reflexivity|].
  destruct (correct_recall_due_after_interval Sample.autumn Sample.autumn "u1" "w1" 2
              Sample.w_remote x' Hx') as (_ & _ & _ & _ & Hnot).
  split; [apply Hnot; vm_compute; reflexivity|].
  pose proof (recorded_progress _ _ _ _ _ _ _ Hx') as [_ ->]. reflexivity.
Defined.

(** ** The connection check *)

(** The connection check reports success exactly when the read, the
    write and the clean-up all went through. It never touches local
    storage or another user's collection; when the read or the write
    fails it writes nothing; and on success, the id of the test document
    being a fresh one, the user's collection is back to what it was. *)
Theorem verifyDbConnection_leaves_no_trace
    (env : Db.Env) (deleteDocError : option Db.JsError) (uid : string) (w : Db.World) :
  let w' := fst (DbCheck.verifyDbConnection env deleteDocError uid w) in
  let r := snd (DbCheck.verifyDbConnection env deleteDocError uid w) in
  (DbCheck.success r = true <->
   Db.getDocsError env = None /\ Db.addDocError env = None /\ deleteDocError = None) /\
  Db.localStorage w' = Db.localStorage w /\
  (forall uid', uid' <> uid -> Db.collection w' uid' = Db.collection w uid') /\
  (Db.getDocsError env <> None \/ Db.addDocError env <> None -> w' = w) /\
  (DbCheck.success r = true -> Db.remoteWord w uid (Db.newDocId env) = None ->
   Db.collection w' uid = Db.collection w uid).
Proof.
  unfold DbCheck.verifyDbConnection.
  destruct (Db.getDocsError env) as [e1|]; simpl.
  { repeat split; try done. by intros (H & _). }
  destruct (Db.addDocError env) as [e2|]; simpl.
  { repeat split; try done. by intros (_ & H & _). }
  destruct deleteDocError as [e3|]; simpl.
  - split; [split; [done|by intros (_ & _ & H)]|].
    split; [done|]. split; [intros uid' Hne; by apply collection_set_collection_ne|].
    split; [intros [H|H]; done|done].
  - split; [done|]. split; [done|]. split.
    { intros uid' Hne. by rewrite !collection_set_collection_ne. }
    split; [intros [H|H]; done|].
    intros _ Hfresh. rewrite !collection_set_collection.
    rewrite delete_insert_eq. by apply delete_id.
Qed.

(** When the read and the write go through and the clean-up fails, the
    check reports failure and leaves the test document behind: it then
    shows among the user's words, is due at once, and its word-text is
    '_CONNECTION_TEST_'. *)
Theorem verifyDbConnection_failed_cleanup
    (env env' : Db.Env) (e : Db.JsError) (uid : string) (w : Db.World) :
  Db.getDocsError env = None -> Db.addDocError env = None ->
  Db.getDocsError env' = None -> Db.now env <= Db.now env' ->
  let w' := fst (DbCheck.verifyDbConnection env (Some e) uid w) in
  let r := snd (DbCheck.verifyDbConnection env (Some e) uid w) in
  DbCheck.success r = false /\
  Db.remoteWord w' uid (Db.newDocId env) = Some (DbCheck.testDocData env uid) /\
  In (DbCheck.testDocData env uid) (Db.getUserWords env' uid w') /\
  In (DbCheck.testDocData env uid) (Db.getDueWords env' uid w') /\
  ~ In (DbCheck.testDocData env uid) (Db.getFFLWords env' uid w') /\
  word (details (DbCheck.testDocData env uid)) = "_CONNECTION_TEST_".
Proof.
  intros Hr Hw Hr' Hle. unfold DbCheck.verifyDbConnection. rewrite Hr, Hw. simpl.
  assert (Db.remoteWord
            (Db.set_collection w uid
               (<[Db.newDocId env := DbCheck.testDocData env uid]> (Db.collection w uid)))
            uid (Db.newDocId env) = Some (DbCheck.testDocData env uid)) as Hdoc.
  { unfold Db.remoteWord. by rewrite collection_set_collection, lookup_insert_eq. }
  assert (In (DbCheck.testDocData env uid)
            (Db.getUserWords env' uid
               (Db.set_collection w uid
                  (<[Db.newDocId env := DbCheck.testDocData env uid]>
                     (Db.collection w uid))))) as Hin.
  { unfold Db.getUserWords. rewrite Hr'.
    apply (docs_lookup _ uid (Db.newDocId env) (DbCheck.testDocData env uid)), Hdoc. }
  split; [done|]. split; [exact Hdoc|]. split; [exact Hin|]. split.
  - unfold Db.getDueWords. apply filter_In. split; [exact Hin|].
    unfold Db.isDue. simpl. by apply Z.leb_le.
  - split; [|done]. unfold Db.getFFLWords. rewrite filter_In. by intros [_ H].
Qed.

Lemma verifyDbConnection_failed_cleanup_witness :
  let w' := fst (DbCheck.verifyDbConnection Sample.online (Some Sample.unavailable)
                   "u1" Sample.w_remote) in
  Db.getDocsError Sample.online = None /\ Db.addDocError Sample.online = None /\
  In (DbCheck.testDocData Sample.online "u1") (Db.getDueWords Sample.online "u1" w').
Proof.
  split; [reflexivity|]. split; [reflexivity|].
  apply (verifyDbConnection_failed_cleanup Sample.online Sample.online Sample.unavailable
           "u1" Sample.w_remote eq_refl eq_refl eq_refl (Z.le_refl _)).
Defined.

(** ** Text-to-speech: every way a request ends *)

Section Outcomes.
Import Tts.
Variable api : nat -> Attempt.

Lemma retryDelay_allowed e n :
  isRetryable e = true -> (n < maxRetries e)%nat -> Retry.allowedDelay n (retryDelay e n).
Proof.
  unfold maxRetries, retryDelay, Retry.allowedDelay. destruct (isRateLimit e); intros _ Hn.
  - destruct n as [|[|[|n]]]; [| | |lia]; simpl; split; auto; lia.
  - destruct n as [|[|n]]; [| |lia]; simpl; split; auto; lia.
Qed.

(** One call of [makeRequest]: it ends after its request (with the audio
    of the answer when it returns one), or it waits and calls itself with
    the next retry count, which is then at most 3. *)
Lemma makeRequest_step fuel n :
  (exists res, makeRequest (S fuel) api n = Some ([Request], res) /\
     forall a, res = Returned a ->
       exists r, api n = Responds r /\ nonempty (audioData r) = Some a) \/
  ((n < 3)%nat /\ exists ms, Retry.allowedDelay n ms /\
     makeRequest (S fuel) api n =
     match makeRequest fuel api (S n) with
     | Some (tr, res) => Some (Request :: Sleep ms :: tr, res)
     | None => None
     end).
Proof.
  assert (forall e,
            (exists res,
               (if (isRetryable e && (n <? maxRetries e)%nat)%bool
                then match makeRequest fuel api (S n) with
                     | Some (tr, res) => Some (Request :: Sleep (retryDelay e n) :: tr, res)
                     | None => None
                     end
                else if isRateLimit e
                     then Some ([Request], Thrown (Error QUOTA_MESSAGE))
                     else Some ([Request],
                                Thrown (Error (match nonempty (message e) with
                                               | Some m => m
                                               | None => "TTS Service Unavailable"
                                               end))))
               = Some ([Request], res) /\
               forall a, res = Returned a ->
                 exists r, api n = Responds r /\ nonempty (audioData r) = Some a) \/
            ((n < 3)%nat /\ exists ms, Retry.allowedDelay n ms /\
               (if (isRetryable e && (n <? maxRetries e)%nat)%bool
                then match makeRequest fuel api (S n) with
                     | Some (tr, res) => Some (Request :: Sleep (retryDelay e n) :: tr, res)
                     | None => None
                     end
                else if isRateLimit e
                     then Some ([Request], Thrown (Error QUOTA_MESSAGE))
                     else Some ([Request],
                                Thrown (Error (match nonempty (message e) with
                                               | Some m => m
                                               | None => "TTS Service Unavailable"
                                               end))))
               = match makeRequest fuel api (S n) with
                 | Some (tr, res) => Some (Request :: Sleep ms :: tr, res)
                 | None => None
                 end)) as Hcatch.
  { intros e. destruct (isRetryable e) eqn:Hr; simpl.
    - destruct (n <? maxRetries e)%nat eqn:Hlt.
      + apply Nat.ltb_lt in Hlt. right. pose proof (maxRetries_le e). split; [lia|].
        exists (retryDelay e n). split; [by apply retryDelay_allowed|done].
      + left. destruct (isRateLimit e); eexists; (split; [reflexivity|discriminate]).
    - left. destruct (isRateLimit e); eexists; (split; [reflexivity|discriminate]). }
  simpl. destruct (api n) as [r|e] eqn:Ha; [|apply Hcatch].
  destruct (inspect r n) as [data| |e] eqn:Hi; [| |apply Hcatch].
  { left. eexists. split; [reflexivity|]. intros a [= <-]. exists r. split; [done|].
    unfold inspect in Hi. destruct (nonempty (audioData r)); [congruence|].
    destruct (nonempty (textRefusal r)); [discriminate|].
    destruct (nonempty (finishReason r)) as [reason|]; [|discriminate].
    destruct (String.eqb reason "STOP"); [discriminate|].
    destruct (String.eqb reason "OTHER" && (n <? 2)%nat)%bool; discriminate. }
  right. unfold inspect in Hi.
  destruct (nonempty (audioData r)); [discriminate|].
  destruct (nonempty (textRefusal r)); [discriminate|].
  destruct (nonempty (finishReason r)) as [reason|]; [|discriminate].
  destruct (String.eqb reason "STOP"); [discriminate|].
  destruct (n <? 2)%nat eqn:Hlt; [|rewrite andb_false_r in Hi; discriminate].
  apply Nat.ltb_lt in Hlt. split; [lia|].
  exists (1000 * (Z.of_nat n + 1)). split; [|done].
  unfold Retry.allowedDelay. destruct n as [|[|n]]; [| |lia]; simpl; split; auto; lia.
Qed.

(** The whole trace of [makeRequest] from retry count [n]: requests and
    waits alternate, and the waits add up to no more than what the
    doubling delays leave. *)
Lemma makeRequest_trace fuel n :
  (4 <= fuel + n)%nat -> (1 <= fuel)%nat ->
  exists tr res,
    makeRequest fuel api n = Some (tr, res) /\
    requests tr = S (List.length (sleeps tr)) /\
    Forall (fun ms => In ms [1000; 2000; 4000; 8000]) (sleeps tr) /\
    0 <= Retry.totalDelay tr <= Retry.budget n.
Proof.
  revert n. induction fuel as [|fuel IH]; intros n Hf H1; [lia|].
  destruct (makeRequest_step fuel n) as [(res & -> & _)|(Hn & ms & [Hin Hms] & ->)].
  - exists [Request], res. split; [done|]. split; [done|].
    split; [by constructor|].
    change (Retry.totalDelay [Request]) with 0.
    destruct n as [|[|[|n]]]; simpl; lia.
  - destruct (IH (S n)) as (tr & res & -> & Hreq & Hall & H0 & Hd); [lia|lia|].
    exists (Request :: Sleep ms :: tr), res. split; [done|].
    change (requests (Request :: Sleep ms :: tr)) with (S (requests tr)).
    change (sleeps (Request :: Sleep ms :: tr)) with (ms :: sleeps tr).
    change (Retry.totalDelay (Request :: Sleep ms :: tr))
      with (ms + Retry.totalDelay tr).
    split; [simpl; lia|]. split; [by constructor|].
    assert (0 <= ms) by (simpl in Hin; intuition lia).
    destruct n as [|[|[|n]]]; [| | |lia]; simpl in Hms, Hd |- *; lia.
Qed.

(** Audio that comes back is the audio of the answer to the last
    request. *)
Lemma makeRequest_returned fuel n tr a :
  makeRequest fuel api n = Some (tr, Returned a) ->
  exists m r, (n <= m)%nat /\ (m <= Nat.max n 3)%nat /\
              api m = Responds r /\ nonempty (audioData r) = Some a /\
              (requests tr + n = S m)%nat.
Proof.
  revert n tr. induction fuel as [|fuel IH]; intros n tr; [discriminate|].
  destruct (makeRequest_step fuel n) as [(res & -> & Hres)|(Hn & ms & _ & ->)].
  - intros [= <- ->]. destruct (Hres a eq_refl) as (r & Hr & Ha).
    exists n, r. repeat split; try done; lia.
  - destruct (makeRequest fuel api (S n)) as [[tr' res']|] eqn:Hrec; [|discriminate].
    intros [= <- ->]. destruct (IH (S n) tr' Hrec) as (m & r & Hle & Hm & Hr & Ha & Hq).
    exists m, r. unfold requests in *. simpl. repeat split; try done; lia.
Qed.

(** What the [catch] block does with an error that is retryable without
    being a rate limit: two retries, after 1 and 2 seconds. *)
Lemma makeRequest_transient fuel n e :
  api n = Fails e -> isRateLimit e = false -> isRetryable e = true ->
  makeRequest (S fuel) api n =
  if (n <? 2)%nat then
    match makeRequest fuel api (S n) with
    | Some (tr, res) => Some (Request :: Sleep (1000 * 2 ^ Z.of_nat n) :: tr, res)
    | None => None
    end
  else Some ([Request],
             Thrown (Error (match nonempty (message e) with
                            | Some m => m
                            | None => "TTS Service Unavailable"
                            end))).
Proof.
  intros Ha Hr Ht. simpl. rewrite Ha.
  unfold maxRetries, retryDelay. rewrite Hr, Ht. simpl.
  destruct (n <? 2)%nat; reflexivity.
Qed.

(** What [makeRequest] does with an answer that has no audio, no text
    and the finish reason OTHER. *)
Lemma makeRequest_other fuel n r :
  api n = Responds r ->
  nonempty (audioData r) = None -> nonempty (textRefusal r) = None ->
  finishReason r = Some "OTHER" ->
  makeRequest (S fuel) api n =
  if (n <? 2)%nat then
    match makeRequest fuel api (S n) with
    | Some (tr, res) => Some (Request :: Sleep (1000 * (Z.of_nat n + 1)) :: tr, res)
    | None => None
    end
  else Some ([Request], Thrown (Error Retry.OTHER_MESSAGE)).
Proof.
  intros Ha Hno Hnt Hfr.
  assert (inspect r n = if (n <? 2)%nat then RetryOther
                        else Throws (Error Retry.OTHER_MESSAGE)) as Hi.
  { unfold inspect. rewrite Hno, Hnt, Hfr. simpl. by destruct (n <? 2)%nat. }
  assert (isRetryable (Error Retry.OTHER_MESSAGE) = true) as Hret by reflexivity.
  assert (isRateLimit (Error Retry.OTHER_MESSAGE) = false) as Hrl by reflexivity.
  assert (nonempty (message (Error Retry.OTHER_MESSAGE)) = Some Retry.OTHER_MESSAGE) as Hmsg
    by reflexivity.
  assert (maxRetries (Error Retry.OTHER_MESSAGE) = 2%nat) as Hmax by reflexivity.
  cbn [makeRequest]. rewrite Ha, Hi.
  destruct (n <? 2)%nat eqn:Hlt; [reflexivity|].
  by rewrite Hret, Hmax, Hlt, Hrl, Hmsg.
Qed.

End Outcomes.

(** Whatever the speech service answers, [fetchTtsAudio] comes to an end
    with requests and waits in alternation: one wait less than requests,
    every wait 1, 2, 4 or 8 seconds long, and at most 14 seconds of
    waiting in total. *)
Theorem fetchTtsAudio_waiting_bounded {proto : Js.StringPrototype}
    (fuel : nat) (apiKey : option string) (api : nat -> Tts.Attempt) (text : string) :
  (4 <= fuel)%nat ->
  exists tr res,
    Tts.fetchTtsAudio fuel apiKey api text = Some (tr, res) /\
    (Tts.requests tr = 0%nat /\ Tts.sleeps tr = [] \/
     Tts.requests tr = S (List.length (Tts.sleeps tr))) /\
    Forall (fun ms => In ms [1000; 2000; 4000; 8000]) (Tts.sleeps tr) /\
    0 <= Retry.totalDelay tr <= 14000.
Proof.
  intros Hfuel. unfold Tts.fetchTtsAudio.
  destruct (Tts.nonempty apiKey).
  - destruct (String.eqb (Js.trim text) "").
    + eexists _, _. split; [reflexivity|]. split; [by left|]. split; [constructor|].
      unfold Retry.totalDelay. simpl. lia.
    + destruct (makeRequest_trace api fuel 0) as (tr & res & Hm & Hreq & Hall & Hd);
        [lia|lia|].
      exists tr, res. split; [exact Hm|]. split; [by right|]. split; [exact Hall|].
      exact Hd.
  - eexists _, _. split; [reflexivity|]. split; [by left|]. split; [constructor|].
    unfold Retry.totalDelay. simpl. lia.
Qed.

Lemma fetchTtsAudio_waiting_bounded_witness :
  exists tr res,
    Tts.fetchTtsAudio 4 (Some "key")
      (fun _ => Tts.Fails {| Tts.status := Tts.JNum 429; Tts.code := Tts.JUndefined;
                             Tts.message := None |}) "word"
      = Some (tr, res) /\
    Retry.totalDelay tr = 14000.
Proof.
  destruct (fetchTtsAudio_waiting_bounded 4 (Some "key")
              (fun _ => Tts.Fails {| Tts.status := Tts.JNum 429; Tts.code := Tts.JUndefined;
                                     Tts.message := None |}) "word" ltac:(lia))
    as (tr & res & Hr & _).
  exists tr, res. split; [exact Hr|].
  vm_compute in Hr. injection Hr as <- _. reflexivity.
Defined.

(** A failure that is retryable without being a rate limit (a server
    error 500 or 503, a message containing 'OTHER') is retried twice,
    after 1 and 2 seconds, and the third failure is rethrown with its
    message. An answer without audio whose finish reason is OTHER is
    retried twice as well, after 1 and 2 seconds, and the third one is
    thrown as 'Audio generation failed (Reason: OTHER)'. *)
Theorem fetchTtsAudio_transient_failures {proto : Js.StringPrototype}
    (fuel : nat) (apiKey : option string) (api : nat -> Tts.Attempt) (text : string) :
  (4 <= fuel)%nat -> Tts.nonempty apiKey <> None -> Js.trim text <> "" ->
  (forall e0 e1 e2,
     api 0%nat = Tts.Fails e0 -> api 1%nat = Tts.Fails e1 -> api 2%nat = Tts.Fails e2 ->
     (forall e, In e [e0; e1; e2] ->
        Tts.isRateLimit e = false /\ (Tts.isServer e = true \/ Tts.isOther e = true)) ->
     Tts.fetchTtsAudio fuel apiKey api text =
     Some ([Tts.Request; Tts.Sleep 1000; Tts.Request; Tts.Sleep 2000; Tts.Request],
           Tts.Thrown (Tts.Error (match Tts.nonempty (Tts.message e2) with
                                  | Some m => m
                                  | None => "TTS Service Unavailable"
                                  end)))) /\
  ((forall n, (n <= 2)%nat ->
      exists r, api n = Tts.Responds r /\ Tts.nonempty (Tts.audioData r) = None /\
                Tts.nonempty (Tts.textRefusal r) = None /\
                Tts.finishReason r = Some "OTHER") ->
   Tts.fetchTtsAudio fuel apiKey api text =
   Some ([Tts.Request; Tts.Sleep 1000; Tts.Request; Tts.Sleep 2000; Tts.Request],
         Tts.Thrown (Tts.Error "Audio generation failed (Reason: OTHER)"))).
Proof.
  intros Hfuel Hkey Htext.
  assert (Tts.fetchTtsAudio fuel apiKey api text = Tts.makeRequest 4 api 0) as ->.
  { unfold Tts.fetchTtsAudio. destruct (Tts.nonempty apiKey); [|done].
    destruct (String.eqb (Js.trim text) "") eqn:Heq;
      [by apply String.eqb_eq in Heq|].
    apply makeRequest_fuel; lia. }
  split.
  - intros e0 e1 e2 H0 H1 H2 Hall.
    assert (forall e, In e [e0; e1; e2] ->
              Tts.isRateLimit e = false /\ Tts.isRetryable e = true) as Hall'.
    { intros e He. destruct (Hall e He) as [Hr Hs]. split; [exact Hr|].
      unfold Tts.isRetryable. rewrite Hr. destruct Hs as [-> | ->]; simpl;
        [reflexivity|apply orb_true_r]. }
    destruct (Hall' e0) as [R0 T0]; [simpl; auto|].
    destruct (Hall' e1) as [R1 T1]; [simpl; auto|].
    destruct (Hall' e2) as [R2 T2]; [simpl; auto|].
    rewrite (makeRequest_transient api 3 0 e0 H0 R0 T0).
    rewrite (makeRequest_transient api 2 1 e1 H1 R1 T1).
    rewrite (makeRequest_transient api 1 2 e2 H2 R2 T2).
    reflexivity.
  - intros Hother.
    destruct (Hother 0%nat) as (r0 & H0 & A0 & X0 & F0); [lia|].
    destruct (Hother 1%nat) as (r1 & H1 & A1 & X1 & F1); [lia|].
    destruct (Hother 2%nat) as (r2 & H2 & A2 & X2 & F2); [lia|].
    rewrite (makeRequest_other api 3 0 r0 H0 A0 X0 F0).
    rewrite (makeRequest_other api 2 1 r1 H1 A1 X1 F1).
    rewrite (makeRequest_other api 1 2 r2 H2 A2 X2 F2).
    reflexivity.
Qed.

Lemma fetchTtsAudio_transient_failures_witness :
  let e503 := {| Tts.status := Tts.JNum 503; Tts.code := Tts.JUndefined;
                 Tts.message := Some "The model is overloaded." |} in
  let other := {| Tts.audioData := None; Tts.textRefusal := None;
                  Tts.finishReason := Some "OTHER" |} in
  Tts.fetchTtsAudio 4 (Some "key") (fun _ => Tts.Fails e503) "word" =
  Some ([Tts.Request; Tts.Sleep 1000; Tts.Request; Tts.Sleep 2000; Tts.Request],
        Tts.Thrown (Tts.Error "The model is overloaded.")) /\
  Tts.fetchTtsAudio 4 (Some "key") (fun _ => Tts.Responds other) "word" =
  Some ([Tts.Request; Tts.Sleep 1000; Tts.Request; Tts.Sleep 2000; Tts.Request],
        Tts.Thrown (Tts.Error "Audio generation failed (Reason: OTHER)")).
Proof.
  intros e503 other. split.
  - destruct (fetchTtsAudio_transient_failures 4 (Some "key") (fun _ => Tts.Fails e503)
                "word" ltac:(lia) ltac:(discriminate) ltac:(discriminate)) as [H _].
    apply (H e503 e503 e503 eq_refl eq_refl eq_refl).
    intros e [<-|[<-|[<-|[]]]]; (split; [reflexivity|left; reflexivity]).
  - destruct (fetchTtsAudio_transient_failures 4 (Some "key")
                (fun _ => Tts.Responds other)
                "word" ltac:(lia) ltac:(discriminate) ltac:(discriminate)) as [_ H].
    apply H. intros n _. exists other. repeat split.
Defined.

(** Audio that [fetchTtsAudio] returns is the audio of the answer to its
    last request, and that request is one of the first four. *)
Theorem fetchTtsAudio_returns_last_answer {proto : Js.StringPrototype}
    (fuel : nat) (apiKey : option string) (api : nat -> Tts.Attempt) (text : string)
    (tr : list Tts.Event) (a : string) :
  Tts.fetchTtsAudio fuel apiKey api text = Some (tr, Tts.Returned a) ->
  a <> "" /\
  exists n r, (n <= 3)%nat /\ Tts.requests tr = S n /\
              api n = Tts.Responds r /\ Tts.audioData r = Some a.
Proof.
  unfold Tts.fetchTtsAudio. destruct (Tts.nonempty apiKey); [|discriminate].
  destruct (String.eqb (Js.trim text) ""); [discriminate|].
  intros H. apply makeRequest_returned in H as (m & r & _ & Hm & Hr & Ha & Hq).
  unfold Tts.nonempty in Ha. destruct (Tts.audioData r) as [x|] eqn:Hx; [|discriminate].
  destruct (String.eqb x "") eqn:He; [discriminate|]. injection Ha as ->.
  split; [by apply String.eqb_neq|].
  exists m, r. repeat split; try done; lia.
Qed.

Lemma fetchTtsAudio_returns_last_answer_witness :
  let ok := {| Tts.audioData := Some "UklGRg=="; Tts.textRefusal := None;
               Tts.finishReason := Some "STOP" |} in
  let e500 := {| Tts.status := Tts.JNum 500; Tts.code := Tts.JUndefined;
                 Tts.message := None |} in
  let api := fun n => match n with
                      | 0%nat => Tts.Fails e500
                      | _ => Tts.Responds ok
                      end in
  Tts.fetchTtsAudio 4 (Some "key") api "word"
    = Some ([Tts.Request; Tts.Sleep 1000; Tts.Request], Tts.Returned "UklGRg==") /\
  exists n r, (n <= 3)%nat /\ api n = Tts.Responds r /\ Tts.audioData r = Some "UklGRg==".
Proof.
  intros ok e500 api. split; [reflexivity|].
  destruct (fetchTtsAudio_returns_last_answer (proto := AsciiText.host)
              4 (Some "key") api "word"
              [Tts.Request; Tts.Sleep 1000; Tts.Request] "UklGRg==" eq_refl)
    as (_ & n & r & Hn & _ & Hr & Ha).
  exists n, r. auto.
Defined.


(** [fetchTtsAudio] sends no request exactly when the API key is missing
    or nothing is left of the text once it is trimmed; it then throws
    'API_KEY is missing in environment variables.' or 'Text is empty', the
    missing key first. *)
Theorem fetchTtsAudio_sends_nothing_without_text {proto : Js.StringPrototype}
    (fuel : nat) (apiKey : option string) (api : nat -> Tts.Attempt) (text : string) :
  (4 <= fuel)%nat ->
  exists tr res,
    Tts.fetchTtsAudio fuel apiKey api text = Some (tr, res) /\
    (Tts.requests tr = 0%nat <-> Tts.nonempty apiKey = None \/ Js.trim text = "") /\
    (Tts.nonempty apiKey = None ->
     res = Tts.Thrown (Tts.Error "API_KEY is missing in environment variables.")) /\
    (Tts.nonempty apiKey <> None -> Js.trim text = "" ->
     res = Tts.Thrown (Tts.Error "Text is empty")).
Proof.
  intros Hfuel. unfold Tts.fetchTtsAudio.
  destruct (Tts.nonempty apiKey) as [k|].
  - destruct (String.eqb (Js.trim text) "") eqn:Heq.
    + apply String.eqb_eq in Heq.
      eexists _, _. split; [reflexivity|]. split; [split; auto|]. split; [done|done].
    + apply String.eqb_neq in Heq.
      destruct (makeRequest_trace api fuel 0) as (tr & res & Hm & Hreq & _); [lia|lia|].
      exists tr, res. split; [exact Hm|]. split.
      * split; [lia|]. intros [H|H]; [discriminate|done].
      * split; [done|]. by intros _ H.
  - eexists _, _. split; [reflexivity|]. split; [split; auto|]. split; [done|done].
Qed.

Lemma fetchTtsAudio_sends_nothing_without_text_witness :
  Tts.fetchTtsAudio 4 (Some "key") (fun _ => Tts.Responds
      {| Tts.audioData := Some "UklGRg=="; Tts.textRefusal := None;
         Tts.finishReason := None |}) "   "
  = Some ([], Tts.Thrown (Tts.Error "Text is empty")).
Proof.
  destruct (fetchTtsAudio_sends_nothing_without_text (proto := AsciiText.host)
              4 (Some "key")
              (fun _ => Tts.Responds
                 {| Tts.audioData := Some "UklGRg=="; Tts.textRefusal := None;
                    Tts.finishReason := None |}) "   " ltac:(lia))
    as (tr & res & Hr & Hreq & _ & Hres).
  rewrite Hr.
  rewrite (Hres ltac:(discriminate) eq_refl).
  destruct Hreq as [_ Hreq]. specialize (Hreq (or_intror eq_refl)).
  destruct tr as [|ev tr]; [reflexivity|].
  vm_compute in Hr. discriminate.
Defined.

(** What the first answer settles at once, with a single request and no
    wait: audio is returned; a text in place of audio is thrown as a
    refusal; an answer with neither audio nor text and no finish reason,
    or the finish reason STOP, is thrown as an empty response; a failure
    that is not retryable is rethrown with its message. *)
Theorem fetchTtsAudio_settled_by_first_answer {proto : Js.StringPrototype}
    (fuel : nat) (apiKey : option string) (api : nat -> Tts.Attempt) (text : string) :
  (1 <= fuel)%nat -> Tts.nonempty apiKey <> None -> Js.trim text <> "" ->
  (forall r a, api 0%nat = Tts.Responds r -> Tts.nonempty (Tts.audioData r) = Some a ->
     Tts.fetchTtsAudio fuel apiKey api text = Some ([Tts.Request], Tts.Returned a)) /\
  (forall r, api 0%nat = Tts.Responds r -> Tts.nonempty (Tts.audioData r) = None ->
     Tts.nonempty (Tts.textRefusal r) <> None ->
     Tts.fetchTtsAudio fuel apiKey api text =
     Some ([Tts.Request], Tts.Thrown (Tts.Error "Audio generation refused by model."))) /\
  (forall r, api 0%nat = Tts.Responds r -> Tts.nonempty (Tts.audioData r) = None ->
     Tts.nonempty (Tts.textRefusal r) = None ->
     Tts.nonempty (Tts.finishReason r) = None \/ Tts.finishReason r = Some "STOP" ->
     Tts.fetchTtsAudio fuel apiKey api text =
     Some ([Tts.Request],
           Tts.Thrown (Tts.Error "Failed to generate audio: Empty response"))) /\
  (forall e, api 0%nat = Tts.Fails e -> Tts.isRetryable e = false ->
     Tts.fetchTtsAudio fuel apiKey api text =
     Some ([Tts.Request],
           Tts.Thrown (Tts.Error (match Tts.nonempty (Tts.message e) with
                                  | Some m => m
                                  | None => "TTS Service Unavailable"
                                  end)))).
Proof.
  intros Hfuel Hkey Htext.
  assert (exists f, Tts.fetchTtsAudio fuel apiKey api text = Tts.makeRequest (S f) api 0)
    as [f ->].
  { unfold Tts.fetchTtsAudio. destruct (Tts.nonempty apiKey); [|done].
    destruct (String.eqb (Js.trim text) "") eqn:Heq;
      [by apply String.eqb_eq in Heq|].
    destruct fuel as [|f]; [lia|]. by exists f. }
  split; [|split; [|split]].
  - intros r a Hr Ha. cbn [Tts.makeRequest]. rewrite Hr. unfold Tts.inspect.
    by rewrite Ha.
  - intros r Hr Ha Hx. cbn [Tts.makeRequest]. rewrite Hr. unfold Tts.inspect.
    rewrite Ha. destruct (Tts.nonempty (Tts.textRefusal r)); [reflexivity|done].
  - intros r Hr Ha Hx Hf. cbn [Tts.makeRequest]. rewrite Hr. unfold Tts.inspect.
    rewrite Ha, Hx. destruct Hf as [-> | Hf]; [reflexivity|].
    rewrite Hf. reflexivity.
  - intros e He Hn. cbn [Tts.makeRequest]. rewrite He, Hn. simpl.
    assert (Tts.isRateLimit e = false) as ->; [|done].
    unfold Tts.isRetryable in Hn.
    destruct (Tts.isRateLimit e); [discriminate|done].
Qed.

Lemma fetchTtsAudio_settled_by_first_answer_witness :
  Tts.fetchTtsAudio 1 (Some "key")
    (fun _ => Tts.Responds {| Tts.audioData := None;
                              Tts.textRefusal := Some "I cannot pronounce this.";
                              Tts.finishReason := Some "STOP" |}) "word"
  = Some ([Tts.Request], Tts.Thrown (Tts.Error "Audio generation refused by model.")).
Proof.
  destruct (fetchTtsAudio_settled_by_first_answer 1 (Some "key")
              (fun _ => Tts.Responds {| Tts.audioData := None;
                                        Tts.textRefusal := Some "I cannot pronounce this.";
                                        Tts.finishReason := Some "STOP" |})
              "word" ltac:(lia) ltac:(discriminate) ltac:(discriminate))
    as (_ & H & _).
  apply (H _ eq_refl eq_refl). discriminate.
Defined.

(** ** Audio: what stays true in every run *)

Section AudioRuns.
Import Audio AudioInv.
Context {proto : Js.StringPrototype}.

Lemma tracked_playAudioBuffer buffer st :
  tracked st -> tracked (playAudioBuffer buffer st).
Proof.
  intros [Ha Hs]. split; unfold playAudioBuffer; cbn [activeSourceRef sounding created].
  - intros source [= <-]. apply elem_of_union_l. by apply elem_of_singleton.
  - intros source Hin. apply elem_of_union in Hin as [Hin|Hin].
    + apply elem_of_singleton in Hin. lia.
    + apply Hs in Hin. lia.
Qed.

Lemma tracked_finishPlay captured text buffer st :
  tracked st -> tracked (finishPlay captured text buffer st).
Proof.
  intros Ht. unfold finishPlay. destruct captured as [p|].
  - destruct (String.eqb p text); [by apply tracked_playAudioBuffer|done].
  - by apply tracked_playAudioBuffer.
Qed.

Lemma tracked_stopCurrentAudio st : tracked st -> tracked (stopCurrentAudio st).
Proof.
  intros [Ha Hs]. unfold stopCurrentAudio.
  destruct (activeSourceRef st) as [src|] eqn:Hsrc; split;
    cbn [activeSourceRef sounding created setPlayingWord]; try done.
  - intros source Hin. apply elem_of_difference in Hin as [Hin _]. by apply Hs.
  - intros source. rewrite Hsrc. done.
Qed.

Lemma tracked_step st ev : tracked st -> tracked (step st ev).
Proof.
  intros Ht. destruct ev as [text ctx|text ctx|i outcome|source]; simpl.
  - unfold prefetchAudio. destruct (String.eqb text ""); [done|].
    destruct (audioCache st !! cacheKey text); [done|]. by destruct ctx.
  - unfold playText. destruct (String.eqb text ""); [done|].
    pose proof (tracked_stopCurrentAudio st Ht) as Hs.
    destruct ctx; [|exact Hs].
    destruct (audioCache _ !! _); [|exact Hs].
    apply tracked_finishPlay. exact Hs.
  - unfold resume. destruct (pending st !! i) as [p|]; [|done].
    destruct (p_caller p), outcome as [buffer|]; try done.
    apply tracked_finishPlay. exact Ht.
  - destruct Ht as [Ha Hs]. unfold ended. case_decide as Hin; [|by split].
    case_decide as Hact; split; cbn [activeSourceRef sounding created]; try done.
    + intros s Hs'. apply elem_of_difference in Hs' as [Hs' _]. by apply Hs.
    + intros s Hs'. apply elem_of_difference. split; [by apply Ha|].
      intros Heq. apply elem_of_singleton in Heq. congruence.
    + intros s Hs'. apply elem_of_difference in Hs' as [Hs' _]. by apply Hs.
Qed.

End AudioRuns.

(** In every run of the component, whatever the order of calls,
    resumptions and sources ending, the source held in [activeSourceRef]
    is one that still sounds, and every source that sounds is one that
    was created. *)
Theorem active_source_always_sounds {proto : Js.StringPrototype} (evs : list Audio.Event) :
  AudioInv.tracked (Audio.run Audio.init evs).
Proof.
  assert (forall st, AudioInv.tracked st -> AudioInv.tracked (Audio.run st evs)) as H.
  { induction evs as [|ev evs IH]; intros st Ht; [exact Ht|].
    apply IH. by apply tracked_step. }
  apply H. split; intros source; simpl; [discriminate|].
  intros Hin. by apply not_elem_of_empty in Hin.
Qed.

Section AudioCalls.
Import Audio AudioInv.
Context {proto : Js.StringPrototype}.

Lemma playback_prefetchAudio text ctx st :
  playback (prefetchAudio text ctx st) = playback st.
Proof.
  unfold prefetchAudio. destruct (String.eqb text ""); [done|].
  destruct (audioCache st !! cacheKey text); [done|]. by destruct ctx.
Qed.

Lemma playback_resume_prefetch i outcome st p :
  pending st !! i = Some p -> p_caller p = Prefetch ->
  playback (resume i outcome st) = playback st.
Proof.
  intros Hp Hc. unfold resume. rewrite Hp, Hc. by destruct outcome.
Qed.

Lemma pending_prefetchAudio text ctx st :
  pending (prefetchAudio text ctx st) = pending st \/
  exists p, pending (prefetchAudio text ctx st) = (pending st ++ [p])%list /\
            p_caller p = Prefetch /\ p_text p = text /\ p_cacheKey p = cacheKey text /\
            text <> "" /\ audioCache st !! cacheKey text = None /\
            ttsCalls (prefetchAudio text ctx st) = (ttsCalls st ++ [text])%list /\
            audioCache (prefetchAudio text ctx st) = audioCache st.
Proof.
  unfold prefetchAudio. destruct (String.eqb text "") eqn:Ht; [by left|].
  apply String.eqb_neq in Ht.
  destruct (audioCache st !! cacheKey text) eqn:Hc; [by left|].
  destruct ctx; [|by left]. right. eexists. split; [reflexivity|]. done.
Qed.

Lemma awaitPrefetch_playback text ctx outcome st :
  playback (App.awaitPrefetch text ctx outcome st) = playback st.
Proof.
  unfold App.awaitPrefetch.
  destruct (pending_prefetchAudio text ctx st) as [Hp|(p & Hp & Hc & _)].
  - unfold resume. rewrite Hp.
    rewrite (lookup_ge_None_2 (pending st) (List.length (pending st))) by done.
    apply playback_prefetchAudio.
  - rewrite (playback_resume_prefetch _ _ _ p); [apply playback_prefetchAudio| |done].
    rewrite Hp. by rewrite lookup_app_r, Nat.sub_diag.
Qed.

End AudioCalls.

(** Prefetching never disturbs playback: neither the call, nor the
    resumption of a suspended prefetch, nor the whole background loop of a
    search changes the word shown as playing, the source held, or the
    sources that sound. *)
Theorem prefetch_leaves_playback_alone {proto : Js.StringPrototype}
    (tts : string -> option Audio.AudioBuffer) (text : string) (ctx : bool)
    (queue : list string) (st : Audio.State) :
  AudioInv.playback (Audio.prefetchAudio text ctx st) = AudioInv.playback st /\
  (forall i outcome p,
     Audio.pending st !! i = Some p -> Audio.p_caller p = Audio.Prefetch ->
     AudioInv.playback (Audio.resume i outcome st) = AudioInv.playback st) /\
  AudioInv.playback (App.prefetchLoop tts ctx queue st) = AudioInv.playback st.
Proof.
  split; [apply playback_prefetchAudio|]. split.
  - intros i outcome p. apply playback_resume_prefetch.
  - revert st. induction queue as [|t queue IH]; intros st; [done|].
    unfold App.prefetchLoop in *. simpl. rewrite IH. apply awaitPrefetch_playback.
Qed.

Section AudioPlay.
Import Audio AudioInv.
Context {proto : Js.StringPrototype}.

Lemma pending_finishPlay captured text buffer st :
  pending (finishPlay captured text buffer st) = pending st.
Proof.
  unfold finishPlay. destruct captured as [p|]; [|done].
  by destruct (String.eqb p text).
Qed.

(** [await playText (text)] with the audio at hand, cached or fetched:
    what is left is the end of [playText] run on the silenced state. *)
Lemma awaitPlay_finish text outcome st b :
  text <> "" ->
  audioCache st !! cacheKey text = Some b \/
  (audioCache st !! cacheKey text = None /\ outcome = Some b) ->
  exists st2,
    App.awaitPlay text true outcome st = finishPlay (playingWord st) text b st2 /\
    playingWord st2 = Some text /\
    activeSourceRef st2 = None /\
    created st2 = created st /\
    sounding st2 = sounding (stopCurrentAudio st).
Proof.
  intros Hne Hb. apply String.eqb_neq in Hne.
  unfold App.awaitPlay, playText. rewrite Hne.
  rewrite audioCache_setPlayingWord, audioCache_stopCurrentAudio.
  assert (activeSourceRef (stopCurrentAudio st) = None) as Hnone.
  { unfold stopCurrentAudio. by destruct (activeSourceRef st) eqn:Ha. }
  assert (created (stopCurrentAudio st) = created st) as Hcr.
  { unfold stopCurrentAudio. by destruct (activeSourceRef st). }
  destruct Hb as [Hb|[Hb ->]]; rewrite Hb.
  - exists (setPlayingWord (Some text) (stopCurrentAudio st)). split; [|done].
    unfold resume. rewrite pending_finishPlay.
    cbn [pending setPlayingWord]. rewrite pending_stopCurrentAudio.
    by rewrite (lookup_ge_None_2 (pending st) (List.length (pending st))).
  - set (p := {| p_caller := Play; p_text := text; p_cacheKey := cacheKey text;
                 p_playingWord := playingWord st |}).
    set (st2 := setPlayingWord (Some text) (stopCurrentAudio st)).
    assert (pending st2 = pending st) as Hp by apply pending_stopCurrentAudio.
    unfold resume.
    assert (pending (suspend p st2) !! List.length (pending st) = Some p) as ->.
    { cbn [pending suspend]. rewrite Hp. by rewrite lookup_app_r, Nat.sub_diag. }
    cbn [p_caller p p_playingWord p_text p_cacheKey].
    eexists. split; [reflexivity|]. done.
Qed.

End AudioPlay.

(** With the audio at hand (cached, or fetched without a failure), a
    [playText] that runs to its end starts a source only when no word, or
    the requested word itself, was shown as playing at the call. Asked
    for another word than the one shown as playing, it stops the current
    audio and starts nothing, and the requested word is left shown as
    playing with no source that could end and clear it. *)
Theorem playText_starts_only_for_shown_word {proto : Js.StringPrototype}
    (text : string) (outcome : option Audio.AudioBuffer) (st : Audio.State)
    (b : Audio.AudioBuffer) :
  text <> "" ->
  Audio.audioCache st !! Audio.cacheKey text = Some b \/
  (Audio.audioCache st !! Audio.cacheKey text = None /\ outcome = Some b) ->
  let st' := App.awaitPlay text true outcome st in
  Audio.playingWord st' = Some text /\
  (Audio.playingWord st = None \/ Audio.playingWord st = Some text ->
   Audio.activeSourceRef st' = Some (Audio.created st) /\
   Audio.created st' = S (Audio.created st) /\
   Audio.sounding st' = {[Audio.created st]} ∪ Audio.sounding (Audio.stopCurrentAudio st)) /\
  (forall p, Audio.playingWord st = Some p -> p <> text ->
   Audio.activeSourceRef st' = None /\
   Audio.created st' = Audio.created st /\
   Audio.sounding st' = Audio.sounding (Audio.stopCurrentAudio st)).
Proof.
  intros Hne Hb st'.
  destruct (awaitPlay_finish text outcome st b Hne Hb) as (st2 & Heq & Hpw & Ha & Hc & Hs).
  subst st'. rewrite Heq. unfold Audio.finishPlay.
  destruct (Audio.playingWord st) as [p|] eqn:Hp.
  - destruct (String.eqb p text) eqn:Hpt.
    + apply String.eqb_eq in Hpt. subst p.
      split; [exact Hpw|]. split.
      * intros _. unfold Audio.playAudioBuffer. simpl. by rewrite Hc, Hs.
      * intros p' [= <-] Hn. done.
    + apply String.eqb_neq in Hpt.
      split; [exact Hpw|]. split.
      * intros [H|[= H]]; [discriminate|done].
      * intros p' [= <-] _. done.
  - split; [exact Hpw|]. split.
    + intros _. unfold Audio.playAudioBuffer. simpl. by rewrite Hc, Hs.
    + intros p' H. discriminate.
Qed.

Lemma playText_starts_only_for_shown_word_witness :
  let b := {| Audio.payload := "UklGRg==" |} in
  let playing := App.awaitPlay "apple" true (Some b) Audio.init in
  let other := App.awaitPlay "pear" true (Some b) playing in
  Audio.activeSourceRef playing = Some 0%nat /\
  Audio.playingWord playing = Some "apple" /\
  Audio.activeSourceRef other = None /\
  Audio.created other = 1%nat /\
  Audio.playingWord other = Some "pear".
Proof.
  intros b playing other.
  destruct (playText_starts_only_for_shown_word "pear" (Some b) playing b
              ltac:(discriminate) ltac:(right; split; reflexivity))
    as (Hpw & _ & Hstale).
  destruct (Hstale "apple" eq_refl ltac:(discriminate)) as (Ha & Hc & _).
  split; [reflexivity|]. split; [reflexivity|].
  split; [exact Ha|]. split; [exact Hc|exact Hpw].
Defined.

Section AudioAccount.
Import Audio AudioInv.
Context {proto : Js.StringPrototype}.

Lemma accountedFor_more st st' :
  accountedFor st ->
  audioCache st' = audioCache st -> pending st' = pending st ->
  (forall t, In t (ttsCalls st) -> In t (ttsCalls st')) ->
  accountedFor st'.
Proof.
  intros [Hc Hp] Ec Ep Ht. split.
  - intros k b. rewrite Ec. intros Hk. destruct (Hc k b Hk) as (t & Hin & He & Hn).
    exists t. auto.
  - intros p. rewrite Ep. intros Hin. destruct (Hp p Hin) as (H1 & H2 & H3). auto.
Qed.

Lemma accountedFor_suspend p st :
  accountedFor st -> p_cacheKey p = cacheKey (p_text p) -> p_text p <> "" ->
  accountedFor (suspend p st).
Proof.
  intros [Hc Hp] Hk Hn. split; cbn [audioCache ttsCalls pending suspend].
  - intros k b Hkb. destruct (Hc k b Hkb) as (t & Hin & He & Hne).
    exists t. split; [apply in_or_app; by left|done].
  - intros q Hq. apply in_app_or in Hq as [Hq|[<-|[]]].
    + destruct (Hp q Hq) as (H1 & H2 & H3). split; [apply in_or_app; by left|done].
    + split; [apply in_or_app; right; by left|done].
Qed.

Lemma accountedFor_same st st' :
  accountedFor st -> audioCache st' = audioCache st -> pending st' = pending st ->
  ttsCalls st' = ttsCalls st -> accountedFor st'.
Proof.
  intros H Ec Ep Et. apply (accountedFor_more st st' H Ec Ep). by rewrite Et.
Qed.

Lemma accountedFor_step st ev : accountedFor st -> accountedFor (step st ev).
Proof.
  intros Hacc. destruct ev as [text ctx|text ctx|i outcome|source]; simpl.
  - unfold prefetchAudio. destruct (String.eqb text "") eqn:Ht; [done|].
    apply String.eqb_neq in Ht.
    destruct (audioCache st !! cacheKey text); [done|]. destruct ctx; [|done].
    by apply accountedFor_suspend.
  - unfold playText. destruct (String.eqb text "") eqn:Ht; [done|].
    apply String.eqb_neq in Ht.
    assert (accountedFor (setPlayingWord (Some text) (stopCurrentAudio st))) as Hs.
    { apply (accountedFor_same st); [done| | |].
      - by rewrite audioCache_setPlayingWord, audioCache_stopCurrentAudio.
      - apply pending_stopCurrentAudio.
      - apply ttsCalls_stopCurrentAudio. }
    destruct ctx; [|exact Hs].
    destruct (audioCache _ !! _).
    + apply (accountedFor_same _ _ Hs).
      * apply audioCache_finishPlay.
      * apply pending_finishPlay.
      * apply ttsCalls_finishPlay.
    + by apply accountedFor_suspend.
  - unfold resume. destruct (pending st !! i) as [p|] eqn:Hp; [|done].
    destruct Hacc as [Hc Hq].
    assert (In p (pending st)) as Hin by (apply list_elem_of_In; by eapply list_elem_of_lookup_2).
    destruct (Hq p Hin) as (Hcall & Hkey & Hne).
    assert (forall q, In q (delete i (pending st)) -> In q (pending st)) as Hsub.
    { intros q Hq'. apply list_elem_of_In in Hq'. apply list_elem_of_In.
      by apply (list_elem_of_delete_inv q i). }
    assert (accountedFor (dropPending i st)) as Hdrop.
    { split; [exact Hc|]. intros q Hq'. apply Hq. by apply Hsub. }
    assert (forall b, accountedFor (cacheSet (p_cacheKey p) b (dropPending i st))) as Hset.
    { intros b. split; cbn [audioCache ttsCalls pending cacheSet dropPending].
      - intros k b'. rewrite lookup_insert. case_decide as Hk.
        + intros _. exists (p_text p). subst k. auto.
        + apply Hc.
      - intros q Hq'. apply Hq. by apply Hsub. }
    destruct (p_caller p), outcome as [buffer|]; try done.
    apply (accountedFor_same _ _ (Hset buffer)).
    + apply audioCache_finishPlay.
    + apply pending_finishPlay.
    + apply ttsCalls_finishPlay.
  - unfold ended. repeat case_decide; (apply (accountedFor_same st); done).
Qed.

End AudioAccount.

(** In every run of the component, each cache entry sits under the
    trimmed and lowercased form of a non-empty text that was handed to
    the speech service, and each call still waiting for its audio will
    store it under the trimmed and lowercased form of its own text. *)
Theorem cache_entries_come_from_requests {proto : Js.StringPrototype}
    (evs : list Audio.Event) :
  let st := Audio.run Audio.init evs in
  (forall k b, Audio.audioCache st !! k = Some b ->
     exists t, In t (Audio.ttsCalls st) /\ t <> "" /\
               k = Js.toLowerCase (Js.trim t)) /\
  (forall p, In p (Audio.pending st) ->
     In (Audio.p_text p) (Audio.ttsCalls st) /\ Audio.p_text p <> "" /\
     Audio.p_cacheKey p = Js.toLowerCase (Js.trim (Audio.p_text p))) /\
  AudioInv.accountedFor st.
Proof.
  intros st.
  assert (AudioInv.accountedFor st) as [Hcache Hpend].
  { assert (forall st0, AudioInv.accountedFor st0 ->
                        AudioInv.accountedFor (Audio.run st0 evs)) as H.
    { induction evs as [|ev evs IH]; intros st0 Ht; [exact Ht|].
      apply IH. by apply accountedFor_step. }
    apply H. split.
    - intros k b. simpl. by rewrite lookup_empty.
    - intros p []. }
  split; [|split; [|by split]].
  - intros k b Hk. destruct (Hcache k b Hk) as (t & Hin & Hkey & Hne).
    exists t. auto.
  - intros p Hp. destruct (Hpend p Hp) as (Hin & Hkey & Hne). auto.
Qed.

Section AudioTurns.
Import Audio AudioInv.
Context {proto : Js.StringPrototype}.

Lemma singleSource_playback st st' :
  playback st' = playback st -> singleSource st -> singleSource st'.
Proof.
  unfold playback. intros [= _ Ha Hs _] H source. rewrite Hs, Ha. apply H.
Qed.

Lemma delete_out_of_range {A} (l : list A) (i : nat) :
  (List.length l <= i)%nat -> delete i l = l.
Proof.
  revert i. induction l as [|a l IH]; intros [|i] Hi; simpl in *; try done; [lia|].
  f_equal. apply IH. lia.
Qed.

Lemma pending_resume i outcome st :
  pending (resume i outcome st) = delete i (pending st).
Proof.
  unfold resume. destruct (pending st !! i) as [p|] eqn:Hp.
  - destruct (p_caller p), outcome as [b|]; try done.
    by rewrite pending_finishPlay.
  - symmetry. apply delete_out_of_range. by apply lookup_ge_None.
Qed.

Lemma pending_playText text ctx st :
  pending (playText text ctx st) = pending st \/
  exists p, pending (playText text ctx st) = (pending st ++ [p])%list.
Proof.
  unfold playText. destruct (String.eqb text ""); [by left|].
  destruct ctx; [|left; apply pending_stopCurrentAudio].
  destruct (audioCache _ !! _).
  - left. rewrite pending_finishPlay. apply pending_stopCurrentAudio.
  - right. eexists. cbn [pending suspend setPlayingWord].
    by rewrite pending_stopCurrentAudio.
Qed.

Lemma delete_last_snoc {A} (l : list A) (x : A) :
  delete (List.length l) (l ++ [x])%list = l.
Proof. induction l as [|a l IH]; simpl; [done|]. by rewrite IH. Qed.

Lemma await_pending_prefetch text ctx outcome st :
  pending (App.awaitPrefetch text ctx outcome st) = pending st.
Proof.
  unfold App.awaitPrefetch. rewrite pending_resume.
  destruct (pending_prefetchAudio text ctx st) as [->|(p & -> & _)].
  - by apply delete_out_of_range.
  - apply delete_last_snoc.
Qed.

Lemma await_pending_play text ctx outcome st :
  pending (App.awaitPlay text ctx outcome st) = pending st.
Proof.
  unfold App.awaitPlay. rewrite pending_resume.
  destruct (pending_playText text ctx st) as [->|(p & ->)].
  - by apply delete_out_of_range.
  - apply delete_last_snoc.
Qed.

(** A [playText] that runs to its end with nothing in between leaves at
    most one source sounding. *)
Lemma awaitPlay_singleSource text ctx outcome st :
  singleSource st -> singleSource (App.awaitPlay text ctx outcome st).
Proof.
  intros Hs. unfold App.awaitPlay.
  destruct (String.eqb text "") eqn:Ht.
  { unfold playText. rewrite Ht. unfold resume.
    by rewrite (lookup_ge_None_2 (pending st) (List.length (pending st))). }
  destruct (stopCurrentAudio_silent st Hs) as [He Ha].
  unfold playText. rewrite Ht. destruct ctx.
  - destruct (audioCache _ !! _) eqn:Hc.
    + unfold resume. rewrite pending_finishPlay.
      cbn [pending setPlayingWord]. rewrite pending_stopCurrentAudio.
      rewrite (lookup_ge_None_2 (pending st) (List.length (pending st))) by done.
      by apply finishPlay_singleSource.
    + by apply resume_singleSource_silent.
  - by apply resume_singleSource_silent.
Qed.

Lemma turn_singleSource st t : singleSource st -> singleSource (turn st t).
Proof.
  intros Hs. destruct t as [text ctx outcome|text ctx outcome|source]; simpl.
  - by apply awaitPlay_singleSource.
  - apply (singleSource_playback st); [apply awaitPrefetch_playback|done].
  - by apply ended_singleSource.
Qed.

Lemma turn_pending st t : pending (turn st t) = pending st.
Proof.
  destruct t as [text ctx outcome|text ctx outcome|source]; simpl.
  - apply await_pending_play.
  - apply await_pending_prefetch.
  - unfold ended. repeat case_decide; done.
Qed.

End AudioTurns.

(** When the calls do not overlap, each [playText] and [prefetchAudio]
    running to its end before the next thing happens, at most one audio
    source sounds at any time, and no call is left waiting. *)
Theorem one_source_when_calls_do_not_overlap {proto : Js.StringPrototype} (ts : list AudioInv.Turn) :
  Audio.singleSource (AudioInv.turns Audio.init ts) /\
  (size (Audio.sounding (AudioInv.turns Audio.init ts)) <= 1)%nat /\
  Audio.pending (AudioInv.turns Audio.init ts) = [].
Proof.
  assert (forall st, Audio.singleSource st -> Audio.pending st = [] ->
            Audio.singleSource (AudioInv.turns st ts) /\
            Audio.pending (AudioInv.turns st ts) = []) as H.
  { induction ts as [|t ts IH]; intros st Hs Hp; [done|].
    apply IH; [by apply turn_singleSource|]. by rewrite turn_pending. }
  destruct (H Audio.init) as [Hs Hp]; [|done|].
  { intros source Hin. simpl in Hin. by apply not_elem_of_empty in Hin. }
  split; [exact Hs|]. split; [by apply singleSource_size|exact Hp].
Qed.

Section PrefetchLoop.
Import Audio AudioInv.
Context {proto : Js.StringPrototype}.

(** One awaited prefetch: what it adds to the cache and to the calls of
    the speech service. *)
Lemma awaitPrefetch_effect text outcome st :
  let st' := App.awaitPrefetch text true outcome st in
  (forall k, is_Some (audioCache st !! k) -> is_Some (audioCache st' !! k)) /\
  (text <> "" -> outcome <> None -> is_Some (audioCache st' !! cacheKey text)) /\
  (ttsCalls st' = ttsCalls st \/
   (ttsCalls st' = (ttsCalls st ++ [text])%list /\
    audioCache st !! cacheKey text = None)).
Proof.
  intros st'. subst st'. unfold App.awaitPrefetch.
  destruct (pending_prefetchAudio text true st)
    as [Hp|(p & Hp & Hc & Ht & Hk & Hne & Hmiss & Hcalls & Hcache)].
  - assert (resume (List.length (pending st)) outcome (prefetchAudio text true st)
            = prefetchAudio text true st) as ->.
    { unfold resume. rewrite Hp.
      by rewrite (lookup_ge_None_2 (pending st) (List.length (pending st))). }
    unfold prefetchAudio in *. destruct (String.eqb text "") eqn:Hte.
    + split; [done|]. split; [|by left]. intros Hn. by apply String.eqb_eq in Hte.
    + destruct (audioCache st !! cacheKey text) eqn:Hhit.
      * split; [done|]. split; [eauto|by left].
      * exfalso. cbn [pending suspend] in Hp.
        apply (f_equal List.length) in Hp. rewrite length_app in Hp. simpl in Hp. lia.
  - unfold resume.
    assert (pending (prefetchAudio text true st) !! List.length (pending st) = Some p) as ->.
    { rewrite Hp. by rewrite lookup_app_r, Nat.sub_diag. }
    rewrite Hc. destruct outcome as [b|].
    + cbn [audioCache ttsCalls cacheSet dropPending]. rewrite Hcache, Hcalls, Hk.
      split.
      { intros k Hk'. rewrite lookup_insert. case_decide; [eauto|done]. }
      split; [intros _ _; rewrite lookup_insert_eq; eauto|].
      right. done.
    + cbn [audioCache ttsCalls dropPending]. rewrite Hcache, Hcalls.
      split; [done|]. split; [done|]. right. done.
Qed.

(** The background loop over a queue. *)
Lemma prefetchLoop_effect tts queue st :
  let st' := App.prefetchLoop tts true queue st in
  (forall k, is_Some (audioCache st !! k) -> is_Some (audioCache st' !! k)) /\
  (forall t, In t queue -> t <> "" -> tts t <> None ->
     is_Some (audioCache st' !! cacheKey t)) /\
  exists extra,
    ttsCalls st' = (ttsCalls st ++ extra)%list /\
    (List.length extra <= List.length queue)%nat /\
    (forall t, In t extra -> In t queue /\ audioCache st !! cacheKey t = None) /\
    ((forall t, In t queue -> tts t <> None) -> NoDup (List.map cacheKey extra)).
Proof.
  revert st. induction queue as [|t queue IH]; intros st st'.
  - subst st'. simpl. split; [done|]. split; [by intros t []|].
    exists []. rewrite app_nil_r. split; [done|]. split; [done|].
    split; [by intros t []|]. intros _. constructor.
  - subst st'. unfold App.prefetchLoop. simpl.
    fold (App.prefetchLoop tts true queue (App.awaitPrefetch t true (tts t) st)).
    destruct (awaitPrefetch_effect t (tts t) st) as (Hmono1 & Hhit1 & Hcalls1).
    destruct (IH (App.awaitPrefetch t true (tts t) st))
      as (Hmono & Hhit & extra & Hcalls & Hlen & Hfrom & Hnodup).
    split; [auto|]. split.
    { intros t' [<-|Hin] Hne Hok; [apply Hmono; by apply Hhit1|by apply Hhit]. }
    assert (forall x, In x extra -> audioCache st !! cacheKey x = None) as Hmiss.
    { intros x Hx. destruct (Hfrom x Hx) as [_ Hn].
      destruct (audioCache st !! cacheKey x) eqn:Hc; [|done].
      destruct (Hmono1 (cacheKey x)) as [b' Hb']; [eauto|]. congruence. }
    destruct Hcalls1 as [Hsame|[Hadd Hmiss1]].
    + exists extra. rewrite Hcalls, Hsame. split; [done|]. split; [simpl; lia|].
      split.
      { intros x Hx. destruct (Hfrom x Hx). split; [by right|by apply Hmiss]. }
      intros Hok. apply Hnodup. intros x Hx. apply Hok. by right.
    + exists (t :: extra). rewrite Hcalls, Hadd, <- app_assoc. split; [done|].
      split; [simpl; lia|]. split.
      { intros x [<-|Hx]; [split; [by left|done]|].
        destruct (Hfrom x Hx). split; [by right|by apply Hmiss]. }
      intros Hok. simpl. constructor.
      * intros Hin. apply list_elem_of_In, in_map_iff in Hin as (x & Hkx & Hx).
        destruct (Hfrom x Hx) as [_ Hn].
        assert (tts t <> None) as Hokt by (apply Hok; by left).
        assert (t <> "") as Hne.
        { intros ->. unfold App.awaitPrefetch, prefetchAudio in Hadd. simpl in Hadd.
          unfold resume in Hadd.
          rewrite (lookup_ge_None_2 (pending st) (List.length (pending st))) in Hadd by done.
          apply (f_equal List.length) in Hadd. rewrite length_app in Hadd.
          simpl in Hadd. lia. }
        destruct (Hhit1 Hne Hokt) as [b Hb]. rewrite Hkx in Hn. congruence.
      * apply Hnodup. intros x Hx. apply Hok. by right.
Qed.

Lemma toPrefetch_length result queue :
  App.toPrefetch result = Some queue ->
  (List.length queue <= 9)%nat /\ exists rest, queue = word result :: rest.
Proof.
  unfold App.toPrefetch. destruct (antonyms result) as [ants|]; [|discriminate].
  intros [= <-]. split; [|eauto]. simpl. rewrite !length_app.
  pose proof (firstn_le_length 3 (synonyms result)).
  pose proof (firstn_le_length 3 ants).
  pose proof (firstn_le_length 2 (collocations result)).
  pose proof (length_firstn 3 (synonyms result)).
  pose proof (length_firstn 3 ants).
  pose proof (length_firstn 2 (collocations result)).
  lia.
Qed.

End PrefetchLoop.

(** When the analysis carries its antonyms, the background prefetch
    after a search calls [fetchTtsAudio] at most nine times (each call
    sending up to four requests), never for a text whose audio is cached
    already under that text trimmed and lowercased, and, when no fetch
    fails, only once for texts that are equal once trimmed and
    lowercased. Afterwards the word and the queued synonyms, antonyms
    and collocations that were fetched are cached, so playing one of
    them needs no further fetch. *)
Theorem search_prefetch_is_bounded {proto : Js.StringPrototype}
    (tts : string -> option Audio.AudioBuffer) (result : WordDetails)
    (queue : list string) (st : Audio.State) :
  App.toPrefetch result = Some queue ->
  let st' := App.prefetchLoop tts true queue st in
  let key := fun t => Js.toLowerCase (Js.trim t) in
  In (word result) queue /\
  (forall t, In t queue -> t <> "" -> tts t <> None ->
     is_Some (Audio.audioCache st' !! key t) /\
     forall ctx, Audio.ttsCalls (Audio.playText t ctx st') = Audio.ttsCalls st') /\
  exists extra,
    Audio.ttsCalls st' = (Audio.ttsCalls st ++ extra)%list /\
    (List.length extra <= 9)%nat /\
    (forall t, In t extra -> In t queue /\ Audio.audioCache st !! key t = None) /\
    ((forall t, In t queue -> tts t <> None) -> NoDup (List.map key extra)).
Proof.
  intros Hqueue st' key.
  destruct (toPrefetch_length result queue Hqueue) as [Hlen [rest ->]].
  destruct (prefetchLoop_effect tts (word result :: rest) st)
    as (_ & Hhit & extra & Hc & Hl & Hf & Hn).
  split; [by left|]. split.
  - intros t Hin Hne Hok. destruct (Hhit t Hin Hne Hok) as [b Hb].
    split; [exists b; exact Hb|]. intros ctx.
    destruct (playText_ttsCalls t ctx st') as [H|[_ H]]; [exact H|].
    subst st'. congruence.
  - exists extra. split; [exact Hc|]. split; [lia|]. split; [exact Hf|exact Hn].
Qed.

Lemma search_prefetch_is_bounded_witness :
  let b := {| Audio.payload := "UklGRg==" |} in
  let queue := ["apple"; "pome"; "apple pie"] in
  App.toPrefetch Sample.apple = Some queue /\
  exists extra,
    Audio.ttsCalls (App.prefetchLoop (fun _ => Some b) true queue Audio.init) = extra /\
    (List.length extra <= 9)%nat /\
    NoDup (List.map (fun t => Js.toLowerCase (Js.trim t)) extra).
Proof.
  intros b queue. split; [reflexivity|].
  destruct (search_prefetch_is_bounded (proto := AsciiText.host) (fun _ => Some b)
              Sample.apple queue Audio.init eq_refl)
    as (_ & _ & extra & Hc & Hl & _ & Hn).
  exists extra. split; [exact Hc|]. split; [exact Hl|].
  apply Hn. intros t _. discriminate.
Defined.

(** ** PCM decoding *)

Section Pcm.
Import AudioUtils.

Lemma pair_induction {A} (P : list A -> Prop) :
  P [] -> (forall a, P [a]) -> (forall a b l, P l -> P (a :: b :: l)) ->
  forall l, P l.
Proof.
  intros H0 H1 H2 l.
  assert (P l /\ forall a, P (a :: l)) as [H _]; [|exact H].
  induction l as [|x l [IHl IHx]]; [by split|].
  split; [apply IHx|]. intros a. by apply H2.
Qed.

Lemma int16Array_spec (bs : list Z) :
  (forall b, In b bs -> 0 <= b < 256) ->
  match int16Array bs with
  | None => Nat.odd (List.length bs) = true
  | Some vs =>
      List.length bs = (2 * List.length vs)%nat /\
      forall v, In v vs -> -32768 <= v <= 32767
  end.
Proof.
  induction bs as [| a | lo hi l IH] using pair_induction; intros Hb.
  - simpl. split; [done|]. intros v [].
  - reflexivity.
  - simpl int16Array.
    assert (forall b, In b l -> 0 <= b < 256) as Hl by (intros b Hin; apply Hb; simpl; auto).
    specialize (IH Hl). destruct (int16Array l) as [vs|].
    + destruct IH as [Hlen Hvs]. split; [simpl; lia|].
      intros v [<-|Hin]; [|by apply Hvs].
      pose proof (Hb lo ltac:(simpl; auto)). pose proof (Hb hi ltac:(simpl; auto)).
      unfold toInt16. destruct (lo + 256 * hi <? 32768) eqn:Hlt.
      * apply Z.ltb_lt in Hlt. lia.
      * apply Z.ltb_ge in Hlt. lia.
    + exact IH.
Qed.

Lemma bytes_range s b : In b (bytes s) -> 0 <= b < 256.
Proof.
  unfold bytes. intros Hin. apply in_map_iff in Hin as (c & <- & _).
  pose proof (nat_ascii_bounded c). lia.
Qed.

Lemma bytes_length s : List.length (bytes s) = String.length s.
Proof.
  unfold bytes. rewrite length_map.
  induction s as [|c s IH]; simpl; [done|]. by rewrite IH.
Qed.

End Pcm.

(** Decoding the PCM bytes fails with a RangeError exactly when their
    number is odd and with a NotSupportedError exactly when there are
    none; otherwise it gives one channel with one sample for every two
    bytes, at the rate asked for, and every sample lies between -1
    inclusive and 1 exclusive. *)
Theorem decodeAudioData_outcome (binaryString : string) (sampleRate : Z) :
  let n := String.length binaryString in
  (AudioUtils.decodeAudioData binaryString sampleRate = AudioUtils.RangeError <->
   Nat.odd n = true) /\
  (AudioUtils.decodeAudioData binaryString sampleRate = AudioUtils.NotSupportedError <->
   n = 0%nat) /\
  (Nat.odd n = false -> n <> 0%nat ->
   exists b,
     AudioUtils.decodeAudioData binaryString sampleRate = AudioUtils.Buffer b /\
     AudioUtils.numberOfChannels b = 1%nat /\
     AudioUtils.sampleRate b = sampleRate /\
     n = (2 * AudioUtils.length b)%nat /\
     List.length (AudioUtils.channelData b) = AudioUtils.length b /\
     forall q, In q (AudioUtils.channelData b) ->
       QArith_base.Qle (QArith_base.Qmake (-1) 1) q /\
       QArith_base.Qlt q (QArith_base.Qmake 1 1)).
Proof.
  intros n. subst n. unfold AudioUtils.decodeAudioData.
  pose proof (int16Array_spec (AudioUtils.bytes binaryString)
                (bytes_range binaryString)) as Hspec.
  rewrite bytes_length in Hspec.
  destruct (AudioUtils.int16Array (AudioUtils.bytes binaryString)) as [vs|].
  - destruct Hspec as [Hlen Hvs].
    assert (Nat.odd (String.length binaryString) = false) as Heven.
    { rewrite Hlen. rewrite Nat.odd_mul. reflexivity. }
    destruct vs as [|v vs].
    + simpl in Hlen. split; [split; [discriminate|congruence]|].
      split; [done|]. intros _ H. done.
    + split; [split; [discriminate|congruence]|].
      split; [split; [discriminate|simpl in Hlen; lia]|].
      intros _ _. eexists. split; [reflexivity|]. simpl.
      split; [done|]. split; [done|]. split; [simpl in Hlen; lia|].
      split; [by rewrite length_map|].
      intros q [<-|Hin].
      * pose proof (Hvs v ltac:(simpl; auto)).
        unfold QArith_base.Qle, QArith_base.Qlt. simpl. lia.
      * apply in_map_iff in Hin as (v' & <- & Hv').
        pose proof (Hvs v' ltac:(simpl; auto)).
        unfold QArith_base.Qle, QArith_base.Qlt. simpl. lia.
  - split; [done|]. split.
    + split; [discriminate|]. intros H0. rewrite H0 in Hspec. discriminate.
    + intros H. congruence.
Qed.

Lemma decodeAudioData_outcome_witness :
  exists b,
    AudioUtils.decodeAudioData
      (String (ascii_of_nat 0) (String (ascii_of_nat 128)
         (String (ascii_of_nat 255) (String (ascii_of_nat 127) EmptyString))))
      AudioUtils.DEFAULT_SAMPLE_RATE = AudioUtils.Buffer b /\
    AudioUtils.channelData b
      = [QArith_base.Qmake (-32768) 32768; QArith_base.Qmake 32767 32768] /\
    AudioUtils.length b = 2%nat.
Proof.
  destruct (decodeAudioData_outcome
              (String (ascii_of_nat 0) (String (ascii_of_nat 128)
                 (String (ascii_of_nat 255) (String (ascii_of_nat 127) EmptyString))))
              AudioUtils.DEFAULT_SAMPLE_RATE) as (_ & _ & H).
  destruct (H eq_refl ltac:(discriminate)) as (b & Hb & _).
  exists b. split; [exact Hb|].
  vm_compute in Hb. injection Hb as <-. split; reflexivity.
Defined.

(** ** Mind map *)

Section Quotes.
Import MindMap.

Lemma dropTrailingQuote_snoc s :
  dropTrailingQuote (s ++ String quote EmptyString) = s.
Proof.
  induction s as [|c s IH]; [reflexivity|].
  change (String c s ++ String quote EmptyString)
    with (String c (s ++ String quote EmptyString)).
  simpl. rewrite IH.
  destruct (s ++ String quote EmptyString) eqn:Hs; [|done].
  destruct s; discriminate.
Qed.

End Quotes.

(** A click on the example node plays the example sentence itself: the
    quotes the node adds around it are stripped again, whatever the
    sentence contains. *)
Theorem example_node_plays_the_sentence (data : WordDetails) (s : string) :
  MindMap.stripQuotes (String MindMap.quote (s ++ String MindMap.quote EmptyString)) = s /\
  (forall t, MindMap.nodeTexts data !! 2%nat = Some t ->
             MindMap.handleNodeClick t = example data) /\
  List.length (MindMap.nodeTexts data) = 5%nat.
Proof.
  assert (forall x, MindMap.stripQuotes
                      (String MindMap.quote (x ++ String MindMap.quote EmptyString)) = x)
    as Hstrip.
  { intros x. unfold MindMap.stripQuotes. simpl. apply dropTrailingQuote_snoc. }
  split; [apply Hstrip|]. split; [|reflexivity].
  intros t [= <-]. apply Hstrip.
Qed.

(** ** Search and save *)

Section SaveUi.
Import App.

Lemma alreadySaved_error : alreadySaved (Db.Error Db.ALREADY_SAVED) = true.
Proof. reflexivity. Qed.

(** The word is already in the list the save consults. *)
Lemma save_of_duplicate env uid d w :
  (Db.getDocsError env = None /\
   exists k x, Db.remoteWord w uid k = Some x /\ word (details x) = word d) \/
  (exists e x, snd (Db.saveRemote env uid d w) = Db.Thrown e /\
               Db.isFirestoreError e = true /\
               In x (Db.localWords w uid) /\ word (details x) = word d) ->
  Db.saveWordToProfile env uid d w = (w, Db.Thrown (Db.Error Db.ALREADY_SAVED)).
Proof.
  intros [(He & k & x & Hx & Hw)|(e & x & Hr & Hfs & Hin & Hw)].
  - by apply (saveWordToProfile_remote_duplicate env uid d w k x).
  - by apply (saveWordToProfile_local_duplicate env uid d w e x).
Qed.

End SaveUi.

(** The save button and the auto-save of a search write exactly what
    [saveWordToProfile] writes, and show the word as saved when the save
    went through or the word was saved before. A word that is already in
    the list the save consults is shown as saved, nothing is written and
    nothing is alerted; any other failure of the button leaves the mark as
    it was and alerts the error's message. *)
Theorem save_button_shows_saved
    (env : Db.Env) (uid : string) (st : App.SearchState) (d : WordDetails) (w : Db.World) :
  App.data st = Some d ->
  let r := App.handleSaveWord env (Some uid) st w in
  fst (fst r) = fst (Db.saveWordToProfile env uid d w) /\
  ((Db.getDocsError env = None /\
    exists k x, Db.remoteWord w uid k = Some x /\ word (details x) = word d) \/
   (exists e x, snd (Db.saveRemote env uid d w) = Db.Thrown e /\
                Db.isFirestoreError e = true /\
                In x (Db.localWords w uid) /\ word (details x) = word d) ->
   r = (w, App.set_isSaved st true, [])) /\
  (forall b, snd (Db.saveWordToProfile env uid d w) = Db.Returned b ->
   snd (fst r) = App.set_isSaved st true /\ snd r = []) /\
  (forall e, snd (Db.saveWordToProfile env uid d w) = Db.Thrown e ->
   App.alreadySaved e = false ->
   r = (w, st, [match Tts.nonempty (Db.message e) with
                | Some m => m
                | None => "Failed to save word"
                end])).
Proof.
  intros Hd r. subst r. unfold App.handleSaveWord. rewrite Hd.
  split; [|split; [|split]].
  - destruct (Db.saveWordToProfile env uid d w) as [w' [b|e]]; [done|].
    by destruct (App.alreadySaved e).
  - intros Hdup. by rewrite (save_of_duplicate env uid d w Hdup), alreadySaved_error.
  - intros b. destruct (Db.saveWordToProfile env uid d w) as [w' [b'|e]]; [done|].
    discriminate.
  - intros e. destruct (Db.saveWordToProfile env uid d w) as [w' [b'|e']] eqn:Hs;
      [discriminate|].
    simpl. intros [= ->] Hn. rewrite Hn.
    by rewrite (saveWordToProfile_thrown env uid d w w' e Hs).
Qed.

Lemma save_button_shows_saved_witness :
  let st := {| App.searchTerm := "apple"; App.data := Some Sample.apple;
               App.loading := false; App.error := None; App.isSaved := false |} in
  App.handleSaveWord Sample.online (Some "u1") st Sample.w_remote
    = (Sample.w_remote, App.set_isSaved st true, []).
Proof.
  intros st.
  destruct (save_button_shows_saved Sample.online "u1" st Sample.apple Sample.w_remote
              eq_refl) as (_ & H & _).
  apply H. left. split; [reflexivity|].
  exists "w1", (Sample.stored Sample.apple "w1" 0).
  split; [vm_compute; reflexivity|reflexivity].
Defined.

(** A search whose term is empty once trimmed does nothing at all. A
    search whose analysis fails writes nothing, shows no word, queues
    nothing for prefetching and shows 'Could not find definition. ...'. A
    search that finds a word shows it and writes what the auto-save
    writes: nothing for a signed-out user, and nothing for a word that is
    already in the list the save consults, which is shown as saved. When
    the analysis carries its antonyms no error is shown and the word is
    queued for prefetching ahead of at most eight related texts. When it
    leaves them out, building the queue throws after the word was shown
    and saved: the not-found error is shown beside the word and nothing
    is queued. The search never leaves the loading flag on. *)
Theorem search_outcomes {proto : Js.StringPrototype}
    (env : Db.Env) (user : option string) (analysis : option WordDetails)
    (st : App.SearchState) (w : Db.World) :
  let r := App.handleSearch env user analysis st w in
  (Js.trim (App.searchTerm st) = "" -> r = (w, st, [])) /\
  (Js.trim (App.searchTerm st) <> "" ->
   App.loading (snd (fst r)) = false /\
   App.data (snd (fst r)) = analysis /\
   (analysis = None ->
    fst (fst r) = w /\ snd r = [] /\ App.isSaved (snd (fst r)) = false /\
    App.error (snd (fst r)) = Some App.NOT_FOUND) /\
   (forall d, analysis = Some d ->
    (forall ants, antonyms d = Some ants ->
     App.error (snd (fst r)) = None /\
     exists rest, snd r = word d :: rest /\ (List.length rest <= 8)%nat) /\
    (antonyms d = None ->
     App.error (snd (fst r)) = Some App.NOT_FOUND /\ snd r = []) /\
    (user = None -> fst (fst r) = w /\ App.isSaved (snd (fst r)) = false) /\
    (forall uid, user = Some uid ->
     fst (fst r) = fst (Db.saveWordToProfile env uid d w) /\
     ((Db.getDocsError env = None /\
       exists k x, Db.remoteWord w uid k = Some x /\ word (details x) = word d) \/
      (exists e x, snd (Db.saveRemote env uid d w) = Db.Thrown e /\
                   Db.isFirestoreError e = true /\
                   In x (Db.localWords w uid) /\ word (details x) = word d) ->
      fst (fst r) = w /\ App.isSaved (snd (fst r)) = true)))).
Proof.
  intros r. subst r. unfold App.handleSearch. split.
  - intros Hsp. by rewrite Hsp.
  - intros Hne. apply String.eqb_neq in Hne. rewrite Hne.
    destruct analysis as [d|]; [|repeat split; done].
    assert (forall ants, antonyms d = Some ants ->
              exists rest, App.toPrefetch d = Some (word d :: rest) /\
                           (List.length rest <= 8)%nat) as Hqueue.
    { intros ants Ha.
      destruct (App.toPrefetch d) as [queue|] eqn:Hq;
        [|unfold App.toPrefetch in Hq; rewrite Ha in Hq; discriminate].
      destruct (toPrefetch_length d queue Hq) as [Hlen [rest ->]].
      exists rest. split; [done|]. simpl in Hlen. lia. }
    assert (antonyms d = None -> App.toPrefetch d = None) as Hnone.
    { intros Ha. unfold App.toPrefetch. by rewrite Ha. }
    set (saved := match user with
                  | Some uid =>
                      match Db.saveWordToProfile env uid d w with
                      | (w', Db.Returned _) => (w', true)
                      | (w', Db.Thrown saveErr) => (w', App.alreadySaved saveErr)
                      end
                  | None => (w, false)
                  end).
    assert (user = None -> saved = (w, false)) as Hout
      by (intros ->; reflexivity).
    assert (forall uid, user = Some uid ->
              fst saved = fst (Db.saveWordToProfile env uid d w) /\
              ((Db.getDocsError env = None /\
                exists k x, Db.remoteWord w uid k = Some x /\
                            word (details x) = word d) \/
               (exists e x, snd (Db.saveRemote env uid d w) = Db.Thrown e /\
                            Db.isFirestoreError e = true /\
                            In x (Db.localWords w uid) /\ word (details x) = word d) ->
               saved = (w, true))) as Hin.
    { intros uid ->. unfold saved. split.
      - by destruct (Db.saveWordToProfile env uid d w) as [w' [b|e]].
      - intros Hdup. by rewrite (save_of_duplicate env uid d w Hdup). }
    clearbody saved. destruct saved as [w' sv].
    destruct (antonyms d) as [ants|] eqn:Ha.
    + destruct (Hqueue ants eq_refl) as (rest & -> & Hlen). simpl.
      split; [done|]. split; [done|]. split; [done|].
      intros d' [= <-]. rewrite Ha. split.
      { intros ants' _. split; [done|]. by exists rest. }
      split; [done|]. split.
      { intros Hu. by injection (Hout Hu) as -> ->. }
      intros uid Hu. destruct (Hin uid Hu) as [Hw Hdup]. split; [exact Hw|].
      intros H. by injection (Hdup H) as -> ->.
    + rewrite (Hnone eq_refl). simpl.
      split; [done|]. split; [done|]. split; [done|].
      intros d' [= <-]. rewrite Ha. split; [done|]. split; [done|]. split.
      { intros Hu. by injection (Hout Hu) as -> ->. }
      intros uid Hu. destruct (Hin uid Hu) as [Hw Hdup]. split; [exact Hw|].
      intros H. by injection (Hdup H) as -> ->.
Qed.

(** An analysis without antonyms: the word is shown and saved, and the
    not-found error is shown beside it. *)
Example search_without_antonyms :
  let st := {| App.searchTerm := "quince"; App.data := None;
               App.loading := false; App.error := None; App.isSaved := false |} in
  exists w',
    App.handleSearch Sample.online (Some "u1") (Some Sample.quince) st Sample.w_remote
    = (w', {| App.searchTerm := "quince"; App.data := Some Sample.quince;
              App.loading := false; App.error := Some App.NOT_FOUND;
              App.isSaved := true |}, []) /\
    exists x, Db.remoteWord w' "u1" "Zq3Lr8" = Some x /\ details x = Sample.quince.
Proof.
  intros st. eexists. split; [vm_compute; reflexivity|].
  eexists. split; [vm_compute; reflexivity|reflexivity].
Qed.

(** ** Review sessions *)

Section Sessions.
Import Session.

Lemma index_nat {A} (l : list A) (i : nat) : Js.index l (Z.of_nat i) = l !! i.
Proof.
  unfold Js.index. assert ((Z.of_nat i <? 0) = false) as -> by (apply Z.ltb_ge; lia).
  rewrite Nat2Z.id. revert i. induction l as [|a l IH]; intros [|i]; simpl; auto.
Qed.

Lemma skipn_cons_lookup {A} (l : list A) (i : nat) (x : A) :
  l !! i = Some x -> skipn i l = x :: skipn (S i) l.
Proof.
  revert i. induction l as [|a l IH]; intros [|i]; simpl; try done.
  - by intros [= ->].
  - apply IH.
Qed.

Lemma firstn_S_skipn {A} (l : list A) (i k : nat) :
  (firstn 1 (skipn i l) ++ firstn k (skipn (S i) l))%list = firstn (S k) (skipn i l).
Proof.
  destruct (l !! i) as [x|] eqn:Hx.
  - by rewrite (skipn_cons_lookup l i x Hx).
  - apply lookup_ge_None in Hx. rewrite !skipn_all2 by lia. by destruct k.
Qed.

(** The word handed to [onPrefetch] with card [i] on screen. *)
Lemma prefetchAhead_spec (ws : list StoredWord) (i : nat) :
  Quiz.prefetchAhead ws (Z.of_nat i)
  = List.map (fun x => word (details x)) (firstn 1 (skipn (i + 2) ws)).
Proof.
  unfold Quiz.prefetchAhead.
  replace (Z.of_nat i + 2) with (Z.of_nat (i + 2)) by lia.
  rewrite index_nat.
  destruct (Z.of_nat (i + 2) <? Z.of_nat (List.length ws)) eqn:H2.
  - apply Z.ltb_lt in H2.
    destruct (ws !! (i + 2)%nat) as [x|] eqn:Hx.
    + by rewrite (skipn_cons_lookup ws (i + 2) x Hx).
    + apply lookup_ge_None in Hx. lia.
  - apply Z.ltb_ge in H2. rewrite skipn_all2 by lia. done.
Qed.

Lemma paced_cons env a rest :
  paced ((env, a) :: rest) = Answer env a :: TimerFires :: paced rest.
Proof. reflexivity. Qed.

Lemma quiz_render_card q i card :
  Quiz.currentIndex q = Z.of_nat i -> Quiz.words q !! i = Some card ->
  Quiz.isComplete q = false -> Quiz.render q = Quiz.Card card.
Proof.
  intros Hi Hcard Hc. unfold Quiz.render.
  assert (Nat.eqb (List.length (Quiz.words q)) 0 = false) as ->.
  { apply Nat.eqb_neq. apply lookup_lt_Some in Hcard. lia. }
  by rewrite Hc, Hi, index_nat, Hcard.
Qed.

(** An answer with card [i] on screen. *)
Lemma handleResult_card env uid mode q a w i card :
  Quiz.currentIndex q = Z.of_nat i -> Quiz.words q !! i = Some card ->
  Quiz.handleResult env uid mode q a w =
  Some (quizWrite uid mode w (card, (env, a)),
        (if (S i <? List.length (Quiz.words q))%nat
         then {| Quiz.words := Quiz.words q; Quiz.currentIndex := Z.of_nat i;
                 Quiz.isFlipped := false; Quiz.isComplete := Quiz.isComplete q;
                 Quiz.timers := S (Quiz.timers q) |}
         else {| Quiz.words := Quiz.words q; Quiz.currentIndex := Z.of_nat i;
                 Quiz.isFlipped := Quiz.isFlipped q; Quiz.isComplete := true;
                 Quiz.timers := Quiz.timers q |}),
        if (S i <? List.length (Quiz.words q))%nat
        then List.map (fun x => word (details x)) (firstn 1 (skipn (i + 2) (Quiz.words q)))
        else []).
Proof.
  intros Hi Hcard. unfold Quiz.handleResult. rewrite Hi, index_nat, Hcard.
  assert (match mode with
          | Quiz.due =>
              Some (Db.updateWordProgress env uid (id card) a (srsStage card) w)
          | Quiz.ffl => Some w
          end = Some (quizWrite uid mode w (card, (env, a)))) as ->
    by (by destruct mode).
  destruct (S i <? List.length (Quiz.words q))%nat eqn:Hnext.
  - apply Nat.ltb_lt in Hnext.
    assert ((Z.of_nat i <? Z.of_nat (List.length (Quiz.words q)) - 1) = true) as ->
      by (apply Z.ltb_lt; lia).
    by rewrite prefetchAhead_spec.
  - apply Nat.ltb_ge in Hnext.
    assert ((Z.of_nat i <? Z.of_nat (List.length (Quiz.words q)) - 1) = false) as ->
      by (apply Z.ltb_ge; lia).
    done.
Qed.

(** Once the quiz is complete and no timer is left, nothing happens any
    more. *)
Lemma quiz_done uid mode answers q w :
  Quiz.isComplete q = true -> Quiz.timers q = 0%nat ->
  quiz uid mode (paced answers) q w = Some (w, q, []).
Proof.
  intros Hc Ht. induction answers as [|[env a] rest IH]; [done|].
  rewrite paced_cons. cbn [quiz quizStep].
  assert (Quiz.render q = Quiz.NoWords \/ Quiz.render q = Quiz.Complete) as Hr.
  { unfold Quiz.render. destruct (Nat.eqb _ _); [by left|]. rewrite Hc. by right. }
  assert (Quiz.timerFires q = q) as Htf by (unfold Quiz.timerFires; by rewrite Ht).
  destruct Hr as [Hr|Hr]; rewrite Hr; cbn [quiz quizStep]; by rewrite Htf, IH.
Qed.

(** A paced quiz session from card [i] on. *)
Lemma quiz_from uid mode answers :
  forall (q : Quiz.QuizState) (w : Db.World) (i : nat),
    Quiz.currentIndex q = Z.of_nat i -> (i < List.length (Quiz.words q))%nat ->
    Quiz.isComplete q = false -> Quiz.timers q = 0%nat ->
    exists q',
      quiz uid mode (paced answers) q w =
      Some (fold_left (quizWrite uid mode) (combine (skipn i (Quiz.words q)) answers) w,
            q',
            List.map (fun x => word (details x))
              (firstn (List.length answers) (skipn (i + 2) (Quiz.words q)))) /\
      Quiz.words q' = Quiz.words q /\
      Quiz.currentIndex q'
        = Z.of_nat (Nat.min (i + List.length answers) (List.length (Quiz.words q) - 1)) /\
      Quiz.isComplete q' = (List.length (Quiz.words q) <=? i + List.length answers)%nat /\
      Quiz.timers q' = 0%nat.
Proof.
  induction answers as [|[env a] rest IH]; intros q w i Hi Hlt Hc Ht.
  - exists q. simpl. rewrite combine_nil. simpl.
    split; [done|]. split; [done|]. split; [rewrite Hi; f_equal; lia|].
    split; [|done]. rewrite Hc. symmetry. apply Nat.leb_gt. lia.
  - destruct (Quiz.words q !! i) as [card|] eqn:Hcard;
      [|apply lookup_ge_None in Hcard; lia].
    rewrite paced_cons. cbn [quiz quizStep].
    rewrite (quiz_render_card q i card Hi Hcard Hc).
    rewrite (handleResult_card env uid mode q a w i card Hi Hcard).
    rewrite (skipn_cons_lookup _ _ _ Hcard). cbn [combine fold_left].
    destruct (S i <? List.length (Quiz.words q))%nat eqn:Hnext.
    + apply Nat.ltb_lt in Hnext.
      unfold Quiz.timerFires. cbn [Quiz.timers]. rewrite Ht.
      cbn [Quiz.words Quiz.currentIndex Quiz.isFlipped Quiz.isComplete].
      set (q1 := {| Quiz.words := Quiz.words q; Quiz.currentIndex := Z.of_nat i + 1;
                    Quiz.isFlipped := false; Quiz.isComplete := Quiz.isComplete q;
                    Quiz.timers := 0 |}).
      destruct (IH q1 (quizWrite uid mode w (card, (env, a))) (S i))
        as (q' & Hq & Hwords & Hidx & Hcomp & Htim);
        [cbn; lia|done|done|done|].
      exists q'. split.
      * rewrite Hq. cbn [Quiz.words q1]. do 3 f_equal.
        rewrite app_nil_l, <- List.map_app. f_equal.
        replace (S i + 2)%nat with (S (i + 2)) by lia.
        apply firstn_S_skipn.
      * cbn [Quiz.words q1] in *. split; [done|]. split.
        { rewrite Hidx. simpl List.length. f_equal. lia. }
        split; [|done]. rewrite Hcomp. simpl List.length. f_equal. lia.
    + apply Nat.ltb_ge in Hnext.
      set (q1 := {| Quiz.words := Quiz.words q; Quiz.currentIndex := Z.of_nat i;
                    Quiz.isFlipped := Quiz.isFlipped q; Quiz.isComplete := true;
                    Quiz.timers := Quiz.timers q |}).
      assert (Quiz.timerFires q1 = q1) as ->
        by (unfold Quiz.timerFires; cbn [Quiz.timers q1]; by rewrite Ht).
      rewrite (quiz_done uid mode rest q1) by done.
      exists q1. split.
      * rewrite !skipn_all2 by lia. rewrite combine_nil_l || idtac.
        by destruct rest.
      * cbn [Quiz.words Quiz.currentIndex Quiz.isComplete Quiz.timers q1].
        split; [done|]. split; [f_equal; simpl List.length; lia|].
        split; [|done]. symmetry. apply Nat.leb_le. simpl List.length. lia.
Qed.

End Sessions.

Section ExamSessions.
Import Session.

Lemma exam_render_card e i card :
  Exam.currentIndex e = Z.of_nat i -> Exam.words e !! i = Some card ->
  Exam.isComplete e = false -> Exam.render e = Quiz.Card card.
Proof.
  intros Hi Hcard Hc. unfold Exam.render.
  assert (Nat.eqb (List.length (Exam.words e)) 0 = false) as ->.
  { apply Nat.eqb_neq. apply lookup_lt_Some in Hcard. lia. }
  by rewrite Hc, Hi, index_nat, Hcard.
Qed.

Lemma handleNext_card env uid e a w i card :
  Exam.currentIndex e = Z.of_nat i -> Exam.words e !! i = Some card ->
  Exam.handleNext env uid e a w =
  Some (examWrite uid w (card, (env, a)),
        (if (S i <? List.length (Exam.words e))%nat
         then {| Exam.words := Exam.words e; Exam.currentIndex := Z.of_nat i;
                 Exam.isFlipped := false; Exam.isComplete := Exam.isComplete e;
                 Exam.forgotCount := if a then Exam.forgotCount e + 1
                                     else Exam.forgotCount e;
                 Exam.timers := S (Exam.timers e) |}
         else {| Exam.words := Exam.words e; Exam.currentIndex := Z.of_nat i;
                 Exam.isFlipped := Exam.isFlipped e; Exam.isComplete := true;
                 Exam.forgotCount := if a then Exam.forgotCount e + 1
                                     else Exam.forgotCount e;
                 Exam.timers := Exam.timers e |}),
        if (S i <? List.length (Exam.words e))%nat
        then List.map (fun x => word (details x)) (firstn 1 (skipn (i + 2) (Exam.words e)))
        else []).
Proof.
  intros Hi Hcard. unfold Exam.handleNext. rewrite Hi, index_nat, Hcard.
  assert ((if a then Some (Db.markWordAsForgot env uid (id card) w) else Some w)
          = Some (examWrite uid w (card, (env, a)))) as ->
    by (unfold examWrite; by destruct a).
  destruct (S i <? List.length (Exam.words e))%nat eqn:Hnext.
  - apply Nat.ltb_lt in Hnext.
    assert ((Z.of_nat i <? Z.of_nat (List.length (Exam.words e)) - 1) = true) as ->
      by (apply Z.ltb_lt; lia).
    by rewrite prefetchAhead_spec.
  - apply Nat.ltb_ge in Hnext.
    assert ((Z.of_nat i <? Z.of_nat (List.length (Exam.words e)) - 1) = false) as ->
      by (apply Z.ltb_ge; lia).
    done.
Qed.

Lemma exam_done uid answers e w :
  Exam.isComplete e = true -> Exam.timers e = 0%nat ->
  exam uid (paced answers) e w = Some (w, e, []).
Proof.
  intros Hc Ht. induction answers as [|[env a] rest IH]; [done|].
  rewrite paced_cons. cbn [exam examStep].
  assert (Exam.render e = Quiz.NoWords \/ Exam.render e = Quiz.Complete) as Hr.
  { unfold Exam.render. destruct (Nat.eqb _ _); [by left|]. rewrite Hc. by right. }
  assert (Exam.timerFires e = e) as Htf by (unfold Exam.timerFires; by rewrite Ht).
  destruct Hr as [Hr|Hr]; rewrite Hr; cbn [exam examStep]; by rewrite Htf, IH.
Qed.

(** A paced exam session from card [i] on. *)
Lemma exam_from uid answers :
  forall (e : Exam.ExamState) (w : Db.World) (i : nat),
    Exam.currentIndex e = Z.of_nat i -> (i < List.length (Exam.words e))%nat ->
    Exam.isComplete e = false -> Exam.timers e = 0%nat ->
    exists e',
      exam uid (paced answers) e w =
      Some (fold_left (examWrite uid) (combine (skipn i (Exam.words e)) answers) w,
            e',
            List.map (fun x => word (details x))
              (firstn (List.length answers) (skipn (i + 2) (Exam.words e)))) /\
      Exam.words e' = Exam.words e /\
      Exam.currentIndex e'
        = Z.of_nat (Nat.min (i + List.length answers) (List.length (Exam.words e) - 1)) /\
      Exam.isComplete e' = (List.length (Exam.words e) <=? i + List.length answers)%nat /\
      Exam.forgotCount e'
        = Exam.forgotCount e
          + forgotten (firstn (List.length (Exam.words e) - i) answers) /\
      Exam.timers e' = 0%nat.
Proof.
  induction answers as [|[env a] rest IH]; intros e w i Hi Hlt Hc Ht.
  - exists e. simpl. rewrite combine_nil. simpl.
    split; [done|]. split; [done|]. split; [rewrite Hi; f_equal; lia|]. split.
    + rewrite Hc. symmetry. apply Nat.leb_gt. lia.
    + split; [|done]. rewrite firstn_nil. unfold forgotten. simpl. lia.
  - destruct (Exam.words e !! i) as [card|] eqn:Hcard;
      [|apply lookup_ge_None in Hcard; lia].
    rewrite paced_cons. cbn [exam examStep].
    rewrite (exam_render_card e i card Hi Hcard Hc).
    rewrite (handleNext_card env uid e a w i card Hi Hcard).
    rewrite (skipn_cons_lookup _ _ _ Hcard). cbn [combine fold_left].
    assert (firstn (List.length (Exam.words e) - i) ((env, a) :: rest)
            = (env, a) :: firstn (List.length (Exam.words e) - S i) rest) as Hfirst.
    { replace (List.length (Exam.words e) - i)%nat
        with (S (List.length (Exam.words e) - S i)) by lia. done. }
    assert (forall fc l, (if a then fc + 1 else fc) + forgotten l
                         = fc + forgotten ((env, a) :: l)) as Hcount.
    { intros fc l. unfold forgotten. simpl. destruct a; simpl List.length; lia. }
    destruct (S i <? List.length (Exam.words e))%nat eqn:Hnext.
    + apply Nat.ltb_lt in Hnext.
      unfold Exam.timerFires. cbn [Exam.timers]. rewrite Ht.
      cbn [Exam.words Exam.currentIndex Exam.isFlipped Exam.isComplete Exam.forgotCount].
      set (e1 := {| Exam.words := Exam.words e; Exam.currentIndex := Z.of_nat i + 1;
                    Exam.isFlipped := false; Exam.isComplete := Exam.isComplete e;
                    Exam.forgotCount := if a then Exam.forgotCount e + 1
                                        else Exam.forgotCount e;
                    Exam.timers := 0 |}).
      destruct (IH e1 (examWrite uid w (card, (env, a))) (S i))
        as (e' & He & Hwords & Hidx & Hcomp & Hfc & Htim);
        [cbn; lia|done|done|done|].
      exists e'. split.
      * rewrite He. cbn [Exam.words e1]. do 3 f_equal.
        rewrite app_nil_l, <- List.map_app. f_equal.
        replace (S i + 2)%nat with (S (i + 2)) by lia.
        apply firstn_S_skipn.
      * cbn [Exam.words Exam.forgotCount e1] in *. split; [done|]. split.
        { rewrite Hidx. simpl List.length. f_equal. lia. }
        split; [rewrite Hcomp; simpl List.length; f_equal; lia|].
        split; [|done]. by rewrite Hfc, Hfirst, Hcount.
    + apply Nat.ltb_ge in Hnext.
      set (e1 := {| Exam.words := Exam.words e; Exam.currentIndex := Z.of_nat i;
                    Exam.isFlipped := Exam.isFlipped e; Exam.isComplete := true;
                    Exam.forgotCount := if a then Exam.forgotCount e + 1
                                        else Exam.forgotCount e;
                    Exam.timers := Exam.timers e |}).
      assert (Exam.timerFires e1 = e1) as ->
        by (unfold Exam.timerFires; cbn [Exam.timers e1]; by rewrite Ht).
      rewrite (exam_done uid rest e1) by done.
      exists e1. split.
      * rewrite !skipn_all2 by lia. by destruct rest.
      * cbn [Exam.words Exam.currentIndex Exam.isComplete Exam.forgotCount
               Exam.timers e1].
        split; [done|]. split; [f_equal; simpl List.length; lia|]. split.
        { symmetry. apply Nat.leb_le. simpl List.length. lia. }
        split; [|done]. rewrite Hfirst.
        replace (List.length (Exam.words e) - S i)%nat with 0%nat by lia.
        rewrite <- Hcount. unfold forgotten. simpl. lia.
Qed.

End ExamSessions.

(** When the user waits for the next card before answering again, a
    review session, quiz or exam, works through the deck card by card:
    after [k] answers on a deck of [n] cards the card shown is number
    min (k, n - 1), the session is complete exactly when [k] reaches [n],
    no timer is left, and the screen never breaks on a missing card. *)
Theorem sessions_run_through_the_deck
    (uid : string) (mode : Quiz.QuizMode) (deck : list StoredWord)
    (answers : list (Db.Env * bool)) (w : Db.World) :
  deck <> [] ->
  (exists w' q' pf,
     Session.quiz uid mode (Session.paced answers) (Session.quizStart deck) w
       = Some (w', q', pf) /\
     Quiz.words q' = deck /\
     Quiz.currentIndex q'
       = Z.of_nat (Nat.min (List.length answers) (List.length deck - 1)) /\
     (Quiz.isComplete q' = true <-> (List.length deck <= List.length answers)%nat) /\
     Quiz.timers q' = 0%nat /\ Quiz.render q' <> Quiz.Broken) /\
  (exists w' e' pf,
     Session.exam uid (Session.paced answers) (Session.examStart deck) w
       = Some (w', e', pf) /\
     Exam.words e' = deck /\
     Exam.currentIndex e'
       = Z.of_nat (Nat.min (List.length answers) (List.length deck - 1)) /\
     (Exam.isComplete e' = true <-> (List.length deck <= List.length answers)%nat) /\
     Exam.timers e' = 0%nat /\ Exam.render e' <> Quiz.Broken /\
     Exam.forgotCount e' = Session.forgotten (firstn (List.length deck) answers) /\
     0 <= Exam.forgotCount e' <= Z.of_nat (List.length deck)).
Proof.
  intros Hne.
  assert (0 < List.length deck)%nat as Hlen by (destruct deck; [done|simpl; lia]).
  split.
  - destruct (quiz_from uid mode answers (Session.quizStart deck) w 0)
      as (q' & Hq & Hw & Hi & Hc & Ht); [done|done|done|done|].
    eexists _, q', _. split; [exact Hq|]. split; [exact Hw|]. split; [exact Hi|].
    split; [rewrite Hc; simpl; apply Nat.leb_le|]. split; [exact Ht|].
    unfold Quiz.render. rewrite Hw, Hi, index_nat.
    cbn [Session.quizStart Quiz.words].
    destruct (Nat.eqb _ _); [done|]. destruct (Quiz.isComplete q'); [done|].
    destruct (deck !! _) as [x|] eqn:Hx; [done|].
    apply lookup_ge_None in Hx. lia.
  - destruct (exam_from uid answers (Session.examStart deck) w 0)
      as (e' & He & Hw & Hi & Hc & Hf & Ht); [done|done|done|done|].
    eexists _, e', _. split; [exact He|]. split; [exact Hw|]. split; [exact Hi|].
    split; [rewrite Hc; simpl; apply Nat.leb_le|]. split; [exact Ht|]. split.
    { unfold Exam.render. rewrite Hw, Hi, index_nat.
      cbn [Session.examStart Exam.words].
      destruct (Nat.eqb _ _); [done|]. destruct (Exam.isComplete e'); [done|].
      destruct (deck !! _) as [x|] eqn:Hx; [done|].
      apply lookup_ge_None in Hx. lia. }
    simpl in Hf. rewrite Nat.sub_0_r in Hf. split; [exact Hf|].
    rewrite Hf. unfold Session.forgotten.
    pose proof (filter_length_le snd (firstn (List.length deck) answers)) as H1.
    pose proof (firstn_le_length (List.length deck) answers) as H2.
    pose proof (length_firstn (List.length deck) answers) as H3.
    lia.
Qed.

Lemma sessions_run_through_the_deck_witness :
  exists w' q',
    Session.quiz "u1" Quiz.due (Session.paced [(Sample.online, true)])
      (Session.quizStart [Sample.stored Sample.apple "w1" 0]) Sample.w_remote
    = Some (w', q', []) /\
    Quiz.isComplete q' = true /\ Quiz.currentIndex q' = 0.
Proof.
  destruct (sessions_run_through_the_deck "u1" Quiz.due
              [Sample.stored Sample.apple "w1" 0] [(Sample.online, true)]
              Sample.w_remote ltac:(discriminate))
    as [(w' & q' & pf & Hq & _ & Hi & Hc & _) _].
  exists w', q'. split.
  - rewrite Hq. vm_compute in Hq. injection Hq as _ _ <-. reflexivity.
  - split; [apply Hc; simpl; lia|exact Hi].
Defined.

(** Two answers before the first timer has run, on a deck of two cards:
    the first card is recorded twice, the second never, and once both
    timers have run the index is past the last card and the screen
    breaks. *)
Example hasty_answers_skip_a_card :
  let deck := [Sample.stored Sample.apple "w1" 0; Sample.stored Sample.pear "w2" 0] in
  let w := {| Db.remote := {[ "u1" := {[ "w1" := Sample.stored Sample.apple "w1" 0;
                                        "w2" := Sample.stored Sample.pear "w2" 0 ]} ]};
              Db.localStorage := ∅ |} in
  exists w' q' pf,
    Session.quiz "u1" Quiz.due
      [Session.Answer Sample.online true; Session.Answer Sample.online true;
       Session.TimerFires; Session.TimerFires]
      (Session.quizStart deck) w = Some (w', q', pf) /\
    Db.remoteWord w' "u1" "w2" = Some (Sample.stored Sample.pear "w2" 0) /\
    Quiz.currentIndex q' = 2 /\ Quiz.render q' = Quiz.Broken.
Proof.
  intros deck w. eexists _, _, _. split; [vm_compute; reflexivity|].
  split; [vm_compute; reflexivity|]. split; reflexivity.
Qed.

(** When the user waits for the next card before answering again, every
    card's word is asked to be prefetched exactly once before its card
    comes up: the first two when the deck is loaded, each later one two
    cards ahead, so that over a complete session the prefetch requests
    are the words of the deck in deck order. *)
Theorem session_prefetches_the_deck
    (uid : string) (mode : Quiz.QuizMode) (deck : list StoredWord)
    (answers : list (Db.Env * bool)) (w : Db.World) :
  deck <> [] -> (List.length deck <= List.length answers)%nat ->
  (exists w' q' pf,
     Session.quiz uid mode (Session.paced answers) (Session.quizStart deck) w
       = Some (w', q', pf) /\
     (Session.loadPrefetch deck ++ pf)%list
       = List.map (fun x => word (details x)) deck) /\
  (exists w' e' pf,
     Session.exam uid (Session.paced answers) (Session.examStart deck) w
       = Some (w', e', pf) /\
     (Session.loadPrefetch deck ++ pf)%list
       = List.map (fun x => word (details x)) deck).
Proof.
  intros Hne Hk.
  assert (0 < List.length deck)%nat as Hlen by (destruct deck; [done|simpl; lia]).
  assert ((Session.loadPrefetch deck
           ++ List.map (fun x => word (details x))
                (firstn (List.length answers) (skipn (0 + 2) deck)))%list
          = List.map (fun x => word (details x)) deck) as Hall.
  { unfold Session.loadPrefetch. rewrite <- List.map_app. f_equal.
    assert (firstn (List.length answers) (skipn (0 + 2) deck) = skipn (0 + 2) deck)
      as -> by (apply firstn_all2; rewrite length_skipn; lia).
    apply firstn_skipn. }
  split.
  - destruct (quiz_from uid mode answers (Session.quizStart deck) w 0)
      as (q' & Hq & _); [done|done|done|done|].
    eexists _, q', _. split; [exact Hq|exact Hall].
  - destruct (exam_from uid answers (Session.examStart deck) w 0)
      as (e' & He & _); [done|done|done|done|].
    eexists _, e', _. split; [exact He|exact Hall].
Qed.

Lemma session_prefetches_the_deck_witness :
  let deck := [Sample.stored Sample.apple "w1" 0; Sample.stored Sample.pear "w2" 0;
               Sample.stored Sample.apple "w3" 1] in
  let answers := [(Sample.online, true); (Sample.online, false); (Sample.online, true)] in
  exists w' q' pf,
    Session.quiz "u1" Quiz.ffl (Session.paced answers) (Session.quizStart deck)
      Sample.w_remote = Some (w', q', pf) /\
    Session.loadPrefetch deck = ["apple"; "pear"] /\ pf = ["apple"].
Proof.
  intros deck answers.
  destruct (session_prefetches_the_deck "u1" Quiz.ffl deck answers Sample.w_remote
              ltac:(discriminate) ltac:(simpl; lia))
    as [(w' & q' & pf & Hq & Hall) _].
  exists w', q', pf. split; [exact Hq|]. split; [reflexivity|].
  vm_compute in Hq. injection Hq as _ _ <-. reflexivity.
Defined.

(** The practice mode over the Frequently Forgot List never writes to the
    store: whatever the answers and whenever they are given, both stores
    are the same after the session as before. *)
Theorem ffl_practice_never_writes
    (uid : string) (evs : list Session.Event) (q : Quiz.QuizState)
    (w w' : Db.World) (q' : Quiz.QuizState) (pf : list string) :
  Session.quiz uid Quiz.ffl evs q w = Some (w', q', pf) -> w' = w.
Proof.
  revert q w w' q' pf. induction evs as [|ev rest IH]; intros q w w' q' pf.
  - by intros [= <- _ _].
  - cbn [Session.quiz].
    destruct (Session.quizStep uid Quiz.ffl ev q w) as [[[w1 q1] pf1]|] eqn:Hstep;
      [|discriminate].
    assert (w1 = w) as ->.
    { destruct ev as [env a|]; cbn [Session.quizStep] in Hstep.
      - destruct (Quiz.render q); try by injection Hstep as <- _ _.
        unfold Quiz.handleResult in Hstep.
        destruct (_ <? _) in Hstep; by injection Hstep as <- _ _.
      - by injection Hstep as <- _ _. }
    destruct (Session.quiz uid Quiz.ffl rest q1 w) as [[[w2 q2] pf2]|] eqn:Hrest;
      [|discriminate].
    intros [= <- _ _]. by apply IH in Hrest.
Qed.

Lemma ffl_practice_never_writes_witness :
  exists q' pf,
    Session.quiz "u1" Quiz.ffl
      [Session.Answer Sample.online false; Session.Answer Sample.online true;
       Session.TimerFires]
      (Session.quizStart [Sample.stored Sample.apple "w1" 0;
                          Sample.stored Sample.pear "w2" 0]) Sample.w_remote
    = Some (Sample.w_remote, q', pf).
Proof.
  destruct (Session.quiz "u1" Quiz.ffl
              [Session.Answer Sample.online false; Session.Answer Sample.online true;
               Session.TimerFires]
              (Session.quizStart [Sample.stored Sample.apple "w1" 0;
                                  Sample.stored Sample.pear "w2" 0]) Sample.w_remote)
    as [[[w' q'] pf]|] eqn:Hq; [|vm_compute in Hq; discriminate].
  exists q', pf.
  by rewrite (ffl_practice_never_writes "u1" _ _ _ w' q' pf Hq).
Defined.

(** ** A whole session against the remote store *)

Section FoldWrites.
Import Db.
Variable uid : string.
Variable Item : Type.
Variable key : Item -> string.
Variable write : World -> Item -> World.
Variable upd : Item -> StoredWord -> StoredWord.
Variable ok : Item -> Prop.
Hypothesis write_at :
  forall w it d, ok it -> remoteWord w uid (key it) = Some d ->
                 remoteWord (write w it) uid (key it) = Some (upd it d).
Hypothesis write_other :
  forall w it k, k <> key it -> remoteWord (write w it) uid k = remoteWord w uid k.

(** Writes to pairwise different documents do not disturb each other. *)
Lemma fold_writes items :
  forall w,
    NoDup (List.map key items) ->
    (forall it, In it items -> ok it) ->
    (forall it, In it items -> is_Some (remoteWord w uid (key it))) ->
    (forall it, In it items ->
       exists d, remoteWord w uid (key it) = Some d /\
                 remoteWord (fold_left write items w) uid (key it) = Some (upd it d)) /\
    (forall k, ~ In k (List.map key items) ->
       remoteWord (fold_left write items w) uid k = remoteWord w uid k).
Proof.
  induction items as [|it0 items IH]; intros w Hnd Hok Hex.
  - split; [intros it []|done].
  - apply NoDup_cons in Hnd as [Hnotin Hnd].
    assert (forall it, In it items -> key it <> key it0) as Hdiff.
    { intros it Hin Heq. apply Hnotin. rewrite <- Heq.
      apply list_elem_of_In, in_map, Hin. }
    destruct (Hex it0 (or_introl eq_refl)) as [d0 Hd0].
    destruct (IH (write w it0) Hnd) as [Hat Hoth].
    { intros it Hin. apply Hok. by right. }
    { intros it Hin. rewrite write_other by (by apply Hdiff). apply Hex. by right. }
    simpl. split.
    + intros it [<-|Hin].
      * exists d0. split; [done|]. rewrite Hoth.
        -- apply write_at; [apply Hok; by left|done].
        -- intros Hin. apply Hnotin. by apply list_elem_of_In.
      * destruct (Hat it Hin) as (d & Hd & Hd'). exists d. split; [|done].
        rewrite write_other in Hd by (by apply Hdiff). done.
    + intros k Hk. rewrite Hoth by (intros Hin; apply Hk; by right).
      apply write_other. intros ->. apply Hk. by left.
Qed.

End FoldWrites.

Section Combine.

Lemma combine_lookup {A B} (l1 : list A) (l2 : list B) i a b :
  l1 !! i = Some a -> l2 !! i = Some b -> In (a, b) (combine l1 l2).
Proof.
  revert l2 i. induction l1 as [|x l1 IH]; intros [|y l2] [|i]; simpl; try done.
  - intros [= ->] [= ->]. by left.
  - intros H1 H2. right. by apply (IH l2 i).
Qed.

Lemma combine_keys {A B C} (f : A -> C) (l1 : list A) (l2 : list B) :
  List.length l2 = List.length l1 ->
  List.map (fun ab => f (fst ab)) (combine l1 l2) = List.map f l1.
Proof.
  revert l2. induction l1 as [|x l1 IH]; intros [|y l2]; simpl; try done.
  intros [= H]. f_equal. by apply IH.
Qed.

Lemma skipn_0_eq {A} (l : list A) : skipn 0 l = l.
Proof. reflexivity. Qed.

End Combine.

(** A complete daily quiz against the remote store, the user waiting for
    the next card before answering again and the writes going through:
    each card of the deck has been recorded with the stage and the date
    its answer gives. Its lexical fields and its forgotten flag are as
    before, and no word outside the deck has changed. In a time zone
    whose offset does not move by the whole interval, a card is still
    due at the time of its answer exactly when it was answered
    wrongly. *)
Theorem daily_quiz_leaves_only_failures_due
    (uid : string) (deck : list StoredWord) (answers : list (Db.Env * bool))
    (w : Db.World) :
  deck <> [] -> List.length answers = List.length deck ->
  NoDup (List.map id deck) ->
  (forall card, In card deck ->
     Js.startsWith "local_" (id card) = false /\
     is_Some (Db.remoteWord w uid (id card))) ->
  (forall ea, In ea answers -> Db.updateDocError (fst ea) = None) ->
  exists w' q' pf,
    Session.quiz uid Quiz.due (Session.paced answers) (Session.quizStart deck) w
      = Some (w', q', pf) /\
    Quiz.isComplete q' = true /\
    (forall i card env a,
       deck !! i = Some card -> answers !! i = Some (env, a) ->
       exists d x',
         Db.remoteWord w uid (id card) = Some d /\
         Db.remoteWord w' uid (id card) = Some x' /\
         details x' = details d /\ isInFFL x' = isInFFL d /\
         srsStage x' = Srs.newStage a (srsStage card) /\
         nextReviewAt x'
           = Srs.nextReviewDate (Db.timeZone env) (Db.now env) a (srsStage card) /\
         (Srs.readsBack (Db.timeZone env) (Db.now env) ->
          Srs.offsetWithin (Db.timeZone env) (Db.now env)
            (Srs.daysToAdd true (srsStage card)) ->
          Db.isDue env x' = negb a)) /\
    (forall k, ~ In k (List.map id deck) ->
       Db.remoteWord w' uid k = Db.remoteWord w uid k).
Proof.
  intros Hne Hlen Hnd Hdeck Hans.
  assert (0 < List.length deck)%nat as Hpos by (destruct deck; [done|simpl; lia]).
  destruct (quiz_from uid Quiz.due answers (Session.quizStart deck) w 0)
    as (q' & Hq & _ & _ & Hc & _); [done|done|done|done|].
  cbn [Session.quizStart Quiz.words] in Hq, Hc. rewrite skipn_0_eq in Hq.
  set (items := combine deck answers) in *.
  set (upd := fun (ca : StoredWord * (Db.Env * bool)) (d : StoredWord) =>
                set_progress d (Srs.newStage (snd (snd ca)) (srsStage (fst ca)))
                  (Srs.nextReviewDate (Db.timeZone (fst (snd ca)))
                     (Db.now (fst (snd ca))) (snd (snd ca)) (srsStage (fst ca)))
                  (Db.serverNow (fst (snd ca)))).
  destruct (fold_writes uid (StoredWord * (Db.Env * bool)) (fun ca => id (fst ca))
              (Session.quizWrite uid Quiz.due) upd
              (fun ca => Js.startsWith "local_" (id (fst ca)) = false /\
                         Db.updateDocError (fst (snd ca)) = None)) with (items := items) (w := w)
    as [Hat Hoth].
  - intros w0 [card [env a]] d [Hp He] Hd. unfold Session.quizWrite, upd. simpl in *.
    by apply updateWordProgress_remote.
  - intros w0 [card [env a]] k Hk. unfold Session.quizWrite. simpl in *.
    destruct (updateWordProgress_updatedBy env uid (id card) a (srsStage card) w0)
      as (f & Hf & Hu).
    by destruct (updatedBy_onlyTouches f uid (id card) w0 _ Hf Hu) as (_ & Ho & _); auto.
  - subst items. by rewrite (combine_keys id deck answers Hlen).
  - intros [card ea] Hin. simpl. split.
    + apply in_combine_l in Hin. by destruct (Hdeck card Hin).
    + apply in_combine_r in Hin. by apply Hans.
  - intros [card ea] Hin. simpl. apply in_combine_l in Hin. by destruct (Hdeck card Hin).
  - eexists _, q', _. split; [exact Hq|]. split.
    { rewrite Hc. apply Nat.leb_le. lia. }
    split.
    + intros i card env a Hcard Hea.
      destruct (Hat (card, (env, a))) as (d & Hd & Hd').
      { subst items. by apply (combine_lookup deck answers i). }
      simpl in Hd, Hd'. exists d, (upd (card, (env, a)) d).
      split; [exact Hd|]. split; [exact Hd'|]. unfold upd.
      cbn [details isInFFL srsStage nextReviewAt set_progress fst snd].
      split; [done|]. split; [done|]. split; [done|]. split; [done|].
      unfold Db.isDue, Srs.readsBack, Srs.offsetWithin.
      cbn [nextReviewAt set_progress fst snd].
      unfold Srs.nextReviewDate, Srs.addDays, Srs.UTC, Srs.LocalTime, Srs.MS_PER_DAY.
      intros Hback Hjump. destruct a; cbn [negb].
      * apply Z.leb_gt. lia.
      * change (Srs.daysToAdd false (srsStage card)) with 0.
        apply Z.leb_le.
        replace (Db.now env + Srs.offsetAt (Db.timeZone env) (Db.now env) + 0 * 86400000)
          with (Db.now env + Srs.offsetAt (Db.timeZone env) (Db.now env)) by lia.
        lia.
    + intros k Hk. apply Hoth. subst items.
      by rewrite (combine_keys id deck answers Hlen).
Qed.

Lemma daily_quiz_leaves_only_failures_due_witness :
  exists w' q' pf x',
    Session.quiz "u1" Quiz.due (Session.paced [(Sample.online, true)])
      (Session.quizStart [Sample.stored Sample.apple "w1" 0]) Sample.w_remote
      = Some (w', q', pf) /\
    Db.remoteWord w' "u1" "w1" = Some x' /\
    srsStage x' = 1 /\ Db.isDue Sample.online x' = false.
Proof.
  destruct (daily_quiz_leaves_only_failures_due "u1"
              [Sample.stored Sample.apple "w1" 0] [(Sample.online, true)]
              Sample.w_remote)
    as (w' & q' & pf & Hq & _ & Hcards & _).
  - discriminate.
  - reflexivity.
  - apply NoDup_singleton.
  - intros card [<-|[]]. split; [reflexivity|].
    exists (Sample.stored Sample.apple "w1" 0). vm_compute. reflexivity.
  - intros ea [<-|[]]. reflexivity.
  - destruct (Hcards 0%nat (Sample.stored Sample.apple "w1" 0) Sample.online true
                eq_refl eq_refl) as (d & x' & _ & Hx' & _ & _ & Hst & _ & Hdue).
    exists w', q', pf, x'. split; [exact Hq|]. split; [exact Hx'|].
    split; [exact Hst|]. apply Hdue; vm_compute; [discriminate|reflexivity].
Defined.

(** A complete exam against the remote store, the user waiting for the
    next card before answering again and the writes going through: the
    cards answered as forgotten, and only they, have been flagged. Every
    other field of a flagged card, every card answered as known and
    every word outside the deck is as before, so the exam never
    reschedules a word. The count shown at the end is the number of
    cards answered as forgotten. *)
Theorem exam_flags_exactly_the_forgotten
    (uid : string) (deck : list StoredWord) (answers : list (Db.Env * bool))
    (w : Db.World) :
  deck <> [] -> List.length answers = List.length deck ->
  NoDup (List.map id deck) ->
  (forall card, In card deck ->
     Js.startsWith "local_" (id card) = false /\
     is_Some (Db.remoteWord w uid (id card))) ->
  (forall ea, In ea answers -> snd ea = true -> Db.updateDocError (fst ea) = None) ->
  exists w' e' pf,
    Session.exam uid (Session.paced answers) (Session.examStart deck) w
      = Some (w', e', pf) /\
    Exam.isComplete e' = true /\
    Exam.forgotCount e' = Session.forgotten answers /\
    (forall i card env (forgot : bool),
       deck !! i = Some card -> answers !! i = Some (env, forgot) ->
       exists d,
         Db.remoteWord w uid (id card) = Some d /\
         Db.remoteWord w' uid (id card)
           = Some (if forgot then set_isInFFL d true else d)) /\
    (forall k, ~ In k (List.map id deck) ->
       Db.remoteWord w' uid k = Db.remoteWord w uid k).
Proof.
  intros Hne Hlen Hnd Hdeck Hans.
  assert (0 < List.length deck)%nat as Hpos by (destruct deck; [done|simpl; lia]).
  destruct (exam_from uid answers (Session.examStart deck) w 0)
    as (e' & He & _ & _ & Hc & Hf & _); [done|done|done|done|].
  cbn [Session.examStart Exam.words Exam.forgotCount] in He, Hc, Hf.
  rewrite skipn_0_eq in He.
  set (items := combine deck answers) in *.
  set (upd := fun (ca : StoredWord * (Db.Env * bool)) (d : StoredWord) =>
                if snd (snd ca) then set_isInFFL d true else d).
  destruct (fold_writes uid (StoredWord * (Db.Env * bool)) (fun ca => id (fst ca))
              (Session.examWrite uid) upd
              (fun ca => Js.startsWith "local_" (id (fst ca)) = false /\
                         (snd (snd ca) = true ->
                          Db.updateDocError (fst (snd ca)) = None)))
    with (items := items) (w := w) as [Hat Hoth].
  - intros w0 [card [env a]] d [Hp He0] Hd. unfold Session.examWrite, upd. simpl in *.
    destruct a; [|exact Hd]. apply markWordAsForgot_remote; auto.
  - intros w0 [card [env a]] k Hk. unfold Session.examWrite. simpl in *.
    destruct a; [|done].
    pose proof (markWordAsForgot_updatedBy env uid (id card) w0) as Hu.
    assert (Inv.keepsIdentity (fun x => set_isInFFL x true)) as Hk' by (by intros y).
    by destruct (updatedBy_onlyTouches _ uid (id card) w0 _ Hk' Hu) as (_ & Ho & _); auto.
  - subst items. by rewrite (combine_keys id deck answers Hlen).
  - intros [card ea] Hin. simpl. split.
    + apply in_combine_l in Hin. by destruct (Hdeck card Hin).
    + apply in_combine_r in Hin. by apply Hans.
  - intros [card ea] Hin. simpl. apply in_combine_l in Hin. by destruct (Hdeck card Hin).
  - eexists _, e', _. split; [exact He|]. split.
    { rewrite Hc. apply Nat.leb_le. lia. }
    split.
    { rewrite Hf, Nat.sub_0_r, <- Hlen, firstn_all. lia. }
    split.
    + intros i card env a Hcard Hea.
      destruct (Hat (card, (env, a))) as (d & Hd & Hd').
      { subst items. by apply (combine_lookup deck answers i). }
      exists d. split; [exact Hd|exact Hd'].
    + intros k Hk. apply Hoth. subst items.
      by rewrite (combine_keys id deck answers Hlen).
Qed.

Lemma exam_flags_exactly_the_forgotten_witness :
  exists w' e' pf d,
    Session.exam "u1" (Session.paced [(Sample.online, true)])
      (Session.examStart [Sample.stored Sample.apple "w1" 0]) Sample.w_remote
      = Some (w', e', pf) /\
    Exam.forgotCount e' = 1 /\
    Db.remoteWord Sample.w_remote "u1" "w1" = Some d /\
    Db.remoteWord w' "u1" "w1" = Some (set_isInFFL d true).
Proof.
  destruct (exam_flags_exactly_the_forgotten "u1"
              [Sample.stored Sample.apple "w1" 0] [(Sample.online, true)]
              Sample.w_remote)
    as (w' & e' & pf & He & _ & Hn & Hcards & _).
  - discriminate.
  - reflexivity.
  - apply NoDup_singleton.
  - intros card [<-|[]]. split; [reflexivity|].
    exists (Sample.stored Sample.apple "w1" 0). vm_compute. reflexivity.
  - intros ea [<-|[]] _. reflexivity.
  - destruct (Hcards 0%nat (Sample.stored Sample.apple "w1" 0) Sample.online true
                eq_refl eq_refl) as (d & Hd & Hd').
    exists w', e', pf, d. split; [exact He|]. split; [exact Hn|].
    split; [exact Hd|exact Hd'].
Defined.
